(** * FetchForge: the task orchestration engine of [app.go]

    A shallow embedding of the Go program: the task store ([App.tasks],
    [App.order], [App.queue]), submission, deletion, import/export, the
    resume heuristic, the worker-side mutations and the metadata resolver,
    followed by the properties the specification states about them.

    Conventions of the embedding.
    - A Go [string] is a Rocq [string]: a sequence of bytes.  Library
      functions are written on bytes; where Go decodes UTF-8
      ([strings.TrimSpace], [strings.ToLower]) the byte patterns are written
      out, and what depends on the Unicode tables is an oracle of [Env].
    - A [time.Time] is the instant it denotes, in nanoseconds, as a [Z];
      [time.Now()] is an argument of the operation that calls it.
    - [int] and [int64] are 64-bit: results are wrapped with [wrap64].
    - The operating system (files, home directory, directory walks) and the
      libraries that are not part of the repository ([net/url],
      [path/filepath], [encoding/json]) are fields of [Env] or section
      variables.
    - The channel [App.queue] is the sequence of ids sent on it. *)

From Stdlib Require Import ZArith Lia Ascii DecimalString QArith.
From stdpp Require Import base option list strings gmap fin_maps.

Local Open Scope Z_scope.

(** ** Go's [strings] package, on bytes *)

Module GoStrings.

Definition byte_eqb (a b : ascii) : bool := Ascii.eqb a b.

Definition code (c : ascii) : Z := Z.of_N (N_of_ascii c).

Definition byte (n : Z) : ascii := ascii_of_N (Z.to_N n).

(** [len(s)] as a [nat]. *)
Definition len (s : string) : nat := String.length s.

(** [strings.HasPrefix(s, prefix)]. *)
Fixpoint HasPrefix (s prefix : string) : bool :=
  match prefix, s with
  | EmptyString, _ => true
  | String _ _, EmptyString => false
  | String p prefix', String c s' => byte_eqb c p && HasPrefix s' prefix'
  end.

(** [s[n:]] for [n <= len(s)]. *)
Fixpoint drop (n : nat) (s : string) : string :=
  match n, s with
  | O, _ => s
  | S n', String _ s' => drop n' s'
  | S _, EmptyString => EmptyString
  end.

(** [s[:n]] for [n <= len(s)]. *)
Fixpoint take (n : nat) (s : string) : string :=
  match n, s with
  | O, _ => EmptyString
  | S n', String c s' => String c (take n' s')
  | S _, EmptyString => EmptyString
  end.

(** [strings.TrimPrefix(s, prefix)]. *)
Definition TrimPrefix (s prefix : string) : string :=
  if HasPrefix s prefix then drop (len prefix) s else s.

(** [strings.HasSuffix(s, suffix)]: some tail of [s] is [suffix]. *)
Fixpoint HasSuffix (s suffix : string) : bool :=
  if String.eqb s suffix then true
  else match s with
       | EmptyString => false
       | String _ s' => HasSuffix s' suffix
       end.

(** [strings.TrimSuffix(s, suffix)]. *)
Definition TrimSuffix (s suffix : string) : string :=
  if HasSuffix s suffix then take (len s - len suffix) s else s.

(** [strings.Contains(s, substr)]. *)
Fixpoint Contains (s substr : string) : bool :=
  HasPrefix s substr ||
  match s with
  | EmptyString => false
  | String _ s' => Contains s' substr
  end.

(** [strings.Join(elems, sep)]. *)
Fixpoint Join (elems : list string) (sep : string) : string :=
  match elems with
  | [] => EmptyString
  | [e] => e
  | e :: rest => e +:+ sep +:+ Join rest sep
  end.

(** The white space of [strings.TrimSpace] ([unicode.IsSpace]) in UTF-8:
    the six ASCII bytes, U+0085, U+00A0, U+1680, U+2000..U+200A, U+2028,
    U+2029, U+202F, U+205F and U+3000. *)
Definition asciiSpace (c : ascii) : bool :=
  let n := code c in
  (n =? 9) || (n =? 10) || (n =? 11) || (n =? 12) || (n =? 13) || (n =? 32).

Definition spaceWidth (s : string) : nat :=
  match s with
  | String c0 r0 =>
      if asciiSpace c0 then 1%nat
      else match r0 with
      | String c1 r1 =>
          let a := code c0 in
          let b := code c1 in
          if (a =? 194) && ((b =? 133) || (b =? 160)) then 2%nat
          else match r1 with
          | String c2 _ =>
              let c := code c2 in
              if (a =? 225) && (b =? 154) && (c =? 128) then 3%nat
              else if (a =? 226) && (b =? 128) &&
                      (((128 <=? c) && (c <=? 138)) || (c =? 168) ||
                       (c =? 169) || (c =? 175)) then 3%nat
              else if (a =? 226) && (b =? 129) && (c =? 159) then 3%nat
              else if (a =? 227) && (b =? 128) && (c =? 128) then 3%nat
              else 0%nat
          | EmptyString => 0%nat
          end
      | EmptyString => 0%nat
      end
  | EmptyString => 0%nat
  end.

(** Strip leading white space; [fuel] bounds the number of runes removed. *)
Fixpoint trimLeft (fuel : nat) (s : string) : string :=
  match fuel with
  | O => s
  | S fuel' =>
      match spaceWidth s with
      | O => s
      | w => trimLeft fuel' (drop w s)
      end
  end.

(** Does [s], read backwards, end in a white-space rune?  Its width. *)
Definition spaceWidthLast (s : string) : nat :=
  let n := len s in
  if (1 <=? n)%nat && (spaceWidth (drop (n - 1) s) =? 1)%nat then 1%nat
  else if (2 <=? n)%nat && (spaceWidth (drop (n - 2) s) =? 2)%nat then 2%nat
  else if (3 <=? n)%nat && (spaceWidth (drop (n - 3) s) =? 3)%nat then 3%nat
  else 0%nat.

Fixpoint trimRight (fuel : nat) (s : string) : string :=
  match fuel with
  | O => s
  | S fuel' =>
      match spaceWidthLast s with
      | O => s
      | w => trimRight fuel' (take (len s - w) s)
      end
  end.

(** [strings.TrimSpace(s)]. *)
Definition TrimSpace (s : string) : string :=
  let l := trimLeft (len s) s in trimRight (len l) l.

Fixpoint allBytes (f : ascii -> bool) (s : string) : bool :=
  match s with
  | EmptyString => true
  | String c s' => f c && allBytes f s'
  end.

Definition isASCII (s : string) : bool := allBytes (fun c => code c <? 128) s.

Definition lowerByte (c : ascii) : ascii :=
  let n := code c in
  if (65 <=? n) && (n <=? 90) then byte (n + 32) else c.

Fixpoint mapBytes (f : ascii -> ascii) (s : string) : string :=
  match s with
  | EmptyString => EmptyString
  | String c s' => String (f c) (mapBytes f s')
  end.

(** [strings.ToLower(s)]: byte-wise on ASCII input; on other input Go maps
    [unicode.ToLower] over the decoded runes, which is the oracle
    [unicodeLower]. *)
Definition ToLower (unicodeLower : string -> string) (s : string) : string :=
  if isASCII s then mapBytes lowerByte s else unicodeLower s.

Fixpoint filterBytes (f : ascii -> bool) (s : string) : string :=
  match s with
  | EmptyString => EmptyString
  | String c s' => if f c then String c (filterBytes f s') else filterBytes f s'
  end.

(** [strings.Split(s, sep)] for a one-byte separator. *)
Fixpoint splitByte (sep : ascii) (s : string) : list string :=
  match s with
  | EmptyString => [EmptyString]
  | String c s' =>
      if byte_eqb c sep then EmptyString :: splitByte sep s'
      else match splitByte sep s' with
           | [] => [String c EmptyString]
           | p :: ps => String c p :: ps
           end
  end.

(** [strings.SplitN(s, sep, n)] for a one-byte separator and [n > 0]. *)
Fixpoint splitByteN (sep : ascii) (s : string) (n : nat) {struct s} : list string :=
  match n with
  | O => []
  | S O => [s]
  | S n' =>
      match s with
      | EmptyString => [EmptyString]
      | String c s' =>
          if byte_eqb c sep then EmptyString :: splitByteN sep s' n'
          else match splitByteN sep s' n with
               | [] => [String c EmptyString]
               | p :: ps => String c p :: ps
               end
      end
  end.

End GoStrings.

Import GoStrings.

(** ** Integers of the Go program *)

(** Wrap-around of a 64-bit signed integer ([int], [int64]). *)
Definition wrap64 (n : Z) : Z :=
  (n + 2 ^ 63) mod 2 ^ 64 - 2 ^ 63.

Definition inInt64 (n : Z) : bool := (- 2 ^ 63 <=? n) && (n <? 2 ^ 63).

Definition isDigit (c : ascii) : bool :=
  let n := code c in (48 <=? n) && (n <=? 57).

Definition isHexDigit (c : ascii) : bool :=
  let n := code c in
  ((48 <=? n) && (n <=? 57)) || ((97 <=? n) && (n <=? 102)) ||
  ((65 <=? n) && (n <=? 70)).

(** [strconv.Itoa(n)]. *)
Definition Itoa (n : Z) : string := NilZero.string_of_int (Z.to_int n).

Fixpoint digitsValue (acc : Z) (s : string) : option Z :=
  match s with
  | EmptyString => Some acc
  | String c s' =>
      if isDigit c then digitsValue (acc * 10 + (code c - 48)) s' else None
  end.

(** [strconv.Atoi(s)]: an optional sign and decimal digits; [None] on a
    syntax error or a value outside the 64-bit range. *)
Definition Atoi (s : string) : option Z :=
  let '(negative, body) :=
    match s with
    | String c r =>
        if code c =? 43 then (false, r)
        else if code c =? 45 then (true, r)
        else (false, s)
    | EmptyString => (false, s)
    end in
  if String.eqb body "" then None
  else match digitsValue 0 body with
       | None => None
       | Some v =>
           let n := if negative then - v else v in
           if inInt64 n then Some n else None
       end.

(** The conversions [int(f)] and [int64(f)] of a [float64] decoded from JSON
    (a finite number, here a rational): truncation toward zero.  A value
    outside the 64-bit range converts to the smallest integer, as on amd64;
    the language leaves that case to the implementation. *)
Definition floatToZ (q : Q) : Z :=
  let n := Z.quot (Qnum q) (Zpos (Qden q)) in
  if inInt64 n then n else - 2 ^ 63.

(** ** URL extraction *)

(** The class [\s] of Go's [regexp] (RE2 syntax): tab, newline, form feed,
    carriage return and space. *)
Definition reSpace (c : ascii) : bool :=
  let n := code c in
  (n =? 9) || (n =? 10) || (n =? 12) || (n =? 13) || (n =? 32).

(** The longest prefix of [s] matched by [[^\s]*]. *)
Fixpoint nonSpaceRun (s : string) : string :=
  match s with
  | EmptyString => EmptyString
  | String c s' => if reSpace c then EmptyString else String c (nonSpaceRun s')
  end.

(** The match of [https?://[^\s]+] anchored at the start of [s], if any. *)
Definition matchHere (s : string) : option string :=
  let scheme :=
    if HasPrefix s "https://" then Some "https://"
    else if HasPrefix s "http://" then Some "http://"
    else None in
  match scheme with
  | Some sch =>
      match nonSpaceRun (drop (len sch) s) with
      | EmptyString => None
      | run => Some (sch +:+ run)
      end
  | None => None
  end.

(** [re.FindAllString(text, -1)]: the leftmost match, then the search
    resumes where that match ended.  [skip] counts the bytes of the current
    match that are still to be passed over. *)
Fixpoint findAllFrom (skip : nat) (s : string) : list string :=
  match s with
  | EmptyString => []
  | String _ s' =>
      match skip with
      | S k => findAllFrom k s'
      | O =>
          match matchHere s with
          | Some m => m :: findAllFrom (len m - 1) s'
          | None => findAllFrom O s'
          end
      end
  end.

Definition findAllString (text : string) : list string := findAllFrom O text.

(** The loop of [extractURLs]: [seen] is the map used as a set, [out] the
    slice being appended to. *)
Fixpoint extractLoop (matches : list string) (seen : gset string)
    (out : list string) : list string :=
  match matches with
  | [] => out
  | m :: rest =>
      if decide (m ∈ seen) then extractLoop rest seen out
      else extractLoop rest ({[ m ]} ∪ seen) (out ++ [m])
  end.

Definition extractURLs (text : string) : list string :=
  extractLoop (findAllString text) ∅ [].

(** ** The data model *)

(** [type Task struct]. *)
Record Task := mkTask {
  ID : string;
  URL : string;
  Title : string;
  SourceHost : string;
  Status : string;
  Stage : string;
  Progress : string;
  Speed : string;
  ETA : string;
  OutputPath : string;
  MissingOutput : bool;
  ErrorMessage : string;
  Resume : bool;
  Duration : Z;
  Filesize : Z;
  Width : Z;
  Height : Z;
  CreatedAt : Z;
  UpdatedAt : Z
}.

#[global] Instance Task_eq_dec : EqDecision Task.
Proof. solve_decision. Defined.

Definition statusQueued : string := "Queued".
Definition statusRunning : string := "Running".
Definition statusSuccess : string := "Success".
Definition statusFailed : string := "Failed".

Definition maxConcurrentDownloads : nat := 3.

(** The zero [time.Time] (January 1, year 1, 00:00 UTC) as nanoseconds
    relative to the Unix epoch. *)
Definition zeroTime : Z := - 62135596800 * 1000000000.

Definition second : Z := 1000000000.
Definition minute : Z := 60 * second.

(** The zero value of [Task]. *)
Definition zeroTask : Task :=
  mkTask "" "" "" "" "" "" "" "" "" "" false "" false 0 0 0 0 zeroTime zeroTime.

(** Field assignments [task.F = v]. *)

Definition set_Title (v : string) (t : Task) : Task :=
  mkTask (ID t) (URL t) v (SourceHost t) (Status t) (Stage t) (Progress t)
    (Speed t) (ETA t) (OutputPath t) (MissingOutput t) (ErrorMessage t)
    (Resume t) (Duration t) (Filesize t) (Width t) (Height t) (CreatedAt t)
    (UpdatedAt t).

Definition set_Status (v : string) (t : Task) : Task :=
  mkTask (ID t) (URL t) (Title t) (SourceHost t) v (Stage t) (Progress t)
    (Speed t) (ETA t) (OutputPath t) (MissingOutput t) (ErrorMessage t)
    (Resume t) (Duration t) (Filesize t) (Width t) (Height t) (CreatedAt t)
    (UpdatedAt t).

Definition set_Stage (v : string) (t : Task) : Task :=
  mkTask (ID t) (URL t) (Title t) (SourceHost t) (Status t) v (Progress t)
    (Speed t) (ETA t) (OutputPath t) (MissingOutput t) (ErrorMessage t)
    (Resume t) (Duration t) (Filesize t) (Width t) (Height t) (CreatedAt t)
    (UpdatedAt t).

Definition set_Progress (v : string) (t : Task) : Task :=
  mkTask (ID t) (URL t) (Title t) (SourceHost t) (Status t) (Stage t) v
    (Speed t) (ETA t) (OutputPath t) (MissingOutput t) (ErrorMessage t)
    (Resume t) (Duration t) (Filesize t) (Width t) (Height t) (CreatedAt t)
    (UpdatedAt t).

Definition set_Speed (v : string) (t : Task) : Task :=
  mkTask (ID t) (URL t) (Title t) (SourceHost t) (Status t) (Stage t)
    (Progress t) v (ETA t) (OutputPath t) (MissingOutput t) (ErrorMessage t)
    (Resume t) (Duration t) (Filesize t) (Width t) (Height t) (CreatedAt t)
    (UpdatedAt t).

Definition set_ETA (v : string) (t : Task) : Task :=
  mkTask (ID t) (URL t) (Title t) (SourceHost t) (Status t) (Stage t)
    (Progress t) (Speed t) v (OutputPath t) (MissingOutput t) (ErrorMessage t)
    (Resume t) (Duration t) (Filesize t) (Width t) (Height t) (CreatedAt t)
    (UpdatedAt t).

Definition set_OutputPath (v : string) (t : Task) : Task :=
  mkTask (ID t) (URL t) (Title t) (SourceHost t) (Status t) (Stage t)
    (Progress t) (Speed t) (ETA t) v (MissingOutput t) (ErrorMessage t)
    (Resume t) (Duration t) (Filesize t) (Width t) (Height t) (CreatedAt t)
    (UpdatedAt t).

Definition set_MissingOutput (v : bool) (t : Task) : Task :=
  mkTask (ID t) (URL t) (Title t) (SourceHost t) (Status t) (Stage t)
    (Progress t) (Speed t) (ETA t) (OutputPath t) v (ErrorMessage t)
    (Resume t) (Duration t) (Filesize t) (Width t) (Height t) (CreatedAt t)
    (UpdatedAt t).

Definition set_ErrorMessage (v : string) (t : Task) : Task :=
  mkTask (ID t) (URL t) (Title t) (SourceHost t) (Status t) (Stage t)
    (Progress t) (Speed t) (ETA t) (OutputPath t) (MissingOutput t) v
    (Resume t) (Duration t) (Filesize t) (Width t) (Height t) (CreatedAt t)
    (UpdatedAt t).

Definition set_Resume (v : bool) (t : Task) : Task :=
  mkTask (ID t) (URL t) (Title t) (SourceHost t) (Status t) (Stage t)
    (Progress t) (Speed t) (ETA t) (OutputPath t) (MissingOutput t)
    (ErrorMessage t) v (Duration t) (Filesize t) (Width t) (Height t)
    (CreatedAt t) (UpdatedAt t).

Definition set_Duration (v : Z) (t : Task) : Task :=
  mkTask (ID t) (URL t) (Title t) (SourceHost t) (Status t) (Stage t)
    (Progress t) (Speed t) (ETA t) (OutputPath t) (MissingOutput t)
    (ErrorMessage t) (Resume t) v (Filesize t) (Width t) (Height t)
    (CreatedAt t) (UpdatedAt t).

Definition set_Filesize (v : Z) (t : Task) : Task :=
  mkTask (ID t) (URL t) (Title t) (SourceHost t) (Status t) (Stage t)
    (Progress t) (Speed t) (ETA t) (OutputPath t) (MissingOutput t)
    (ErrorMessage t) (Resume t) (Duration t) v (Width t) (Height t)
    (CreatedAt t) (UpdatedAt t).

Definition set_Width (v : Z) (t : Task) : Task :=
  mkTask (ID t) (URL t) (Title t) (SourceHost t) (Status t) (Stage t)
    (Progress t) (Speed t) (ETA t) (OutputPath t) (MissingOutput t)
    (ErrorMessage t) (Resume t) (Duration t) (Filesize t) v (Height t)
    (CreatedAt t) (UpdatedAt t).

Definition set_Height (v : Z) (t : Task) : Task :=
  mkTask (ID t) (URL t) (Title t) (SourceHost t) (Status t) (Stage t)
    (Progress t) (Speed t) (ETA t) (OutputPath t) (MissingOutput t)
    (ErrorMessage t) (Resume t) (Duration t) (Filesize t) (Width t) v
    (CreatedAt t) (UpdatedAt t).

Definition set_CreatedAt (v : Z) (t : Task) : Task :=
  mkTask (ID t) (URL t) (Title t) (SourceHost t) (Status t) (Stage t)
    (Progress t) (Speed t) (ETA t) (OutputPath t) (MissingOutput t)
    (ErrorMessage t) (Resume t) (Duration t) (Filesize t) (Width t) (Height t)
    v (UpdatedAt t).

Definition set_UpdatedAt (v : Z) (t : Task) : Task :=
  mkTask (ID t) (URL t) (Title t) (SourceHost t) (Status t) (Stage t)
    (Progress t) (Speed t) (ETA t) (OutputPath t) (MissingOutput t)
    (ErrorMessage t) (Resume t) (Duration t) (Filesize t) (Width t) (Height t)
    (CreatedAt t) v.

(** ** The environment: operating system and libraries *)

(** What [os.Stat] and [DirEntry.Info] report of a file. *)
Record FileInfo := mkFileInfo {
  fiIsDir : bool;
  fiSize : Z;
  fiModTime : Z
}.

(** One call of the function passed to [filepath.WalkDir]: either the walk
    reports an error for the entry ([err != nil]), or it passes a
    [DirEntry] with its name, its kind and the result of [d.Info()]. *)
Inductive WalkItem :=
  | WalkError (path : string)
  | WalkEntry (path name : string) (isDir : bool) (info : option FileInfo).

(** The fields of [*url.URL] the program reads. *)
Record ParsedURL := mkParsedURL {
  urlPath : string;
  urlHost : string;
  urlHostname : string
}.

Record Env := mkEnv {
  (** [os.Stat(path)]: [None] when it returns an error. *)
  os_Stat : string -> option FileInfo;
  (** [os.UserHomeDir()]. *)
  os_UserHomeDir : option string;
  (** The calls [filepath.WalkDir(root, fn)] makes to [fn], in order, when
      [fn] always returns [nil]. *)
  filepath_WalkDir : string -> list WalkItem;
  filepath_Join : list string -> string;
  filepath_Base : string -> string;
  filepath_Ext : string -> string;
  (** [t.Format("2006-01-02")]. *)
  time_FormatDate : Z -> string;
  (** [url.Parse(rawURL)]. *)
  url_Parse : string -> option ParsedURL;
  (** [strings.ToLower] on input that is not ASCII. *)
  unicodeLower : string -> string;
  (** [moveToTrash(target)] succeeds. *)
  trashSucceeds : string -> bool;
  (** [json.Unmarshal(text, &[]Task)]: [None] on a decoding error. *)
  json_Unmarshal : string -> option (list Task);
  (** [json.MarshalIndent(tasks, "", "  ")]: [None] on an encoding error. *)
  json_MarshalIndent : list Task -> option string;
  (** [strings.Fields] of the variable [FETCHFORGE_YTDLP_ARGS]. *)
  extraYtDlpArgs : list string
}.

(** ** The application state *)

(** [type App struct]: the store ([tasks], [order]), the ids sent on
    [queue], the active profile, the last command line and the engine path. *)
Record App := mkApp {
  tasks : gmap string Task;
  order : list string;
  queue : list string;
  activeProfileID : string;
  lastCommand : string;
  ytDlpPath : string
}.

Definition defaultProfileID : string := "default".

(** [NewApp()]. *)
Definition NewApp : App := mkApp ∅ [] [] defaultProfileID "" "".

Definition set_tasks (m : gmap string Task) (a : App) : App :=
  mkApp m (order a) (queue a) (activeProfileID a) (lastCommand a) (ytDlpPath a).
Definition set_order (o : list string) (a : App) : App :=
  mkApp (tasks a) o (queue a) (activeProfileID a) (lastCommand a) (ytDlpPath a).
Definition set_queue (q : list string) (a : App) : App :=
  mkApp (tasks a) (order a) q (activeProfileID a) (lastCommand a) (ytDlpPath a).
Definition set_lastCommand (c : string) (a : App) : App :=
  mkApp (tasks a) (order a) (queue a) (activeProfileID a) c (ytDlpPath a).

(** The result of an operation that returns [(T, error)]. *)
Inductive result (A : Type) :=
  | Ok (x : A)
  | Err (msg : string).
Arguments Ok {A} x.
Arguments Err {A} msg.

(** [a.enqueueTasks(ids)]: each id is sent on the channel. *)
Definition enqueueTasks (ids : list string) (a : App) : App :=
  set_queue (queue a ++ ids) a.

(** The loop shared by [ListTasks], [ExportTasks], [saveTasks] and the end of
    [ImportTasks]: the tasks of [order] that are in the map, in order. *)
Fixpoint snapshotOf (m : gmap string Task) (ids : list string) : list Task :=
  match ids with
  | [] => []
  | id :: rest =>
      match m !! id with
      | Some task => task :: snapshotOf m rest
      | None => snapshotOf m rest
      end
  end.

Definition snapshot (a : App) : list Task := snapshotOf (tasks a) (order a).

(** [ListTasks()]. *)
Definition ListTasks (a : App) : list Task := snapshot a.

Section WithEnv.

Variable E : Env.

(** [defaultTitleFromURL(rawURL)]. *)
Definition defaultTitleFromURL (rawURL : string) : string :=
  match url_Parse E rawURL with
  | None => "Pending title"
  | Some parsed =>
      let segment := TrimSpace (filepath_Base E (urlPath parsed)) in
      if String.eqb segment "." || String.eqb segment "/" || String.eqb segment ""
      then (if String.eqb (urlHost parsed) "" then "Pending title"
            else urlHost parsed)
      else
        let name := TrimSuffix segment (filepath_Ext E segment) in
        if String.eqb name "" then "Pending title" else name
  end.

(** [sourceHostFromURL(rawURL)]. *)
Definition sourceHostFromURL (rawURL : string) : string :=
  match url_Parse E rawURL with
  | None => ""
  | Some parsed => TrimPrefix (urlHostname parsed) "www."
  end.

(** [outputMissing(outputPath)]. *)
Definition outputMissing (outputPath : string) : bool :=
  if String.eqb (TrimSpace outputPath) "" then false
  else match os_Stat E outputPath with
       | None => true
       | Some info => fiIsDir info
       end.

(** [taskOutputDir(createdAt)]: [None] when the home directory is unknown. *)
Definition taskOutputDir (createdAt : Z) : option string :=
  match os_UserHomeDir E with
  | None => None
  | Some home =>
      Some (filepath_Join E
              [home; ".fetchforge"; "downloads"; time_FormatDate E createdAt])
  end.

(** *** Submission *)

(** The task literal of [CreateTasksFromText]. *)
Definition newTask (now : Z) (id url : string) : Task :=
  mkTask id url (defaultTitleFromURL url) (sourceHostFromURL url)
    statusQueued "Parse URL" "" "" "" "" false "" false 0 0 0 0 now now.

(** The loop over [urls] under the lock; [newID k] is the result of the
    [k]-th call of [newID()].  Returns the store and the slice [created]. *)
Fixpoint createLoop (now : Z) (newID : nat -> string) (k : nat)
    (urls : list string) (a : App) : App * list Task :=
  match urls with
  | [] => (a, [])
  | url :: rest =>
      let id := newID k in
      let task := newTask now id url in
      let a1 := set_order (order a ++ [id]) (set_tasks (<[id := task]> (tasks a)) a) in
      let '(a2, created) := createLoop now newID (S k) rest a1 in
      (a2, task :: created)
  end.

(** [CreateTasksFromText(text)]: the created tasks and the new state.  The
    metadata prefetch started for each task is [prefetchTaskMetadata]
    below. *)
Definition CreateTasksFromText (now : Z) (newID : nat -> string)
    (text : string) (a : App) : list Task * App :=
  let urls := extractURLs text in
  match urls with
  | [] => ([], a)
  | _ =>
      let '(a1, created) := createLoop now newID O urls a in
      (created, enqueueTasks (map ID created) a1)
  end.

(** *** Deletion *)

(** [DeleteTask(id)]. *)
Definition DeleteTask (id : string) (a : App) : result unit * App :=
  match tasks a !! id with
  | None => (Err "task not found", a)
  | Some task =>
      let outputPath := OutputPath task in
      let trashFailed :=
        negb (String.eqb outputPath "") &&
        match os_Stat E outputPath with
        | Some info => negb (fiIsDir info) && negb (trashSucceeds E outputPath)
        | None => false
        end in
      if trashFailed then (Err "failed to move file to trash", a)
      else
        (Ok tt,
         set_order (filter (fun existing => existing ≠ id) (order a))
           (set_tasks (delete id (tasks a)) a))
  end.

(** *** Export, import and load *)

(** [ExportTasks()]. *)
Definition ExportTasks (a : App) : result string :=
  match json_MarshalIndent E (snapshot a) with
  | Some data => Ok data
  | None => Err "json: encoding error"
  end.

(** The body of the first loop of [ImportTasks] after the id check. *)
Definition prepareRecord (overwriteDownloaded : bool) (t : Task) : Task :=
  let t1 :=
    if overwriteDownloaded && String.eqb (Status t) statusSuccess
    then set_ErrorMessage "" (set_MissingOutput false (set_OutputPath ""
           (set_Progress "" (set_Status statusQueued t))))
    else t in
  set_MissingOutput (outputMissing (OutputPath t1)) t1.

(** [imported[i].MissingOutput = outputMissing(imported[i].OutputPath)]. *)
Definition refreshMissing (t : Task) : Task :=
  set_MissingOutput (outputMissing (OutputPath t)) t.

(** The first loop of [ImportTasks]: it fails at the first blank id. *)
Fixpoint prepareImport (overwriteDownloaded : bool) (imported : list Task)
    : result (list Task) :=
  match imported with
  | [] => Ok []
  | t :: rest =>
      if String.eqb (TrimSpace (ID t)) "" then Err "task id is required"
      else match prepareImport overwriteDownloaded rest with
           | Ok rest' => Ok (prepareRecord overwriteDownloaded t :: rest')
           | Err e => Err e
           end
  end.

(** One iteration of the loop of [case "merge"]; [enqueueIDs] is carried
    along with the store. *)
Definition mergeStep (st : App * list string) (item : Task)
    : App * list string :=
  let '(a, enqueueIDs) := st in
  match tasks a !! ID item with
  | Some existing =>
      if UpdatedAt existing <? UpdatedAt item
      then (set_tasks
              (<[ID item := set_CreatedAt (CreatedAt existing) item]> (tasks a))
              a,
            enqueueIDs)
      else (a, enqueueIDs)
  | None =>
      (set_order (order a ++ [ID item])
         (set_tasks (<[ID item := item]> (tasks a)) a),
       if String.eqb (Status item) statusQueued
       then enqueueIDs ++ [ID item] else enqueueIDs)
  end.

(** One iteration of the loop of [case "replace"]. *)
Definition replaceStep (st : App * list string) (item : Task)
    : App * list string :=
  let '(a, enqueueIDs) := st in
  (set_order (order a ++ [ID item])
     (set_tasks (<[ID item := item]> (tasks a)) a),
   if String.eqb (Status item) statusQueued
   then enqueueIDs ++ [ID item] else enqueueIDs).

(** [case "merge"] applied to the prepared records. *)
Definition importMerge (imported : list Task) (a : App) : list Task * App :=
  let '(a1, enqueueIDs) := fold_left mergeStep imported (a, []) in
  (snapshot a1, enqueueTasks enqueueIDs a1).

(** [case "replace"] applied to the prepared records. *)
Definition importReplace (imported : list Task) (a : App) : list Task * App :=
  let '(a1, enqueueIDs) :=
    fold_left replaceStep imported (set_order [] (set_tasks ∅ a), []) in
  (snapshot a1, enqueueTasks enqueueIDs a1).

(** [ImportTasks(jsonText, mode, overwriteDownloaded)]. *)
Definition ImportTasks (jsonText mode : string) (overwriteDownloaded : bool)
    (a : App) : result (list Task) * App :=
  if String.eqb (TrimSpace jsonText) "" then (Err "empty import payload", a)
  else match json_Unmarshal E jsonText with
  | None => (Err "invalid JSON", a)
  | Some imported =>
      match prepareImport overwriteDownloaded imported with
      | Err e => (Err e, a)
      | Ok prepared =>
          if String.eqb mode "merge" then
            let '(out, a1) := importMerge prepared a in (Ok out, a1)
          else if String.eqb mode "replace" then
            let '(out, a1) := importReplace prepared a in (Ok out, a1)
          else (Err "invalid import mode", a)
      end
  end.

(** The loop of [loadTasks()] over the decoded items. *)
Definition loadStep (a : App) (task : Task) : App :=
  set_order (order a ++ [ID task]) (set_tasks (<[ID task := task]> (tasks a)) a).

(** [loadTasks()]: [file] is the content of the tasks file, [None] when
    it cannot be read. *)
Definition loadTasks (file : option string) (a : App) : App :=
  match file with
  | None => a
  | Some data =>
      match json_Unmarshal E data with
      | None => a
      | Some items => fold_left loadStep items a
      end
  end.

(** *** The resume heuristic *)

Definition isLowerOrDigit (c : ascii) : bool :=
  let n := code c in
  ((97 <=? n) && (n <=? 122)) || ((48 <=? n) && (n <=? 57)).

(** [normalizeForMatch(value)].  The loop ranges over runes and keeps those in
    [a-z0-9]; these are one-byte runes, and no byte of another rune lies in
    their range, so the loop is a filter on bytes. *)
Definition normalizeForMatch (value : string) : string :=
  if String.eqb value "" then ""
  else filterBytes isLowerOrDigit (ToLower (unicodeLower E) value).

(** [isPartialFile(name)]. *)
Definition isPartialFile (name : string) : bool :=
  let lower := ToLower (unicodeLower E) name in
  if Contains lower ".part" then true
  else if HasSuffix lower ".ytdl" then true
  else false.

(** The function [GetTaskResumeStatus] passes to [filepath.WalkDir], on the
    captured variables [(found, foundRecentPartial)]. *)
Definition resumeWalkStep (createdAt : Z) (normalizedTitle : string)
    (st : bool * bool) (item : WalkItem) : bool * bool :=
  let '(found, foundRecentPartial) := st in
  match item with
  | WalkError _ => st
  | WalkEntry _ name isDir info =>
      if found || isDir then st
      else if negb (isPartialFile name) then st
      else
        let foundRecentPartial' :=
          match info with
          | Some fi =>
              if createdAt - minute <? fiModTime fi then true
              else foundRecentPartial
          | None => foundRecentPartial
          end in
        let found' :=
          if Contains (normalizeForMatch name) normalizedTitle then true
          else found in
        (found', foundRecentPartial')
  end.

(** The test [status == statusRunning && time.Since(updatedAt) < 30*time.Second]
    of [GetTaskResumeStatus] and [ResumeTask]. *)
Definition activelyRunning (now : Z) (task : Task) : bool :=
  String.eqb (Status task) statusRunning &&
  (now - UpdatedAt task <? 30 * second).

(** [GetTaskResumeStatus(id)]. *)
Definition GetTaskResumeStatus (now : Z) (id : string) (a : App)
    : result string :=
  match tasks a !! id with
  | None => Err "task not found"
  | Some task =>
      let createdAt := CreatedAt task in
      let title := TrimSpace (Title task) in
      let outputPath := TrimSpace (OutputPath task) in
      let filesize := Filesize task in
      if activelyRunning now task then Ok "none"
      else match taskOutputDir createdAt with
      | None => Ok "none"
      | Some outputDir =>
          let partialOutput :=
            negb (String.eqb outputPath "") &&
            match os_Stat E outputPath with
            | Some info =>
                negb (fiIsDir info) && (0 <? filesize) &&
                (fiSize info <? filesize)
            | None => false
            end in
          if partialOutput then Ok "ready"
          else if String.eqb title "" || String.eqb title "Pending title"
          then Ok "none"
          else
            let normalizedTitle := normalizeForMatch title in
            if String.eqb normalizedTitle "" then Ok "none"
            else
              let '(found, foundRecentPartial) :=
                fold_left (resumeWalkStep createdAt normalizedTitle)
                  (filepath_WalkDir E outputDir) (false, false) in
              if found then Ok "ready"
              else if foundRecentPartial then Ok "ready"
              else Ok "none"
      end
  end.

(** The assignments shared by [ResumeTask] and [ForceResumeTask]. *)
Definition resumeFields (now : Z) (stage : string) (task : Task) : Task :=
  set_UpdatedAt now (set_Resume true (set_ErrorMessage "" (set_Progress ""
    (set_Stage stage (set_Status statusQueued task))))).

(** [ResumeTask(id)]. *)
Definition ResumeTask (now : Z) (id : string) (a : App) : result unit * App :=
  match tasks a !! id with
  | None => (Err "task not found", a)
  | Some task =>
      if activelyRunning now task then (Err "task is already running", a)
      else
        (Ok tt,
         enqueueTasks [id]
           (set_tasks (<[id := resumeFields now "Resume" task]> (tasks a)) a))
  end.

(** [ForceResumeTask(id)]. *)
Definition ForceResumeTask (now : Z) (id : string) (a : App)
    : result unit * App :=
  match tasks a !! id with
  | None => (Err "task not found", a)
  | Some task =>
      (Ok tt,
       enqueueTasks [id]
         (set_tasks (<[id := resumeFields now "Force Resume" task]> (tasks a))
            a))
  end.

(** *** Profiles *)

(** [type Profile struct]. *)
Record Profile := mkProfile {
  profileID : string;
  profileName : string;
  profileArgs : list string
}.

(** [builtinProfiles()]. *)
Definition builtinProfiles : list Profile :=
  [ mkProfile defaultProfileID "Default" [];
    mkProfile "audio-only" "Audio Only" ["-x"; "--audio-format"; "mp3"];
    mkProfile "best-quality" "Best Quality" ["-f"; "bv*+ba/b"] ].

(** [findProfileByID(id)]. *)
Definition findProfileByID (id : string) : option Profile :=
  List.find (fun profile => String.eqb (profileID profile) id) builtinProfiles.

(** [a.getActiveProfile()]. *)
Definition getActiveProfile (a : App) : Profile :=
  match findProfileByID (activeProfileID a) with
  | Some profile => profile
  | None => default (mkProfile "" "" []) (findProfileByID defaultProfileID)
  end.

(** *** Titles *)

Fixpoint countBytes (f : ascii -> bool) (s : string) : nat :=
  match s with
  | EmptyString => O
  | String c s' => if f c then S (countBytes f s') else countBytes f s'
  end.

(** [shouldUpdateTitle(title)].  The loop inspects runes; a rune that is a
    digit or a hex digit is one byte, so it is a loop over bytes. *)
Definition shouldUpdateTitle (title0 : string) : bool :=
  let title := TrimSpace title0 in
  if String.eqb title "" || String.eqb title "Pending title" then true
  else
    let isNumeric := allBytes isDigit title in
    let isHex := allBytes isHexDigit title in
    let hexLen := countBytes isHexDigit title in
    if isNumeric then true
    else if isHex && (12 <=? hexLen)%nat then true
    else false.

(** *** The metadata resolver *)

(** [type ytdlpFormat struct]; a [*float64] is an [option Q]. *)
Record ytdlpFormat := mkFormat {
  fmtResolution : string;
  fmtWidth : option Q;
  fmtHeight : option Q;
  fmtFilesize : option Q;
  fmtFilesizeApprox : option Q
}.

(** [type ytdlpMetadata struct]. *)
Record ytdlpMetadata := mkMetadata {
  mdTitle : string;
  mdDuration : option Q;
  mdExtractor : string;
  mdResolution : string;
  mdFilesize : option Q;
  mdFilesizeApprox : option Q;
  mdWidth : option Q;
  mdHeight : option Q;
  mdFormats : list ytdlpFormat
}.

(** [type formatInfo struct]. *)
Record formatInfo := mkFormatInfo {
  bestResolution : string;
  bestWidth : Z;
  bestHeight : Z;
  bestFilesize : Z
}.

(** [floatToInt(value)]. *)
Definition floatToInt (value : option Q) : Z :=
  match value with
  | None => 0
  | Some q => floatToZ q
  end.

(** [pickFilesize(primary, fallback)]. *)
Definition pickFilesize (primary fallback : option Q) : Z :=
  match primary with
  | Some q => floatToZ q
  | None =>
      match fallback with
      | Some q => floatToZ q
      | None => 0
      end
  end.

(** [parseResolution(value)]. *)
Definition parseResolution (value : string) : Z * Z :=
  match splitByte "x" (ToLower (unicodeLower E) (TrimSpace value)) with
  | [w; h] =>
      match Atoi (TrimSpace w) with
      | None => (0, 0)
      | Some width =>
          match Atoi (TrimSpace h) with
          | None => (0, 0)
          | Some height => (width, height)
          end
      end
  | _ => (0, 0)
  end.

(** What one iteration of [pickBestFormat] computes of [format]: the
    candidate [formatInfo] and its [score]. *)
Definition formatCandidate (format : ytdlpFormat) : formatInfo * Z :=
  let filesize := pickFilesize (fmtFilesize format) (fmtFilesizeApprox format) in
  let width0 := floatToInt (fmtWidth format) in
  let height0 := floatToInt (fmtHeight format) in
  let resolution := TrimSpace (fmtResolution format) in
  let '(width, height) :=
    if (width0 =? 0) && (height0 =? 0) && negb (String.eqb resolution "")
    then parseResolution resolution
    else (width0, height0) in
  let score := if filesize =? 0 then wrap64 (width * height) else filesize in
  (mkFormatInfo resolution width height filesize, score).

(** One iteration of the loop of [pickBestFormat] on [(best, bestScore)]. *)
Definition pickStep (st : formatInfo * Z) (format : ytdlpFormat)
    : formatInfo * Z :=
  let '(candidate, score) := formatCandidate format in
  if snd st <? score then (candidate, score) else st.

Definition zeroFormatInfo : formatInfo := mkFormatInfo "" 0 0 0.

(** [pickBestFormat(formats)]. *)
Definition pickBestFormat (formats : list ytdlpFormat) : formatInfo :=
  fst (fold_left pickStep formats (zeroFormatInfo, 0)).

(** [a.fetchMetadata(targetURL)]; [engine] is the decoded output of the
    engine run with [--skip-download -J], [None] when the run or the decoding
    fails. *)
Definition fetchMetadata (engine : option ytdlpMetadata) (targetURL : string)
    : option Task :=
  if String.eqb (TrimSpace targetURL) "" then None
  else match engine with
  | None => None
  | Some info =>
      let best := pickBestFormat (mdFormats info) in
      let width0 := floatToInt (mdWidth info) in
      let height0 := floatToInt (mdHeight info) in
      let '(width1, height1) :=
        if (width0 =? 0) && (height0 =? 0) &&
           negb (String.eqb (mdResolution info) "")
        then parseResolution (mdResolution info)
        else (width0, height0) in
      let '(width, height) :=
        if (width1 =? 0) && (height1 =? 0)
        then (bestWidth best, bestHeight best)
        else (width1, height1) in
      let filesize0 := pickFilesize (mdFilesize info) (mdFilesizeApprox info) in
      let filesize := if filesize0 =? 0 then bestFilesize best else filesize0 in
      let source0 := TrimSpace (mdExtractor info) in
      let source :=
        if String.eqb source0 "" then sourceHostFromURL targetURL
        else source0 in
      Some (mkTask "" "" (TrimSpace (mdTitle info)) source "" "" "" "" "" ""
              false "" false (floatToInt (mdDuration info)) filesize width
              height zeroTime zeroTime)
  end.

(** *** The worker side *)

(** The error returned by running the engine: an [*exec.ExitError] with its
    [ExitCode()], or another error; both with their [Error()] text. *)
Inductive CmdError :=
  | ExitError (exitCode : Z) (text : string)
  | OtherError (text : string).

Definition errorText (err : CmdError) : string :=
  match err with
  | ExitError _ text => text
  | OtherError text => text
  end.

(** [formatCommandError(err, cmd, stdoutText, stderrText)]; [cmdArgs] is
    [cmd.Args]. *)
Definition formatCommandError (err : CmdError) (cmdArgs : list string)
    (stdoutText0 stderrText0 : string) : string :=
  let exitCode :=
    match err with
    | ExitError n _ => "exit code " +:+ Itoa n
    | OtherError _ => ""
    end in
  let commandLine := Join cmdArgs " " in
  let stdoutText := TrimSpace stdoutText0 in
  let stderrText := TrimSpace stderrText0 in
  let parts0 :=
    if String.eqb exitCode "" then ["yt-dlp failed"]
    else ["yt-dlp failed" +:+ " (" +:+ exitCode +:+ ")"] in
  let parts1 := parts0 ++ ["Command: " +:+ commandLine] in
  let parts2 :=
    if String.eqb stdoutText "" then parts1
    else parts1 ++ ["Stdout:" +:+ String (byte 10) stdoutText] in
  let parts3 :=
    if String.eqb stderrText "" then parts2
    else parts2 ++ ["Stderr:" +:+ String (byte 10) stderrText] in
  let parts4 :=
    if String.eqb stdoutText "" && String.eqb stderrText ""
    then parts3 ++ ["Error: " +:+ errorText err]
    else parts3 in
  Join parts4 (String (byte 10) "").

(** [a.failTask(id, message)]. *)
Definition failTask (now : Z) (id message : string) (a : App) : App :=
  match tasks a !! id with
  | None => a
  | Some task =>
      set_tasks
        (<[id := set_UpdatedAt now (set_ErrorMessage message
                   (set_Stage "Finalize" (set_Status statusFailed task)))]>
           (tasks a)) a
  end.

(** The title assignment shared by [runTask] and [prefetchTaskMetadata]. *)
Definition applyTitle (metadata task : Task) : Task :=
  if shouldUpdateTitle (Title task) && negb (String.eqb (Title metadata) "")
  then set_Title (Title metadata) task else task.

(** [a.prefetchTaskMetadata(id, url)] once [fetchMetadata] has returned
    [metadata]. *)
Definition prefetchTaskMetadata (now : Z) (id : string)
    (metadata : option Task) (a : App) : App :=
  match metadata with
  | None => a
  | Some md =>
      match tasks a !! id with
      | None => a
      | Some task =>
          set_tasks (<[id := set_UpdatedAt now (applyTitle md task)]> (tasks a)) a
      end
  end.

(** [a.updateTaskProgress(id, progress)]. *)
Definition updateTaskProgress (now : Z) (id progress : string) (a : App)
    : App :=
  let parts := splitByteN "|" progress 3 in
  let percent := TrimSpace (default "" (parts !! 0%nat)) in
  let speed := default "" (TrimSpace <$> parts !! 1%nat) in
  let eta := default "" (TrimSpace <$> parts !! 2%nat) in
  match tasks a !! id with
  | None => a
  | Some task =>
      if String.eqb (Progress task) percent && String.eqb (Speed task) speed
         && String.eqb (ETA task) eta
      then a
      else
        set_tasks
          (<[id := set_UpdatedAt now (set_ETA eta (set_Speed speed
                     (set_Progress percent task)))]> (tasks a)) a
  end.

(** The function [parseProgress] of [runCommandWithProgress], called on
    every line of either stream. *)
Definition parseProgress (now : Z) (id line : string) (a : App) : App :=
  if HasPrefix line "progress:" then
    let progress := TrimSpace (TrimPrefix line "progress:") in
    if String.eqb progress "" then a else updateTaskProgress now id progress a
  else a.

(** First critical section of [runTask]: mark the task [Running].  Returns
    [resumeRequested] and [url] with the new state, [None] when the id is
    unknown. *)
Definition runTaskStart (now : Z) (id : string) (a : App)
    : option (bool * string * App) :=
  match tasks a !! id with
  | None => None
  | Some task =>
      Some (Resume task, URL task,
            set_tasks
              (<[id := set_UpdatedAt now (set_Stage "Resolve metadata"
                         (set_Status statusRunning (set_Resume false task)))]>
                 (tasks a)) a)
  end.

Definition overwriteIfPositive (v : Z) (set : Z -> Task -> Task) (task : Task)
    : Task :=
  if 0 <? v then set v task else task.

(** Second critical section of [runTask]: apply the resolved metadata. *)
Definition runTaskMetadata (now : Z) (id : string) (metadata : Task) (a : App)
    : option App :=
  match tasks a !! id with
  | None => None
  | Some task =>
      let task1 := applyTitle metadata task in
      let task2 := overwriteIfPositive (Duration metadata) set_Duration task1 in
      let task3 := overwriteIfPositive (Filesize metadata) set_Filesize task2 in
      let task4 := overwriteIfPositive (Width metadata) set_Width task3 in
      let task5 := overwriteIfPositive (Height metadata) set_Height task4 in
      Some (set_tasks (<[id := set_UpdatedAt now task5]> (tasks a)) a)
  end.

(** The critical sections of [runTask] that only set [Stage]. *)
Definition runTaskStage (now : Z) (id stage : string) (a : App) : option App :=
  match tasks a !! id with
  | None => None
  | Some task =>
      Some (set_tasks (<[id := set_UpdatedAt now (set_Stage stage task)]> (tasks a)) a)
  end.

(** Last critical section of [runTask]: record the success. *)
Definition runTaskSuccess (now : Z) (id outputPath : string) (a : App)
    : option App :=
  match tasks a !! id with
  | None => None
  | Some task =>
      let task1 :=
        set_ErrorMessage "" (set_OutputPath outputPath
          (set_Stage "Finalize" (set_Status statusSuccess task))) in
      let task2 :=
        if String.eqb outputPath "" then task1
        else
          let task1a :=
            if shouldUpdateTitle (Title task1)
            then set_Title (TrimSuffix (filepath_Base E outputPath)
                              (filepath_Ext E outputPath)) task1
            else task1 in
          match os_Stat E outputPath with
          | Some info =>
              if fiIsDir info then task1a else set_Filesize (fiSize info) task1a
          | None => task1a
          end in
      Some (set_tasks
              (<[id := set_UpdatedAt now (set_Progress "100%"
                         (set_MissingOutput (outputMissing outputPath) task2))]>
                 (tasks a)) a)
  end.

(** The loop of [newestFilePath] and [newestFilePathAfter] on
    [(newestPath, newestTime)]; [after] is [None] for [newestFilePath]. *)
Definition newestStep (after : option Z) (st : string * Z) (item : WalkItem)
    : string * Z :=
  match item with
  | WalkError _ => st
  | WalkEntry path _ isDir info =>
      if isDir then st
      else match info with
      | None => st
      | Some fi =>
          let modTime := fiModTime fi in
          if match after with Some t => modTime <? t | None => false end
          then st
          else if String.eqb (fst st) "" || (snd st <? modTime)
          then (path, modTime) else st
      end
  end.

(** [newestFilePath(root)]. *)
Definition newestFilePath (root : string) : string :=
  fst (fold_left (newestStep None) (filepath_WalkDir E root) ("", zeroTime)).

(** [newestFilePathAfter(root, after)]. *)
Definition newestFilePathAfter (root : string) (after : Z) : string :=
  fst (fold_left (newestStep (Some after)) (filepath_WalkDir E root)
         ("", zeroTime)).

(** The engine invocation built by [runTask]: the arguments after the
    program name. *)
Definition downloadArgs (a : App) (resumeRequested : bool)
    (outputDir url : string) : list string :=
  ["--newline"; "--progress-template";
   "progress:%(progress._percent_str)s|%(progress._speed_str)s|%(progress._eta_str)s"]
  ++ profileArgs (getActiveProfile a)
  ++ extraYtDlpArgs E
  ++ (if resumeRequested then ["--continue"] else [])
  ++ ["-o"; filepath_Join E [outputDir; "%(title)s.%(ext)s"]; url].

(** [cmd.Args] of [a.ytDlpCommand(args...)]. *)
Definition ytDlpCommandArgs (a : App) (args : list string) : list string :=
  (if String.eqb (ytDlpPath a) "" then "yt-dlp" else ytDlpPath a) :: args.

End WithEnv.

(** What one run of [runTask] observes outside the store: the clock at each
    critical section, the engine's answers and the file system afterwards. *)
Record RunObservation := mkRun {
  tStart : Z;
  engineInfo : option ytdlpMetadata;
  tMetadata : Z;
  mkdirFails : bool;
  tDownload : Z;
  (** the lines read from the two pipes, in the order they were handled,
      each with the clock of its progress update *)
  outputLines : list (bool * string * Z);
  cmdError : option CmdError;
  startTime : Z;
  tFinalize : Z;
  envAfter : Env;
  tDone : Z
}.

(** [readLines]: what is written to the buffer of the stream [isStderr]. *)
Definition capturedText (isStderr : bool) (lines : list (bool * string * Z))
    : string :=
  fold_right
    (fun l acc =>
       if Bool.eqb (fst (fst l)) isStderr
       then snd (fst l) +:+ String (byte 10) acc else acc)
    "" lines.

Definition progressLoop (id : string) (lines : list (bool * string * Z))
    (a : App) : App :=
  fold_left (fun a l => parseProgress (snd l) id (snd (fst l)) a) lines a.

(** [runCommandWithProgress] calls [cmd.Wait()] before it waits for the two
    reader goroutines, and [Wait] closes both pipes once the engine has
    exited: a reader handles the lines of its stream up to that moment only.
    [linesHandled nOut nErr written] are the lines handled when the engine
    writes [written] and the pipes are closed after the stdout reader has
    handled [nOut] lines and the stderr reader [nErr]. *)
Fixpoint linesHandled (nOut nErr : nat) (written : list (bool * string * Z))
    : list (bool * string * Z) :=
  match written with
  | [] => []
  | l :: rest =>
      if fst (fst l)
      then match nErr with
           | O => linesHandled nOut O rest
           | S k => l :: linesHandled nOut k rest
           end
      else match nOut with
           | O => linesHandled O nErr rest
           | S k => l :: linesHandled k nErr rest
           end
  end.

(** [a.runTask(id)] without interference from other goroutines. *)
Definition runTask (E : Env) (obs : RunObservation) (id : string) (a : App)
    : App :=
  match runTaskStart (tStart obs) id a with
  | None => a
  | Some (resumeRequested, url, a1) =>
      let afterMetadata :=
        match fetchMetadata E (engineInfo obs) url with
        | None => Some a1
        | Some metadata => runTaskMetadata (tMetadata obs) id metadata a1
        end in
      match afterMetadata with
      | None => a1
      | Some a2 =>
          let createdAt := default zeroTime (CreatedAt <$> tasks a2 !! id) in
          match taskOutputDir E createdAt with
          | None =>
              failTask (tDone obs) id "failed to resolve output directory" a2
          | Some outputDir =>
              if mkdirFails obs
              then failTask (tDone obs) id "failed to create output directory" a2
              else match runTaskStage (tDownload obs) id "Download" a2 with
              | None => a2
              | Some a3 =>
                  let args := downloadArgs E a3 resumeRequested outputDir url in
                  let a4 :=
                    set_lastCommand ("yt-dlp " +:+ Join args " ") a3 in
                  let a5 := progressLoop id (outputLines obs) a4 in
                  match cmdError obs with
                  | Some err =>
                      failTask (tDone obs) id
                        (formatCommandError err (ytDlpCommandArgs a4 args)
                           (capturedText false (outputLines obs))
                           (capturedText true (outputLines obs))) a5
                  | None =>
                      match runTaskStage (tFinalize obs) id "Finalize" a5 with
                      | None => a5
                      | Some a6 =>
                          let found :=
                            newestFilePathAfter (envAfter obs) outputDir
                              (startTime obs) in
                          let outputPath :=
                            if String.eqb found ""
                            then newestFilePath (envAfter obs) outputDir
                            else found in
                          match runTaskSuccess (envAfter obs) (tDone obs) id
                                  outputPath a6 with
                          | None => a6
                          | Some a7 => a7
                          end
                      end
                  end
              end
          end
      end
  end.

(** The critical sections a worker or a prefetch executes for a task id,
    with the values computed outside the lock; [SecCommand] is the one
    section that is not keyed by the id. *)
Inductive WorkerSection :=
  | SecStart (now : Z)
  | SecMetadata (now : Z) (metadata : Task)
  | SecStage (now : Z) (stage : string)
  | SecCommand (command : string)
  | SecProgress (now : Z) (progress : string)
  | SecSuccess (env : Env) (now : Z) (outputPath : string)
  | SecFail (now : Z) (message : string)
  | SecPrefetch (now : Z) (metadata : option Task).

(** The effect of a critical section on the state; a section that finds the
    id missing returns and leaves the state as it is. *)
Definition workerSection (id : string) (a : App) (sec : WorkerSection) : App :=
  match sec with
  | SecStart now =>
      match runTaskStart now id a with
      | Some (_, _, a') => a'
      | None => a
      end
  | SecMetadata now metadata => default a (runTaskMetadata now id metadata a)
  | SecStage now stage => default a (runTaskStage now id stage a)
  | SecCommand command => set_lastCommand command a
  | SecProgress now progress => updateTaskProgress now id progress a
  | SecSuccess env now outputPath =>
      default a (runTaskSuccess env now id outputPath a)
  | SecFail now message => failTask now id message a
  | SecPrefetch now metadata => prefetchTaskMetadata now id metadata a
  end.

(** A worker or prefetch executing the sections [secs] in turn. *)
Definition workerSections (id : string) (secs : list WorkerSection) (a : App)
    : App :=
  fold_left (workerSection id) secs a.

(** * Specification-side definitions *)

(** A locator as the submission pattern reads it: a scheme [http://] or
    [https://] followed by at least one byte, none of them white space. *)
Definition isLocator (m : string) : Prop :=
  ∃ scheme run,
    m = scheme +:+ run ∧ (scheme = "http://" ∨ scheme = "https://") ∧
    run ≠ "" ∧ allBytes (fun c => negb (reSpace c)) run = true.

(** [post] is empty or starts with white space of the pattern. *)
Definition delimited (post : string) : Prop :=
  match post with
  | EmptyString => True
  | String c _ => reSpace c = true
  end.

(** [m] occurs in [text] and is followed there by white space or by the end
    of the text. *)
Definition occursDelimited (m text : string) : Prop :=
  ∃ pre post, text = pre +:+ m +:+ post ∧ delimited post.

Definition occursIn (m text : string) : Prop :=
  ∃ pre post, text = pre +:+ m +:+ post.

(** [s] starts with a scheme followed by a byte that is not white space: a
    match of the submission pattern starts at the first byte of [s]. *)
Definition startsLocator (s : string) : Prop :=
  ∃ scheme c rest,
    s = scheme +:+ String c rest ∧ (scheme = "http://" ∨ scheme = "https://") ∧
    reSpace c = false.

(** [LocatorTokens text tokens]: [tokens] are the locators of [text] from
    left to right.  Either no locator starts anywhere in [text], or [text] is
    [pre ++ m ++ post] where no locator starts inside [pre], [m] is a locator
    that runs up to white space or the end of the text, and the remaining
    tokens are those of [post]. *)
Inductive LocatorTokens : string → list string → Prop :=
  | LocatorTokens_none (text : string) :
      (∀ pre rest, text = pre +:+ rest → ¬ startsLocator rest) →
      LocatorTokens text []
  | LocatorTokens_next (text pre m post : string) (tokens : list string) :
      text = pre +:+ m +:+ post →
      (∀ p1 p2, pre = p1 +:+ p2 → p2 ≠ "" →
                ¬ startsLocator (p2 +:+ m +:+ post)) →
      isLocator m → delimited post →
      LocatorTokens post tokens →
      LocatorTokens text (m :: tokens).

(** [out] lists the elements of [matches] in the order in which they first
    appear: what precedes [u] in [out] is what occurs in [matches] before the
    first [u]. *)
Definition firstAppearanceOrder (matches out : list string) : Prop :=
  ∀ before u after,
    out = before ++ u :: after →
    ∃ M1 M2,
      matches = M1 ++ u :: M2 ∧ (u ∉ M1) ∧ ∀ x, x ∈ before ↔ x ∈ M1.

(** The invariant of the loop of [extractURLs] after the matches
    [processed]. *)
Definition extractInv (processed : list string) (seen : gset string)
    (out : list string) : Prop :=
  NoDup out ∧ (∀ x, x ∈ seen ↔ x ∈ out) ∧ (∀ x, x ∈ out ↔ x ∈ processed) ∧
  firstAppearanceOrder processed out.

(** The store invariant of the data model: [order] lists exactly the ids of
    the map, each once, and every task is stored under its own id. *)
Definition storeConsistent (a : App) : Prop :=
  NoDup (order a) ∧
  (∀ id, id ∈ order a ↔ is_Some (tasks a !! id)) ∧
  (∀ id t, tasks a !! id = Some t → ID t = id).

(** The test [item.Status == statusQueued] of the import loops. *)
Definition isQueued (t : Task) : bool := String.eqb (Status t) statusQueued.

(** What merge import leaves under an id that holds [stored] when the record
    [incoming] of that id arrives: the record itself for a new id, the record
    with the stored [createdAt] when it is strictly newer than the stored
    one, and the stored one otherwise. *)
Definition mergeRecord (stored : option Task) (incoming : Task) : option Task :=
  match stored with
  | None => Some incoming
  | Some T =>
      if UpdatedAt T <? UpdatedAt incoming
      then Some (set_CreatedAt (CreatedAt T) incoming) else Some T
  end.

(** The records of a payload that are the first of their id. *)
Fixpoint firstById (l : list Task) : list Task :=
  match l with
  | [] => []
  | t :: rest => t :: filter (λ t', ID t' ≠ ID t) (firstById rest)
  end.

(** The records a merge import of the payload [l] inserts into the map [m]:
    the first record of every id that [m] does not hold. *)
Definition insertedRecords (m : gmap string Task) (l : list Task) : list Task :=
  filter (λ t, m !! ID t = None) (firstById l).

(** The law of the JSON codec at the list [l]: a document the encoder
    produces for [l] is not blank and decodes to [l]. *)
Definition codecRoundTrips (E : Env) (l : list Task) : Prop :=
  ∀ doc, json_MarshalIndent E l = Some doc →
         TrimSpace doc ≠ "" ∧ json_Unmarshal E doc = Some l.

(** A byte of ASCII that is not white space: no white-space rune of
    [TrimSpace] contains it. *)
Definition plainByte (c : ascii) : bool :=
  (code c <? 128) && negb (asciiSpace c).

Fixpoint lastByte (c : ascii) (r : string) : ascii :=
  match r with
  | EmptyString => c
  | String c' r' => lastByte c' r'
  end.

(** [x] starts and ends with a plain byte. *)
Definition plainEnds (x : string) : bool :=
  match x with
  | EmptyString => false
  | String c r => plainByte c && plainByte (lastByte c r)
  end.

(** The lines of one stream among the lines of both. *)
Definition linesOf (isStderr : bool) (lines : list (bool * string * Z))
    : list string :=
  map (λ l, snd (fst l)) (filter (λ l, fst (fst l) = isStderr) lines).

(** Lines, each followed by a newline. *)
Definition joinLines (lines : list string) : string :=
  fold_right (λ line acc, line +:+ String (byte 10) acc) "" lines.

(** ** Concrete environments for the examples *)

(** [quoted s] is [s] between double quotes, for JSON text. *)
Definition quoted (s : string) : string :=
  String (byte 34) (s +:+ String (byte 34) "").

(** A machine with home directory [/home/u], the files [files], the
    directory listing [walk] for every root, no extra engine arguments, and
    a JSON codec that knows the single document [text] with value
    [records]. *)
Definition exampleEnv (files : string → option FileInfo)
    (walk : list WalkItem) (text : string) (records : list Task) : Env :=
  mkEnv files (Some "/home/u") (λ _, walk) (λ parts, Join parts "/")
    (λ path, path) (λ _, "") (λ _, "2024-05-01") (λ _, None) (λ s, s)
    (λ _, true)
    (λ t, if String.eqb t text then Some records else None)
    (λ l, if decide (l = records) then Some text else None)
    [].

(** A disk without files. *)
Definition noFiles : string → option FileInfo := λ _, None.

(** The JSON document [[{"id":"a"},{"id":"a"}]] and its decoding: two
    records with the id [a] and every other field zero. *)
Definition twiceA_text : string :=
  "[{" +:+ quoted "id" +:+ ":" +:+ quoted "a" +:+ "},{" +:+ quoted "id" +:+
  ":" +:+ quoted "a" +:+ "}]".

Definition recordA : Task :=
  mkTask "a" "" "" "" "" "" "" "" "" "" false "" false 0 0 0 0 zeroTime zeroTime.

Definition twiceA_env : Env := exampleEnv noFiles [] twiceA_text [recordA; recordA].

(** A finished task whose output file has since been removed from the
    disk: the stored flag [MissingOutput] is still [false]. *)
Definition goneTask : Task :=
  mkTask "a" "https://example.com/v" "v" "example.com" "Success" "Finalize"
    "100%" "" "" "/gone" false "" false 0 10 0 0 1000 2000.

Definition goneApp : App :=
  mkApp {[ "a" := goneTask ]} ["a"] [] defaultProfileID "" "".

(** The exported document of [goneApp] stands for itself in the codec
    table. *)
Definition goneText : string := "[export of goneApp]".

Definition goneEnv : Env := exampleEnv noFiles [] goneText [goneTask].

(** A store with two tasks, [a] finished before [b] was queued, and the
    document that stands for its snapshot in the codec table. *)
Definition pairDone : Task :=
  mkTask "a" "https://example.com/a" "first" "example.com" "Success" "Finalize"
    "100%" "" "" "/out/first.mp4" false "" false 0 40 0 0 (10 * minute)
    (12 * minute).

Definition pairQueued : Task :=
  mkTask "b" "https://example.com/b" "second" "example.com" "Queued"
    "Parse URL" "" "" "" "" false "" false 0 0 0 0 (13 * minute) (13 * minute).

Definition pairApp : App :=
  mkApp (<["b" := pairQueued]> {[ "a" := pairDone ]}) ["a"; "b"] ["b"]
    defaultProfileID "" "".

Definition pairText : string := "[snapshot of pairApp]".

Definition pairEnv : Env :=
  exampleEnv
    (λ path, if String.eqb path "/out/first.mp4"
             then Some (mkFileInfo false 40 (12 * minute)) else None)
    [] pairText [pairDone; pairQueued].

(** A payload of four records for [pairApp]: one for [a] older than the
    stored task, one for [b] newer than the stored task, and two with new
    ids, the first of them in status [Queued]. *)
Definition olderA : Task :=
  mkTask "a" "https://example.com/a" "stale" "example.com" "Failed" "Download"
    "" "" "" "" false "boom" false 0 0 0 0 (2 * minute) (11 * minute).

Definition newerB : Task :=
  mkTask "b" "https://example.com/b" "second" "example.com" "Failed" "Download"
    "" "" "" "" false "boom" false 0 0 0 0 (1 * minute) (20 * minute).

Definition freshC : Task :=
  mkTask "c" "https://example.com/c" "third" "example.com" "Queued" "Parse URL"
    "" "" "" "" false "" false 0 0 0 0 (5 * minute) (5 * minute).

Definition freshD : Task :=
  mkTask "d" "https://example.com/d" "fourth" "example.com" "Failed" "Download"
    "" "" "" "" false "boom" false 0 0 0 0 (6 * minute) (7 * minute).

Definition mergeText : string := "[payload of four records]".

Definition mergeEnv : Env :=
  exampleEnv noFiles [] mergeText [olderA; newerB; freshC; freshD].

(** ** The resume heuristic, declaratively *)

(** The partial-marker files of a directory walk: the entries passed without
    error that are not directories and whose name [isPartialFile] accepts,
    with the result of [d.Info()]. *)
Definition partialFiles (E : Env) (items : list WalkItem)
    : list (string * option FileInfo) :=
  omap (λ item,
          match item with
          | WalkError _ => None
          | WalkEntry _ name isDir info =>
              if isDir then None
              else if isPartialFile E name then Some (name, info) else None
          end) items.

Definition nameMatches (E : Env) (normalizedTitle : string)
    (file : string * option FileInfo) : bool :=
  Contains (normalizeForMatch E (fst file)) normalizedTitle.

(** Modified strictly later than one minute before [createdAt]. *)
Definition modifiedAfter (createdAt : Z) (file : string * option FileInfo)
    : bool :=
  match snd file with
  | Some fi => createdAt - minute <? fiModTime fi
  | None => false
  end.

(** Modified no earlier than one minute before [createdAt]. *)
Definition modifiedNoEarlier (createdAt : Z) (file : string * option FileInfo)
    : bool :=
  match snd file with
  | Some fi => createdAt - minute <=? fiModTime fi
  | None => false
  end.

(** The recorded [filesize] exceeds the size on disk of the regular file
    [outputPath]. *)
Definition partialOutput (E : Env) (outputPath : string) (filesize : Z)
    : bool :=
  negb (String.eqb outputPath "") &&
  match os_Stat E outputPath with
  | Some info =>
      negb (fiIsDir info) && (0 <? filesize) && (fiSize info <? filesize)
  | None => false
  end.

(** The resume status as C5 words it: [none] for a task running within the
    grace window; else [ready] when the recorded size exceeds the size on
    disk; else, for a title that is not the placeholder, [ready] on a name
    match or on a partial-marker file modified no earlier than one minute
    before the creation time; [none] otherwise. *)
Definition resumeStatusClaimed (E : Env) (now : Z) (task : Task) : string :=
  let files :=
    match taskOutputDir E (CreatedAt task) with
    | Some dir => partialFiles E (filepath_WalkDir E dir)
    | None => []
    end in
  let title := TrimSpace (Title task) in
  if activelyRunning now task then "none"
  else if partialOutput E (TrimSpace (OutputPath task)) (Filesize task)
  then "ready"
  else if String.eqb title "" || String.eqb title "Pending title" then "none"
  else if existsb (nameMatches E (normalizeForMatch E title)) files
  then "ready"
  else if existsb (modifiedNoEarlier (CreatedAt task)) files then "ready"
  else "none".

(** The resume status the program computes, without the loop state: the
    output directory must be known, the normalized title must be non-empty,
    and the fallback asks for a modification strictly later than one minute
    before the creation time. *)
Definition resumeStatusAmended (E : Env) (now : Z) (task : Task) : string :=
  let title := TrimSpace (Title task) in
  if activelyRunning now task then "none"
  else match taskOutputDir E (CreatedAt task) with
  | None => "none"
  | Some dir =>
      let files := partialFiles E (filepath_WalkDir E dir) in
      if partialOutput E (TrimSpace (OutputPath task)) (Filesize task)
      then "ready"
      else if String.eqb title "" || String.eqb title "Pending title"
      then "none"
      else if String.eqb (normalizeForMatch E title) "" then "none"
      else if existsb (nameMatches E (normalizeForMatch E title)) files
      then "ready"
      else if existsb (modifiedAfter (CreatedAt task)) files then "ready"
      else "none"
  end.

(** A failed task created at minute 10 with the title [video]; its output
    directory holds one partial-marker file, [other.part], modified exactly
    one minute before the creation time. *)
Definition boundaryTask : Task :=
  mkTask "a" "https://example.com/v" "video" "example.com" "Failed" "Finalize"
    "" "" "" "" false "boom" false 0 0 0 0 (10 * minute) (11 * minute).

Definition boundaryApp : App :=
  mkApp {[ "a" := boundaryTask ]} ["a"] [] defaultProfileID "" "".

Definition boundaryEnv : Env :=
  exampleEnv noFiles
    [WalkEntry "/home/u/.fetchforge/downloads/2024-05-01" "2024-05-01" true None;
     WalkEntry "/home/u/.fetchforge/downloads/2024-05-01/other.part"
       "other.part" false (Some (mkFileInfo false 5 (9 * minute)))]
    "" [].

(** A task whose title has no letter or digit, with an old partial-marker
    file in its directory. *)
Definition symbolTask : Task :=
  mkTask "a" "https://example.com/v" "!!!" "example.com" "Failed" "Finalize"
    "" "" "" "" false "boom" false 0 0 0 0 (10 * minute) (11 * minute).

Definition symbolApp : App :=
  mkApp {[ "a" := symbolTask ]} ["a"] [] defaultProfileID "" "".

Definition symbolEnv : Env :=
  exampleEnv noFiles
    [WalkEntry "/home/u/.fetchforge/downloads/2024-05-01/x.part"
       "x.part" false (Some (mkFileInfo false 5 (2 * minute)))]
    "" [].

(** A task with a recorded size of 100 whose output file holds 40 bytes, on a
    machine where the home directory cannot be determined. *)
Definition homelessTask : Task :=
  mkTask "a" "https://example.com/v" "video" "example.com" "Failed" "Finalize"
    "" "" "" "/out/video.mp4" false "boom" false 0 100 0 0 (10 * minute)
    (11 * minute).

Definition homelessApp : App :=
  mkApp {[ "a" := homelessTask ]} ["a"] [] defaultProfileID "" "".

Definition homelessEnv : Env :=
  mkEnv
    (λ path, if String.eqb path "/out/video.mp4"
             then Some (mkFileInfo false 40 (10 * minute)) else None)
    None (λ _, []) (λ parts, Join parts "/") (λ path, path) (λ _, "")
    (λ _, "2024-05-01") (λ _, None) (λ s, s) (λ _, true) (λ _, None)
    (λ _, None) [].

(** What a successful resume of [id] makes of the state [a]. *)
Definition resumedFrom (a : App) (id : string) (a' : App) : Prop :=
  ∃ task task',
    tasks a !! id = Some task ∧
    tasks a' = <[id := task']> (tasks a) ∧
    Status task' = statusQueued ∧ Progress task' = "" ∧
    ErrorMessage task' = "" ∧ Resume task' = true ∧
    ID task' = ID task ∧ CreatedAt task' = CreatedAt task ∧
    order a' = order a ∧ queue a' = queue a ++ [id].

(** A task that a worker marked [Running] ten seconds ago. *)
Definition runningTask : Task :=
  mkTask "a" "https://example.com/v" "video" "example.com" "Running" "Download"
    "42%" "1MiB/s" "00:10" "" false "" false 0 0 0 0 (10 * minute)
    (11 * minute).

Definition runningApp : App :=
  mkApp {[ "a" := runningTask ]} ["a"] [] defaultProfileID "" "".

(** The record [{"id":"x","status":"Success","outputPath":"/gone"}] as
    decoded: the other fields are zero. *)
Definition xRecord : Task :=
  mkTask "x" "" "" "" "Success" "" "" "" "" "/gone" false "" false 0 0 0 0
    zeroTime zeroTime.

(** The same record after the reset of a finished download. *)
Definition xQueued : Task :=
  mkTask "x" "" "" "" "Queued" "" "" "" "" "" false "" false 0 0 0 0
    zeroTime zeroTime.

Definition xText : string :=
  "[{" +:+ quoted "id" +:+ ":" +:+ quoted "x" +:+ "," +:+ quoted "status" +:+
  ":" +:+ quoted "Success" +:+ "," +:+ quoted "outputPath" +:+ ":" +:+
  quoted "/gone" +:+ "}]".

Definition xEnv : Env := exampleEnv noFiles [] xText [xRecord].

(** A store that already holds a failed task under the id [x]. *)
Definition xStored : Task :=
  mkTask "x" "https://example.com/v" "video" "example.com" "Failed" "Finalize"
    "" "" "" "" false "boom" false 0 0 0 0 (10 * minute) (11 * minute).

Definition xApp : App :=
  mkApp {[ "x" := xStored ]} ["x"] [] defaultProfileID "" "".

(** A queued task, and a run of it in which the engine writes the line
    [403 Forbidden] to stderr and exits with status 1; the stderr reader
    handles [stderrRead] lines before the pipes are closed. *)
Definition forbiddenTask : Task :=
  mkTask "a" "https://example.com/v" "video" "example.com" "Queued"
    "Parse URL" "" "" "" "" false "" false 0 0 0 0 (10 * minute) (10 * minute).

Definition forbiddenApp : App :=
  mkApp {[ "a" := forbiddenTask ]} ["a"] ["a"] defaultProfileID "" "".

Definition forbiddenEnv : Env := exampleEnv noFiles [] "" [].

Definition forbiddenRun (stderrRead : nat) : RunObservation :=
  mkRun (11 * minute) None (11 * minute) false (11 * minute)
    (linesHandled 0 stderrRead [(true, "403 Forbidden", 11 * minute)])
    (Some (ExitError 1 "exit status 1")) (11 * minute) (12 * minute)
    forbiddenEnv (12 * minute).

Definition forbiddenCommand : list string :=
  ["yt-dlp"; "--newline"; "--progress-template";
   "progress:%(progress._percent_str)s|%(progress._speed_str)s|%(progress._eta_str)s";
   "-o"; "/home/u/.fetchforge/downloads/2024-05-01/%(title)s.%(ext)s";
   "https://example.com/v"].

(** ** Format selection, declaratively *)

(** The [formatInfo] and the score that [pickBestFormat] computes for a
    variant. *)
Definition formatInfoOf (E : Env) (format : ytdlpFormat) : formatInfo :=
  fst (formatCandidate E format).

Definition formatScore (E : Env) (format : ytdlpFormat) : Z :=
  snd (formatCandidate E format).

(** The first element of [infos] with the largest [key] above that of
    [best], or [best]. *)
Definition firstLargest (key : formatInfo → Z) (infos : list formatInfo)
    (best : formatInfo) : formatInfo :=
  fold_left (λ b i, if key b <? key i then i else b) infos best.

Definition formatArea (info : formatInfo) : Z :=
  wrap64 (bestWidth info * bestHeight info).

(** The selection as C9 words it: the largest filesize among all variants,
    or, only when no variant reports a filesize, the largest width×height
    product. *)
Definition pickBestClaimed (E : Env) (formats : list ytdlpFormat)
    : formatInfo :=
  let infos := map (formatInfoOf E) formats in
  if existsb (λ i, negb (bestFilesize i =? 0)) infos
  then firstLargest bestFilesize infos zeroFormatInfo
  else firstLargest formatArea infos zeroFormatInfo.

(** Two variants: a 10x10 variant that reports 1000 bytes, and a 1920x1080
    variant that reports no size. *)
Definition smallSized : ytdlpFormat :=
  mkFormat "" (Some (inject_Z 10)) (Some (inject_Z 10))
    (Some (inject_Z 1000)) None.

Definition largeUnsized : ytdlpFormat :=
  mkFormat "" (Some (inject_Z 1920)) (Some (inject_Z 1080)) None None.

(** Engine output without top-level size or resolution. *)
Definition mixedInfo : ytdlpMetadata :=
  mkMetadata "clip" None "generic" "" None None None None
    [smallSized; largeUnsized].

(** ** Further operations of the program *)

(** [saveTasks()]: the document written to the tasks file, [None] when the
    encoding fails and nothing is written.  The errors of the file system
    (path, directory, write, rename), on which nothing is written either, are
    left out. *)
Definition saveTasks (E : Env) (a : App) : option string :=
  json_MarshalIndent E (snapshot a).

(** * Properties *)

(** ** Strings *)

Section StringFacts.

#[local] Arguments String.append _ _ : simpl nomatch.

Lemma append_nil_r (s : string) : s +:+ "" = s.
Proof. induction s as [|c s IH]; simpl; [done | by f_equal]. Qed.

Lemma append_assoc (s1 s2 s3 : string) :
  (s1 +:+ s2) +:+ s3 = s1 +:+ s2 +:+ s3.
Proof. induction s1 as [|c s1 IH]; simpl; [done | by f_equal]. Qed.

Lemma len_append (s1 s2 : string) : len (s1 +:+ s2) = (len s1 + len s2)%nat.
Proof. induction s1 as [|c s1 IH]; simpl; [done | by f_equal]. Qed.

Lemma byte_eqb_eq (a b : ascii) : byte_eqb a b = true ↔ a = b.
Proof. apply Ascii.eqb_eq. Qed.

Lemma HasPrefix_app (p r : string) : HasPrefix (p +:+ r) p = true.
Proof.
  induction p as [|c p IH]; simpl; [by destruct r |].
  rewrite IH. unfold byte_eqb. by rewrite Ascii.eqb_refl.
Qed.

Lemma HasPrefix_inv (s p : string) :
  HasPrefix s p = true → ∃ r, s = p +:+ r.
Proof.
  revert s. induction p as [|c p IH]; intros s H.
  - by exists s.
  - destruct s as [|d s]; simpl in H; [done |].
    apply andb_true_iff in H as [Hc Hp]. apply byte_eqb_eq in Hc as ->.
    destruct (IH _ Hp) as [r ->]. by exists r.
Qed.

Lemma drop_app (p r : string) : drop (len p) (p +:+ r) = r.
Proof. induction p as [|c p IH]; simpl; [by destruct r | done]. Qed.

Lemma take_app (p r : string) : take (len p) (p +:+ r) = p.
Proof. induction p as [|c p IH]; simpl; [by destruct r | by f_equal]. Qed.

Lemma Contains_prefix (s sub : string) :
  HasPrefix s sub = true → Contains s sub = true.
Proof. intros H. destruct s; cbn [Contains]; by rewrite H. Qed.

Lemma Contains_intro (pre sub post : string) :
  Contains (pre +:+ sub +:+ post) sub = true.
Proof.
  induction pre as [|c pre IH]; simpl.
  - apply Contains_prefix, HasPrefix_app.
  - rewrite IH. apply orb_true_r.
Qed.

Lemma Contains_inv (s sub : string) :
  Contains s sub = true → ∃ pre post, s = pre +:+ sub +:+ post.
Proof.
  induction s as [|c s IH]; cbn [Contains]; intros H.
  - rewrite orb_false_r in H. apply HasPrefix_inv in H as [r ->].
    by exists "", r.
  - apply orb_true_iff in H as [H | H].
    + apply HasPrefix_inv in H as [r ->]. by exists "", r.
    + destruct (IH H) as (pre & post & ->). by exists (String c pre), post.
Qed.

Lemma Contains_iff (s sub : string) :
  Contains s sub = true ↔ ∃ pre post, s = pre +:+ sub +:+ post.
Proof.
  split; [apply Contains_inv |]. intros (pre & post & ->).
  apply Contains_intro.
Qed.

End StringFacts.

(** ** [TrimSpace] removes a prefix and a suffix *)

Section TrimFacts.

#[local] Arguments String.append _ _ : simpl nomatch.

Lemma take_drop (n : nat) (s : string) : take n s +:+ drop n s = s.
Proof.
  revert s. induction n as [|n IH]; intros s; [done |].
  destruct s as [|c s]; [done |]. simpl. by rewrite IH.
Qed.

Lemma drop_drop (n m : nat) (s : string) : drop n (drop m s) = drop (m + n) s.
Proof.
  revert s. induction m as [|m IH]; intros s; [done |].
  destruct s as [|c s]; simpl; [by destruct n | apply IH].
Qed.

Lemma take_take (n m : nat) (s : string) :
  take n (take m s) = take (Nat.min n m) s.
Proof.
  revert m s. induction n as [|n IH]; intros m s; [done |].
  destruct m as [|m]; [done |]. destruct s as [|c s]; [done |].
  simpl. by rewrite IH.
Qed.

Lemma trimLeft_drop (fuel : nat) :
  ∀ s, ∃ k, trimLeft fuel s = drop k s.
Proof.
  induction fuel as [|fuel IH]; intros s; [by exists O |]. cbn [trimLeft].
  destruct (spaceWidth s) as [|w] eqn:Hw; [by exists O |].
  destruct (IH (drop (S w) s)) as [k ->]. exists (S w + k)%nat.
  apply drop_drop.
Qed.

Lemma trimRight_take (fuel : nat) :
  ∀ s, ∃ k, trimRight fuel s = take k s.
Proof.
  induction fuel as [|fuel IH]; intros s.
  - exists (len s). simpl. rewrite <- (append_nil_r s) at 1 3.
    by rewrite take_app, append_nil_r.
  - cbn [trimRight]. destruct (spaceWidthLast s) as [|w] eqn:Hw.
    + exists (len s). rewrite <- (append_nil_r s) at 1 3.
      by rewrite take_app, append_nil_r.
    + destruct (IH (take (len s - S w) s)) as [k ->].
      exists (Nat.min k (len s - S w)). apply take_take.
Qed.

(** [TrimSpace s] is [s] without a prefix [lead] and a suffix [trail]. *)
Lemma TrimSpace_split (s : string) :
  ∃ lead trail, s = lead +:+ TrimSpace s +:+ trail.
Proof.
  unfold TrimSpace. destruct (trimLeft_drop (len s) s) as [k Hk].
  rewrite Hk. destruct (trimRight_take (len (drop k s)) (drop k s)) as [j Hj].
  rewrite Hj. exists (take k s), (drop j (drop k s)).
  by rewrite take_drop, take_drop.
Qed.

(** Text without white space at either end is left as it is. *)
Lemma TrimSpace_id (s : string) :
  spaceWidth s = O → spaceWidthLast s = O → TrimSpace s = s.
Proof.
  intros Hl Hr. unfold TrimSpace.
  assert (trimLeft (len s) s = s) as ->
    by (destruct (len s); cbn [trimLeft]; [done | by rewrite Hl]).
  destruct (len s); cbn [trimRight]; [done | by rewrite Hr].
Qed.

End TrimFacts.

(** ** [TrimSpace] keeps what lies between two plain bytes *)

Section TrimKeeps.

#[local] Arguments String.append _ _ : simpl nomatch.

Lemma drop_app_le (n : nat) (p y : string) :
  (n ≤ len p)%nat → drop n (p +:+ y) = drop n p +:+ y.
Proof.
  revert p. induction n as [|n IH]; intros p Hn; [done |].
  destruct p as [|c p]; simpl in *; [lia |]. apply IH. lia.
Qed.

Lemma len_drop (n : nat) (s : string) : len (drop n s) = (len s - n)%nat.
Proof.
  revert s. induction n as [|n IH]; intros s; simpl; [lia |].
  destruct s as [|c s]; simpl; [done | apply IH].
Qed.

Lemma take_app_ge (m : nat) (p y : string) :
  take (len p + m) (p +:+ y) = p +:+ take m y.
Proof. induction p as [|c p IH]; simpl; [done | by f_equal]. Qed.

Lemma spaceWidth_le3 (s : string) : (spaceWidth s ≤ 3)%nat.
Proof.
  unfold spaceWidth. repeat case_match; lia.
Qed.

Ltac plain_tests d Hlt :=
  repeat match goal with
  | |- context [code d =? ?k] =>
      replace (code d =? k) with false by (symmetry; apply Z.eqb_neq; lia)
  | |- context [128 <=? code d] =>
      replace (128 <=? code d) with false by (symmetry; apply Z.leb_gt; lia)
  end.

(** A white-space rune at the start of [pre ++ d :: r] lies within [pre]
    when [d] is a plain byte. *)
Lemma spaceWidth_le (pre r : string) (d : ascii) :
  plainByte d = true → (spaceWidth (pre +:+ String d r) ≤ len pre)%nat.
Proof.
  unfold plainByte. intros [Hlt Hsp]%andb_true_iff.
  apply Z.ltb_lt in Hlt. apply negb_true_iff in Hsp.
  destruct pre as [|c0 [|c1 [|c2 pre]]].
  - change ("" +:+ String d r) with (String d r). unfold spaceWidth.
    rewrite Hsp. cbv zeta. plain_tests d Hlt. simpl.
    repeat case_match; simpl; lia.
  - change (String c0 "" +:+ String d r) with (String c0 (String d r)).
    unfold spaceWidth. cbv zeta. plain_tests d Hlt.
    rewrite ?andb_false_r, ?orb_false_r. simpl.
    repeat case_match; simpl; lia.
  - change (String c0 (String c1 "") +:+ String d r)
      with (String c0 (String c1 (String d r))).
    unfold spaceWidth. cbv zeta. plain_tests d Hlt.
    rewrite ?andb_false_r, ?orb_false_r. simpl.
    repeat case_match; simpl; lia.
  - etrans; [apply spaceWidth_le3 | simpl; lia].
Qed.

Lemma trimLeft_keeps (fuel : nat) (d : ascii) (r : string) :
  plainByte d = true →
  ∀ pre, ∃ pre', trimLeft fuel (pre +:+ String d r) = pre' +:+ String d r.
Proof.
  intros Hd. induction fuel as [|fuel IH]; intros pre; [by exists pre |].
  cbn [trimLeft].
  pose proof (spaceWidth_le pre r d Hd) as Hle.
  destruct (spaceWidth (pre +:+ String d r)) as [|w]; [by exists pre |].
  rewrite drop_app_le by done. apply IH.
Qed.

(** A white-space rune at the end of [q ++ d :: post] lies within [post]
    when [d] is a plain byte. *)
Lemma spaceWidthLast_le (q post : string) (d : ascii) :
  plainByte d = true →
  (spaceWidthLast (q +:+ String d post) ≤ len post)%nat.
Proof.
  intros Hd.
  assert (∀ k, (len post < k)%nat →
               (k ≤ len (q +:+ String d post))%nat →
               spaceWidth (drop (len (q +:+ String d post) - k)
                             (q +:+ String d post)) ≠ k) as Hno.
  { intros k Hk Hn Hw. rewrite len_append in Hn, Hw. simpl in Hn, Hw.
    rewrite drop_app_le in Hw by lia.
    pose proof (spaceWidth_le (drop (len q + S (len post) - k) q) post d Hd)
      as Hle.
    rewrite len_drop in Hle. lia. }
  unfold spaceWidthLast. cbv zeta.
  set (s := q +:+ String d post) in *.
  destruct ((1 <=? len s)%nat && (spaceWidth (drop (len s - 1) s) =? 1)%nat)
    eqn:H1.
  { apply andb_true_iff in H1 as [Hn%Nat.leb_le Hw%Nat.eqb_eq].
    destruct (decide (len post < 1)%nat) as [Hlt |]; [| lia].
    by destruct (Hno 1%nat Hlt Hn). }
  destruct ((2 <=? len s)%nat && (spaceWidth (drop (len s - 2) s) =? 2)%nat)
    eqn:H2.
  { apply andb_true_iff in H2 as [Hn%Nat.leb_le Hw%Nat.eqb_eq].
    destruct (decide (len post < 2)%nat) as [Hlt |]; [| lia].
    by destruct (Hno 2%nat Hlt Hn). }
  destruct ((3 <=? len s)%nat && (spaceWidth (drop (len s - 3) s) =? 3)%nat)
    eqn:H3; [| lia].
  apply andb_true_iff in H3 as [Hn%Nat.leb_le Hw%Nat.eqb_eq].
  destruct (decide (len post < 3)%nat) as [Hlt |]; [| lia].
  by destruct (Hno 3%nat Hlt Hn).
Qed.

Lemma trimRight_keeps (fuel : nat) (q : string) (d : ascii) :
  plainByte d = true →
  ∀ post, ∃ post', trimRight fuel (q +:+ String d post) = q +:+ String d post'.
Proof.
  intros Hd. induction fuel as [|fuel IH]; intros post; [by exists post |].
  cbn [trimRight].
  pose proof (spaceWidthLast_le q post d Hd) as Hle.
  destruct (spaceWidthLast (q +:+ String d post)) as [|w]; [by exists post |].
  replace (len (q +:+ String d post) - S w)%nat
    with (len (q +:+ String d "") + (len post - S w))%nat
    by (rewrite !len_append; simpl; lia).
  replace (q +:+ String d post) with ((q +:+ String d "") +:+ post)
    by (by rewrite append_assoc).
  rewrite take_app_ge, append_assoc. apply IH.
Qed.

Lemma lastByte_split (c : ascii) (r : string) :
  ∃ q, String c r = q +:+ String (lastByte c r) "".
Proof.
  revert c. induction r as [|c' r IH]; intros c.
  - by exists "".
  - destruct (IH c') as [q Hq]. exists (String c q). simpl. by rewrite <- Hq.
Qed.

(** Text that starts and ends with a plain byte survives [TrimSpace] of any
    text around it. *)
Lemma TrimSpace_keeps (pre x post : string) :
  plainEnds x = true →
  Contains (TrimSpace (pre +:+ x +:+ post)) x = true.
Proof.
  destruct x as [|c r]; [done |]. cbn [plainEnds].
  intros [Hc Hd]%andb_true_iff. unfold TrimSpace.
  change (String c r +:+ post) with (String c (r +:+ post)).
  destruct (trimLeft_keeps (len (pre +:+ String c (r +:+ post))) c (r +:+ post)
              Hc pre) as [pre' ->].
  destruct (lastByte_split c r) as [q Hq].
  change (String c (r +:+ post)) with (String c r +:+ post).
  rewrite Hq, append_assoc, <- (append_assoc pre' q).
  change (String (lastByte c r) "" +:+ post) with (String (lastByte c r) post).
  destruct (trimRight_keeps (len ((pre' +:+ q) +:+ String (lastByte c r) post))
              (pre' +:+ q) (lastByte c r) Hd post) as [post' ->].
  apply Contains_iff. exists pre', post'. by rewrite !append_assoc.
Qed.

End TrimKeeps.

(** ** The task list *)

Section Snapshots.

Lemma snapshotOf_elem (m : gmap string Task) (ids : list string) (t : Task) :
  t ∈ snapshotOf m ids → ∃ id, id ∈ ids ∧ m !! id = Some t.
Proof.
  induction ids as [|id ids IH]; simpl; [by intros ?%elem_of_nil |].
  destruct (m !! id) as [t0|] eqn:Hid.
  - intros [-> | Ht]%elem_of_cons.
    + exists id. split; [apply elem_of_cons; by left | done].
    + destruct (IH Ht) as (i & Hi & Hm). exists i.
      split; [apply elem_of_cons; by right | done].
  - intros Ht. destruct (IH Ht) as (i & Hi & Hm). exists i.
    split; [apply elem_of_cons; by right | done].
Qed.

Lemma snapshotOf_map_ID (m : gmap string Task) (l : list Task) :
  (∀ t, t ∈ l → m !! ID t = Some t) → snapshotOf m (map ID l) = l.
Proof.
  induction l as [|t l IH]; intros Hl; [done |]. simpl.
  rewrite (Hl t) by (apply elem_of_cons; by left). f_equal.
  apply IH. intros t' Ht'. apply Hl, elem_of_cons. by right.
Qed.

Lemma snapshotOf_ids (m : gmap string Task) (ids : list string) :
  (∀ id t, m !! id = Some t → ID t = id) →
  (∀ id, id ∈ ids → is_Some (m !! id)) →
  map ID (snapshotOf m ids) = ids.
Proof.
  intros Hkey. induction ids as [|id ids IH]; intros Hlive; [done |]. simpl.
  destruct (Hlive id) as [t Ht]; [apply elem_of_cons; by left |].
  rewrite Ht. simpl. rewrite (Hkey _ _ Ht). f_equal.
  apply IH. intros i Hi. apply Hlive, elem_of_cons. by right.
Qed.

Lemma snapshotOf_app (m : gmap string Task) (ids1 ids2 : list string) :
  snapshotOf m (ids1 ++ ids2) = snapshotOf m ids1 ++ snapshotOf m ids2.
Proof.
  induction ids1 as [|id ids1 IH]; [done |]. simpl.
  destruct (m !! id); [| done]. simpl. by f_equal.
Qed.

Lemma snapshotOf_ext (m1 m2 : gmap string Task) (ids : list string) :
  (∀ id, id ∈ ids → m1 !! id = m2 !! id) → snapshotOf m1 ids = snapshotOf m2 ids.
Proof.
  induction ids as [|id ids IH]; intros Hm; [done |]. simpl.
  rewrite (Hm id) by (apply elem_of_cons; by left).
  rewrite IH; [done |]. intros i Hi. apply Hm, elem_of_cons. by right.
Qed.

End Snapshots.

(** ** Submission *)

Section Submission.

#[local] Arguments String.append _ _ : simpl nomatch.

Lemma nonSpaceRun_split (s : string) :
  ∃ rest,
    s = nonSpaceRun s +:+ rest ∧
    allBytes (fun c => negb (reSpace c)) (nonSpaceRun s) = true ∧
    delimited rest.
Proof.
  induction s as [|c s (rest & Hs & Hall & Hd)]; simpl.
  - by exists "".
  - destruct (reSpace c) eqn:Hc.
    + exists (String c s). by simpl.
    + exists rest. simpl. rewrite Hc, Hall. split; [by f_equal | done].
Qed.

Lemma matchHere_sound (s m : string) :
  matchHere s = Some m →
  isLocator m ∧ m ≠ "" ∧ ∃ post, s = m +:+ post ∧ delimited post.
Proof.
  unfold matchHere. intros H.
  assert (∀ scheme,
    (scheme = "http://" ∨ scheme = "https://") →
    HasPrefix s scheme = true →
    match nonSpaceRun (drop (len scheme) s) with
    | EmptyString => None
    | run => Some (scheme +:+ run)
    end = Some m →
    isLocator m ∧ m ≠ "" ∧ ∃ post, s = m +:+ post ∧ delimited post) as Hcase.
  { intros scheme Hsch Hpre Hrun.
    apply HasPrefix_inv in Hpre as [r ->]. rewrite drop_app in Hrun.
    destruct (nonSpaceRun_split r) as (rest & Hr & Hall & Hd).
    destruct (nonSpaceRun r) as [|c run] eqn:Hnr; [done |].
    injection Hrun as <-. split; [| split].
    - exists scheme, (String c run). done.
    - destruct Hsch as [-> | ->]; done.
    - exists rest. split; [| done]. rewrite Hr at 1. by rewrite append_assoc. }
  destruct (HasPrefix s "https://") eqn:H1.
  - apply (Hcase "https://"); auto.
  - destruct (HasPrefix s "http://") eqn:H2; [| done].
    apply (Hcase "http://"); auto.
Qed.

Lemma matchHere_complete (scheme rest : string) (c : ascii) :
  scheme = "http://" ∨ scheme = "https://" →
  reSpace c = false →
  matchHere (scheme +:+ String c rest) ≠ None.
Proof.
  intros [-> | ->] Hc; unfold matchHere; simpl; rewrite Hc; done.
Qed.

Lemma occursDelimited_cons (c : ascii) (m s : string) :
  occursDelimited m s → occursDelimited m (String c s).
Proof. intros (pre & post & -> & Hd). by exists (String c pre), post. Qed.

Lemma findAllFrom_sound (s : string) :
  ∀ skip m,
    m ∈ findAllFrom skip s → isLocator m ∧ occursDelimited m s.
Proof.
  induction s as [|c s IH]; intros skip m Hm; simpl in Hm.
  - by apply elem_of_nil in Hm.
  - destruct skip as [|k].
    + destruct (matchHere (String c s)) as [m0|] eqn:Hm0.
      * apply elem_of_cons in Hm as [-> | Hm].
        -- destruct (matchHere_sound _ _ Hm0) as (Hloc & _ & post & Hs & Hd).
           split; [done |]. exists "", post. by simpl.
        -- destruct (IH _ _ Hm) as [Hloc Hocc].
           split; [done | by apply occursDelimited_cons].
      * destruct (IH _ _ Hm) as [Hloc Hocc].
        split; [done | by apply occursDelimited_cons].
    + destruct (IH _ _ Hm) as [Hloc Hocc].
      split; [done | by apply occursDelimited_cons].
Qed.

Lemma findAllFrom_complete (pre scheme rest : string) (c : ascii) :
  scheme = "http://" ∨ scheme = "https://" →
  reSpace c = false →
  findAllFrom O (pre +:+ scheme +:+ String c rest) ≠ [].
Proof.
  intros Hsch Hc. induction pre as [|d pre IH].
  - pose proof (matchHere_complete scheme rest c Hsch Hc) as Hm.
    change ("" +:+ scheme +:+ String c rest) with (scheme +:+ String c rest).
    destruct Hsch as [-> | ->]; simpl in *;
      destruct (matchHere _); done.
  - simpl. destruct (matchHere _); done.
Qed.

Lemma findAllString_nonempty (text : string) :
  findAllString text ≠ [] ↔ ∃ m, isLocator m ∧ occursIn m text.
Proof.
  split.
  - intros Hne. destruct (findAllString text) as [|m l] eqn:Hf; [done |].
    exists m.
    destruct (findAllFrom_sound text O m) as [Hloc (pre & post & Ht & _)].
    { unfold findAllString in Hf. rewrite Hf. apply elem_of_cons. by left. }
    split; [done | by exists pre, post].
  - intros (m & (scheme & run & -> & Hsch & Hrun & Hall) & pre & post & ->).
    destruct run as [|c run]; [done |].
    simpl in Hall. apply andb_true_iff in Hall as [Hc _].
    apply negb_true_iff in Hc.
    unfold findAllString. rewrite !append_assoc. simpl.
    by apply findAllFrom_complete.
Qed.

Lemma snoc_eq_split {A} (out r1 r2 : list A) (m u : A) :
  out ++ [m] = r1 ++ u :: r2 →
  (∃ r2', r2 = r2' ++ [m] ∧ out = r1 ++ u :: r2') ∨
  (r2 = [] ∧ u = m ∧ r1 = out).
Proof.
  intros H. destruct r2 as [|x r2 _] using rev_ind.
  - apply app_inj_tail in H as [-> ->]. by right.
  - change (r1 ++ u :: r2 ++ [x]) with (r1 ++ (u :: r2) ++ [x]) in H.
    rewrite app_assoc in H. apply app_inj_tail in H as [-> ->].
    left. by exists r2.
Qed.

Lemma extractInv_skip (processed : list string) seen out (m : string) :
  m ∈ seen → extractInv processed seen out →
  extractInv (processed ++ [m]) seen out.
Proof.
  intros Hm (Hnd & Hseen & Hout & Hord).
  split; [done |]. split; [done |]. split.
  - intros x. rewrite elem_of_app, list_elem_of_singleton, <- Hout.
    split; [by left |]. intros [Hx | ->]; [done | by apply Hseen].
  - intros before u after Hdec.
    destruct (Hord _ _ _ Hdec) as (M1 & M2 & -> & Hu & Hbefore).
    exists M1, (M2 ++ [m]). split; [by rewrite <- app_assoc | done].
Qed.

Lemma extractInv_add (processed : list string) seen out (m : string) :
  m ∉ seen → extractInv processed seen out →
  extractInv (processed ++ [m]) ({[ m ]} ∪ seen) (out ++ [m]).
Proof.
  intros Hm (Hnd & Hseen & Hout & Hord).
  assert (m ∉ out) as Hmout by (by rewrite <- Hseen).
  split; [| split; [| split]].
  - apply NoDup_app. split; [done |]. split; [| apply NoDup_singleton].
    intros x Hx ->%list_elem_of_singleton. done.
  - intros x.
    rewrite elem_of_union, elem_of_singleton, elem_of_app,
      list_elem_of_singleton, Hseen. tauto.
  - intros x. rewrite !elem_of_app, Hout. tauto.
  - intros before u after Hdec.
    apply snoc_eq_split in Hdec as [(after' & -> & Hdec) | (-> & -> & ->)].
    + destruct (Hord _ _ _ Hdec) as (M1 & M2 & -> & Hu & Hbefore).
      exists M1, (M2 ++ [m]). split; [by rewrite <- app_assoc | done].
    + exists processed, []. split; [done |]. split; [| done].
      by rewrite <- Hout.
Qed.

Lemma extractLoop_inv (matches : list string) :
  ∀ processed seen out,
    extractInv processed seen out →
    ∃ seen',
      extractInv (processed ++ matches) seen' (extractLoop matches seen out).
Proof.
  induction matches as [|m matches IH]; intros processed seen out Hinv; simpl.
  - exists seen. by rewrite app_nil_r.
  - replace (processed ++ m :: matches) with ((processed ++ [m]) ++ matches)
      by (by rewrite <- app_assoc).
    destruct (decide (m ∈ seen)) as [Hin | Hnin].
    + apply IH. by apply extractInv_skip.
    + apply IH. by apply extractInv_add.
Qed.

Lemma extractURLs_inv (text : string) :
  ∃ seen, extractInv (findAllString text) seen (extractURLs text).
Proof.
  apply (extractLoop_inv (findAllString text) [] ∅ []).
  split; [apply NoDup_nil_2 |]. split; [| split].
  - intros x. rewrite elem_of_empty, elem_of_nil. tauto.
  - done.
  - intros before u after Hdec. by destruct before.
Qed.

Lemma createLoop_spec (E : Env) (now : Z) (newID : nat → string)
    (urls : list string) :
  ∀ k a,
    let '(a', created) := createLoop E now newID k urls a in
    map URL created = urls ∧
    Forall (λ t, Status t = statusQueued ∧ CreatedAt t = now) created ∧
    map ID created = map newID (seq k (length urls)) ∧
    order a' = order a ++ map ID created ∧
    queue a' = queue a.
Proof.
  induction urls as [|url urls IH]; intros k a; simpl.
  - by rewrite app_nil_r.
  - specialize (IH (S k)
      (set_order (order a ++ [newID k])
         (set_tasks (<[newID k := newTask E now (newID k) url]> (tasks a)) a))).
    destruct (createLoop _ _ _ _ _ _) as [a' created].
    destruct IH as (Hurl & Hst & Hid & Hord & Hq). simpl in *.
    repeat split; try done.
    + by f_equal.
    + by constructor.
    + by f_equal.
    + by rewrite Hord, <- app_assoc.
Qed.

End Submission.

(** ** The locator tokens of a text *)

Section Tokens.

#[local] Arguments String.append _ _ : simpl nomatch.

Lemma startsLocator_matchHere (s : string) :
  startsLocator s → matchHere s ≠ None.
Proof.
  intros (scheme & c & rest & -> & Hsch & Hc). by apply matchHere_complete.
Qed.

Lemma isLocator_starts (m post : string) :
  isLocator m → startsLocator (m +:+ post).
Proof.
  intros (scheme & run & -> & Hsch & Hrun & Hall).
  destruct run as [|c run]; [done |].
  simpl in Hall. apply andb_true_iff in Hall as [Hc _].
  apply negb_true_iff in Hc.
  exists scheme, c, (run +:+ post). split; [| done].
  by rewrite append_assoc.
Qed.

Lemma findAllFrom_skip (w r : string) :
  findAllFrom (len w) (w +:+ r) = findAllFrom O r.
Proof. induction w as [|c w IH]; [done |]. simpl. exact IH. Qed.

Lemma findAllFrom_match (s m : string) :
  matchHere s = Some m →
  ∃ post,
    s = m +:+ post ∧ isLocator m ∧ delimited post ∧
    findAllFrom O s = m :: findAllFrom O post ∧ (len post < len s)%nat.
Proof.
  intros Hm.
  destruct (matchHere_sound s m Hm) as (Hloc & Hne & post & Hs & Hd).
  exists post. split; [done |]. split; [done |]. split; [done |].
  destruct m as [|c m]; [done |]. subst s. split.
  - change (String c m +:+ post) with (String c (m +:+ post)) in *.
    cbn [findAllFrom]. rewrite Hm. f_equal.
    replace (len (String c m) - 1)%nat with (len m) by (simpl; lia).
    apply findAllFrom_skip.
  - rewrite len_append. simpl. lia.
Qed.

(** The scan for the leftmost match. *)
Lemma findAllFrom_scan (s : string) :
  (findAllFrom O s = [] ∧ ∀ pre rest, s = pre +:+ rest → ¬ startsLocator rest)
  ∨ (∃ pre m post,
       s = pre +:+ m +:+ post ∧
       (∀ p1 p2, pre = p1 +:+ p2 → p2 ≠ "" →
                 ¬ startsLocator (p2 +:+ m +:+ post)) ∧
       isLocator m ∧ delimited post ∧
       findAllFrom O s = m :: findAllFrom O post ∧ (len post < len s)%nat).
Proof.
  induction s as [|c s IH].
  - left. split; [done |]. intros pre rest Hs.
    destruct pre; [| done]. simpl in Hs. subst rest.
    intros (scheme & c & rest & Heq & [-> | ->] & _); done.
  - destruct (matchHere (String c s)) as [m|] eqn:Hm.
    + right. destruct (findAllFrom_match _ _ Hm)
        as (post & Hs & Hloc & Hd & Hf & Hlen).
      exists "", m, post. split; [done |]. split; [| done].
      intros p1 p2 Hp Hne. destruct p1; [| done]. simpl in Hp. by subst p2.
    + assert (findAllFrom O (String c s) = findAllFrom O s) as Hstep
        by (cbn [findAllFrom]; by rewrite Hm).
      assert (¬ startsLocator (String c s)) as Hhere.
      { intros Hst. by apply startsLocator_matchHere in Hst. }
      destruct IH as [[Hnil Hnone] | (pre & m & post & Hs & Hbefore & Hloc & Hd
                                      & Hf & Hlen)].
      * left. split; [by rewrite Hstep |]. intros pre rest Hs.
        destruct pre as [|d pre].
        -- simpl in Hs. by subst rest.
        -- injection Hs as _ Hs. by apply (Hnone pre).
      * right. exists (String c pre), m, post. split; [by rewrite Hs |].
        split; [| split; [done | split; [done | split]]].
        -- intros p1 p2 Hp Hne. destruct p1 as [|d p1].
           ++ simpl in Hp. subst p2.
              change (String c pre +:+ m +:+ post)
                with (String c (pre +:+ m +:+ post)).
              by rewrite <- Hs.
           ++ injection Hp as _ Hp. by apply (Hbefore p1).
        -- by rewrite Hstep.
        -- simpl. simpl in Hlen. lia.
Qed.

(** The matches of the pattern are the locator tokens of the text. *)
Lemma LocatorTokens_findAllString (text : string) :
  LocatorTokens text (findAllString text).
Proof.
  unfold findAllString.
  assert (∀ n s, (len s ≤ n)%nat → LocatorTokens s (findAllFrom O s)) as Hn.
  { induction n as [|n IH]; intros s Hlen.
    - destruct s; [| simpl in Hlen; lia].
      apply LocatorTokens_none. intros pre rest Hs.
      destruct pre; [| done]. simpl in Hs. subst rest.
      intros (scheme & c & rest & Heq & [-> | ->] & _); done.
    - destruct (findAllFrom_scan s)
        as [[Hnil Hnone] | (pre & m & post & Hs & Hbefore & Hloc & Hd
                            & Hf & Hlt)].
      + rewrite Hnil. by apply LocatorTokens_none.
      + rewrite Hf. apply (LocatorTokens_next s pre m post); try done.
        apply IH. lia. }
  by apply (Hn (len text)).
Qed.

Lemma append_eq_cases (p1 r1 p2 r2 : string) :
  p1 +:+ r1 = p2 +:+ r2 →
  (∃ d, p2 = p1 +:+ d ∧ r1 = d +:+ r2) ∨ (∃ d, p1 = p2 +:+ d ∧ r2 = d +:+ r1).
Proof.
  revert p2. induction p1 as [|c p1 IH]; intros p2 Heq.
  - left. exists p2. by simpl in *.
  - destruct p2 as [|c2 p2].
    + right. exists (String c p1). by simpl in *.
    + simpl in Heq. injection Heq as -> Heq.
      destruct (IH p2 Heq) as [(d & -> & ->) | (d & -> & ->)].
      * left. by exists d.
      * right. by exists d.
Qed.

Lemma allBytes_append (f : ascii → bool) (s1 s2 : string) :
  allBytes f (s1 +:+ s2) = allBytes f s1 && allBytes f s2.
Proof.
  induction s1 as [|c s1 IH]; [done |]. simpl. rewrite IH.
  by rewrite andb_assoc.
Qed.

Lemma isLocator_no_space (m : string) :
  isLocator m → allBytes (fun c => negb (reSpace c)) m = true.
Proof.
  intros (scheme & run & -> & Hsch & _ & Hall).
  rewrite allBytes_append, Hall. by destruct Hsch as [-> | ->].
Qed.

(** Two locators that start at the same place and both run up to white
    space are the same. *)
Lemma locator_run_unique (m1 post1 m2 post2 : string) :
  isLocator m1 → delimited post1 → isLocator m2 → delimited post2 →
  m1 +:+ post1 = m2 +:+ post2 → m1 = m2 ∧ post1 = post2.
Proof.
  intros Hl1 Hd1 Hl2 Hd2 Heq.
  destruct (append_eq_cases _ _ _ _ Heq) as [(d & -> & ->) | (d & -> & ->)].
  - destruct d as [|x d].
    + by rewrite append_nil_r.
    + exfalso. apply isLocator_no_space in Hl2.
      rewrite allBytes_append in Hl2. apply andb_true_iff in Hl2 as [_ Hd].
      simpl in Hd. apply andb_true_iff in Hd as [Hx _].
      simpl in Hd1. by rewrite Hd1 in Hx.
  - destruct d as [|x d].
    + by rewrite append_nil_r.
    + exfalso. apply isLocator_no_space in Hl1.
      rewrite allBytes_append in Hl1. apply andb_true_iff in Hl1 as [_ Hd].
      simpl in Hd. apply andb_true_iff in Hd as [Hx _].
      simpl in Hd2. by rewrite Hd2 in Hx.
Qed.

(** A text has one list of locator tokens. *)
Lemma LocatorTokens_unique (text : string) (l1 l2 : list string) :
  LocatorTokens text l1 → LocatorTokens text l2 → l1 = l2.
Proof.
  intros H1. revert l2.
  induction H1 as [text Hnone | text pre m post tokens Ht Hbefore Hloc Hd Hrest IH];
    intros l2 H2.
  - destruct H2 as [| text pre m post tokens Ht _ Hloc _ _]; [done |].
    exfalso. apply (Hnone pre (m +:+ post) Ht). by apply isLocator_starts.
  - destruct H2 as [text Hnone
                   | text pre2 m2 post2 tokens2 Ht2 Hbefore2 Hloc2 Hd2 Hrest2].
    + exfalso. apply (Hnone pre (m +:+ post) Ht). by apply isLocator_starts.
    + rewrite Ht in Ht2.
      assert (pre = pre2 ∧ m +:+ post = m2 +:+ post2) as [-> Hmp].
      { destruct (append_eq_cases _ _ _ _ Ht2) as [(d & -> & Hd') | (d & -> & Hd')].
        - destruct d as [|x d].
          + by rewrite append_nil_r.
          + exfalso. apply (Hbefore2 pre (String x d) eq_refl); [done |].
            rewrite <- Hd'. by apply isLocator_starts.
        - destruct d as [|x d].
          + by rewrite append_nil_r.
          + exfalso. apply (Hbefore pre2 (String x d) eq_refl); [done |].
            rewrite <- Hd'. by apply isLocator_starts. }
      destruct (locator_run_unique _ _ _ _ Hloc Hd Hloc2 Hd2 Hmp) as [-> ->].
      f_equal. by apply IH.
Qed.

End Tokens.

(** ** The store after a submission *)

Section SubmissionStore.

Variable E : Env.

(** The loop of [CreateTasksFromText] writes the map only at the ids it
    draws, and a task whose id is not drawn again stays as created. *)
Lemma createLoop_store (now : Z) (newID : nat → string) (urls : list string) :
  ∀ k a,
    Forall (λ t, t = newTask E now (ID t) (URL t))
      (snd (createLoop E now newID k urls a)) ∧
    (∀ id, id ∉ map ID (snd (createLoop E now newID k urls a)) →
           tasks (fst (createLoop E now newID k urls a)) !! id = tasks a !! id) ∧
    (NoDup (map ID (snd (createLoop E now newID k urls a))) →
     ∀ t, t ∈ snd (createLoop E now newID k urls a) →
          tasks (fst (createLoop E now newID k urls a)) !! ID t = Some t).
Proof.
  induction urls as [|url urls IH]; intros k a.
  - simpl. split; [done |]. split; [done | by intros _ t ?%elem_of_nil].
  - cbn [createLoop].
    set (task := newTask E now (newID k) url) in *.
    set (a1 := set_order _ (set_tasks _ a)) in *.
    destruct (IH (S k) a1) as (Hnew & Hother & Hin).
    destruct (createLoop E now newID (S k) urls a1) as [a2 created].
    cbn [fst snd] in *. split; [| split].
    + constructor; [done | exact Hnew].
    + intros id Hid. rewrite Hother.
      * subst a1. simpl. rewrite lookup_insert_ne; [done |].
        intros <-. apply Hid. simpl. apply elem_of_cons. by left.
      * intros Hin'. apply Hid. simpl. apply elem_of_cons. by right.
    + simpl. intros [Hk Hnd]%NoDup_cons t [-> | Ht]%elem_of_cons;
        [| by apply Hin].
      rewrite Hother by done. subst a1 task. simpl. apply lookup_insert_eq.
Qed.

End SubmissionStore.

(** C1.  For every input text, [CreateTasksFromText] creates one task per
    element of [urls], the list [extractURLs] returns, each with the fields
    of a new [Queued] task and the next id drawn; it appends their ids to
    [order] and sends them to the queue, and it writes the map at these ids
    only.  When the ids drawn are pairwise distinct every created task is
    stored under its id, and when they are also not in [order] yet the task
    list afterwards is the former list followed by the created tasks.
    [urls] has no duplicate; for the locator tokens of the text (of which
    there is one list: from left to right, each starting at the first place
    after the previous token where a scheme is followed by a byte that is not
    white space, and running up to white space or the end of the text) it has
    the same elements as the tokens, in the order of their first appearance;
    every element is a locator that occurs in the text; and it is empty
    (nothing is created, the state is unchanged) exactly when no locator
    occurs in the text.  In the scenario text the one repeated locator
    yields exactly one task, and a text with three locators, two of them
    equal, yields two. *)
Theorem C1_submit_one_task_per_distinct_locator :
  ∀ (E : Env) (now : Z) (newID : nat → string) (text : string) (a : App),
    let urls := extractURLs text in
    let created := fst (CreateTasksFromText E now newID text a) in
    let a' := snd (CreateTasksFromText E now newID text a) in
    map URL created = urls ∧
    map ID created = map newID (seq 0 (length urls)) ∧
    Forall (λ t, Status t = statusQueued ∧ t = newTask E now (ID t) (URL t))
      created ∧
    order a' = order a ++ map ID created ∧
    queue a' = queue a ++ map ID created ∧
    (∀ id, id ∉ map ID created → tasks a' !! id = tasks a !! id) ∧
    (NoDup (map ID created) →
     (∀ t, t ∈ created → tasks a' !! ID t = Some t) ∧
     ((∀ t, t ∈ created → ID t ∉ order a) →
      ListTasks a' = ListTasks a ++ created)) ∧
    NoDup urls ∧
    (∃ tokens, LocatorTokens text tokens) ∧
    (∀ tokens, LocatorTokens text tokens →
       (∀ u, u ∈ urls ↔ u ∈ tokens) ∧ firstAppearanceOrder tokens urls) ∧
    (∀ u, u ∈ urls → isLocator u ∧ occursDelimited u text) ∧
    (urls = [] ↔ ¬ ∃ m, isLocator m ∧ occursIn m text) ∧
    (urls = [] → created = [] ∧ a' = a) ∧
    fst (CreateTasksFromText E now newID
           "grab this https://example.com/a and also https://example.com/a again"
           a)
    = [newTask E now (newID O) "https://example.com/a"] ∧
    map URL
      (fst (CreateTasksFromText E now newID
              "https://a.example/1 http://b.example/2 https://a.example/1" a))
    = ["https://a.example/1"; "http://b.example/2"].
Proof.
  intros E now newID text a urls created a'.
  destruct (extractURLs_inv text) as (seen & Hnd & Hseen & Hout & Hord).
  assert (∀ text0,
    let cr := fst (CreateTasksFromText E now newID text0 a) in
    let a0 := snd (CreateTasksFromText E now newID text0 a) in
    map URL cr = extractURLs text0 ∧
    map ID cr = map newID (seq 0 (length (extractURLs text0))) ∧
    Forall (λ t, Status t = statusQueued ∧ t = newTask E now (ID t) (URL t)) cr ∧
    order a0 = order a ++ map ID cr ∧
    queue a0 = queue a ++ map ID cr ∧
    (∀ id, id ∉ map ID cr → tasks a0 !! id = tasks a !! id) ∧
    (NoDup (map ID cr) → ∀ t, t ∈ cr → tasks a0 !! ID t = Some t))
    as Hcreate.
  { intros text0. unfold CreateTasksFromText.
    destruct (extractURLs text0) as [|u0 us] eqn:Hu.
    - simpl. rewrite !app_nil_r.
      repeat (split; [done |]). by intros _ t ?%elem_of_nil.
    - pose proof (createLoop_spec E now newID (u0 :: us) O a) as Hspec.
      pose proof (createLoop_store E now newID (u0 :: us) O a)
        as (Hnew & Hother & Hin).
      destruct (createLoop E now newID O (u0 :: us) a) as [a1 cr].
      destruct Hspec as (Hurl & Hst & Hid & Ho & Hq). cbn [fst snd] in *.
      split; [done |]. split; [done |]. split.
      { apply Forall_forall. intros t Ht%list_elem_of_In. split.
        - by apply (proj1 (Forall_forall _ _) Hst), list_elem_of_In.
        - by apply (proj1 (Forall_forall _ _) Hnew), list_elem_of_In. }
      split; [done |]. split; [simpl; by rewrite Hq |]. done. }
  destruct (Hcreate text) as (H1 & H2 & H3 & H4 & H5 & H6 & H7).
  split; [done |]. split; [done |]. split; [done |]. split; [done |].
  split; [done |]. split; [done |]. split.
  { intros Hdistinct. split; [by apply H7 |]. intros Hfresh.
    subst a'. unfold ListTasks, snapshot. rewrite H4, snapshotOf_app. f_equal.
    - apply snapshotOf_ext. intros id Hid. apply H6.
      intros (t & -> & Ht)%list_elem_of_fmap. by apply (Hfresh t).
    - apply snapshotOf_map_ID. by apply H7. }
  split; [done |].
  pose proof (LocatorTokens_findAllString text) as Htok.
  split; [by exists (findAllString text) |]. split.
  { intros tokens Ht.
    rewrite (LocatorTokens_unique text tokens (findAllString text) Ht Htok).
    done. }
  split.
  { intros u Hu. apply (findAllFrom_sound text O u). by apply Hout. }
  split.
  { rewrite <- findAllString_nonempty. split.
    - intros Hnil Hne. apply Hne.
      destruct (findAllString text) as [|m l] eqn:Hf; [done |].
      assert (m ∈ urls) as Hm by (apply Hout, elem_of_cons; by left).
      rewrite Hnil in Hm. by apply elem_of_nil in Hm.
    - intros Hnn. destruct (findAllString text) as [|m l] eqn:Hf.
      + apply elem_of_nil_inv. intros x Hx%Hout. by apply elem_of_nil in Hx.
      + by destruct Hnn. }
  split.
  { intros Hnil. subst created a'. unfold CreateTasksFromText.
    fold urls. by rewrite Hnil. }
  split.
  - assert (extractURLs
      "grab this https://example.com/a and also https://example.com/a again"
      = ["https://example.com/a"]) as Hs by (by vm_compute).
    unfold CreateTasksFromText. rewrite Hs. reflexivity.
  - destruct (Hcreate
      "https://a.example/1 http://b.example/2 https://a.example/1")
      as (Hs & _).
    rewrite Hs. by vm_compute.
Qed.

(** ** The store invariant *)

Section StoreInvariant.

Variable E : Env.

Lemma storeConsistent_NewApp : storeConsistent NewApp.
Proof.
  split; [apply NoDup_nil_2 |]. split.
  - intros id. simpl. rewrite elem_of_nil, lookup_empty.
    split; [done | by intros [? ?]].
  - intros id t. simpl. by rewrite lookup_empty.
Qed.

(** Updating the record of a stored id in place keeps the invariant. *)
Lemma storeConsistent_update (a : App) (id : string) (t t' : Task) :
  storeConsistent a → tasks a !! id = Some t → ID t' = id →
  storeConsistent (set_tasks (<[id := t']> (tasks a)) a).
Proof.
  intros (Hnd & Hdom & Hkey) Hid Hid'. split; [done |]. split; simpl.
  - intros i. rewrite Hdom. destruct (decide (id = i)) as [-> | Hne].
    + rewrite lookup_insert_eq, Hid. split; eauto.
    + by rewrite lookup_insert_ne.
  - intros i ti. destruct (decide (id = i)) as [-> | Hne].
    + rewrite lookup_insert_eq. by intros [= <-].
    + rewrite lookup_insert_ne by done. apply Hkey.
Qed.

(** Appending a record under a new id keeps the invariant. *)
Lemma storeConsistent_append (a : App) (t : Task) :
  storeConsistent a → tasks a !! ID t = None →
  storeConsistent
    (set_order (order a ++ [ID t]) (set_tasks (<[ID t := t]> (tasks a)) a)).
Proof.
  intros (Hnd & Hdom & Hkey) Hnew. split; [| split]; simpl.
  - apply NoDup_app. split; [done |]. split; [| apply NoDup_singleton].
    intros x Hx ->%list_elem_of_singleton.
    apply Hdom in Hx as [? Hx]. congruence.
  - intros i. rewrite elem_of_app, list_elem_of_singleton, Hdom.
    destruct (decide (ID t = i)) as [<- | Hne].
    + rewrite lookup_insert_eq. split; eauto.
    + rewrite lookup_insert_ne by done. split; [| by left].
      intros [? | ?]; [done | congruence].
  - intros i ti. destruct (decide (ID t = i)) as [<- | Hne].
    + rewrite lookup_insert_eq. by intros [= <-].
    + rewrite lookup_insert_ne by done. apply Hkey.
Qed.

Lemma DeleteTask_consistent (id : string) (a : App) :
  storeConsistent a → storeConsistent (snd (DeleteTask E id a)).
Proof.
  intros Hc. unfold DeleteTask. destruct (tasks a !! id) as [t|] eqn:Ht; [| done].
  destruct (_ && _); [done |]. destruct Hc as (Hnd & Hdom & Hkey).
  split; [| split]; simpl.
  - by apply NoDup_filter.
  - intros i. rewrite list_elem_of_filter, Hdom.
    destruct (decide (id = i)) as [-> | Hne].
    + rewrite lookup_delete_eq. split; [by intros [? _] | by intros [? ?]].
    + rewrite lookup_delete_ne by done. split; [by intros [_ ?] | done].
  - intros i ti. destruct (decide (id = i)) as [-> | Hne].
    + by rewrite lookup_delete_eq.
    + rewrite lookup_delete_ne by done. apply Hkey.
Qed.

(** A deleted id is in neither the map nor [order]. *)
Lemma DeleteTask_removes (id : string) (a : App) :
  fst (DeleteTask E id a) = Ok tt →
  tasks (snd (DeleteTask E id a)) !! id = None ∧
  id ∉ order (snd (DeleteTask E id a)).
Proof.
  unfold DeleteTask. destruct (tasks a !! id) as [t|]; [| done].
  destruct (_ && _); [done |]. intros _. simpl. split.
  - apply lookup_delete_eq.
  - rewrite list_elem_of_filter. by intros [? _].
Qed.

Lemma mergeStep_consistent (a : App) (enq : list string) (item : Task) :
  storeConsistent a → storeConsistent (fst (mergeStep (a, enq) item)).
Proof.
  intros Hc. unfold mergeStep.
  destruct (tasks a !! ID item) as [existing|] eqn:Hex.
  - destruct (UpdatedAt existing <? UpdatedAt item); [| done].
    by eapply storeConsistent_update.
  - by apply storeConsistent_append.
Qed.

Lemma fold_mergeStep_consistent (imported : list Task) :
  ∀ a enq,
    storeConsistent a →
    storeConsistent (fst (fold_left mergeStep imported (a, enq))).
Proof.
  induction imported as [|item imported IH]; intros a enq Hc; [done |].
  cbn [fold_left]. pose proof (mergeStep_consistent a enq item Hc) as Hstep.
  destruct (mergeStep (a, enq) item) as [a1 enq1]. by apply IH.
Qed.

(** Merge import keeps the invariant, whatever the payload. *)
Lemma importMerge_consistent (imported : list Task) (a : App) :
  storeConsistent a → storeConsistent (snd (importMerge imported a)).
Proof.
  intros Hc. unfold importMerge.
  pose proof (fold_mergeStep_consistent imported a [] Hc) as H.
  destruct (fold_left mergeStep imported (a, [])) as [a1 enq]. done.
Qed.

Lemma fold_replaceStep_consistent (imported : list Task) :
  ∀ a enq,
    storeConsistent a →
    NoDup (map ID imported) →
    (∀ t, t ∈ imported → tasks a !! ID t = None) →
    storeConsistent (fst (fold_left replaceStep imported (a, enq))).
Proof.
  induction imported as [|item imported IH]; intros a enq Hc Hnd Hnew; [done |].
  cbn [fold_left replaceStep]. apply NoDup_cons in Hnd as [Hitem Hnd].
  apply IH; [| done |].
  - apply storeConsistent_append; [done |]. apply Hnew, elem_of_cons. by left.
  - intros t Ht. simpl. rewrite lookup_insert_ne.
    + apply Hnew, elem_of_cons. by right.
    + intros Heq. apply Hitem. rewrite Heq. by apply list_elem_of_fmap_2.
Qed.

(** Replace import builds a consistent store from a payload whose ids are
    pairwise distinct. *)
Lemma importReplace_consistent (imported : list Task) (a : App) :
  NoDup (map ID imported) → storeConsistent (snd (importReplace imported a)).
Proof.
  intros Hnd. unfold importReplace.
  pose proof (fold_replaceStep_consistent imported
                (set_order [] (set_tasks ∅ a)) [] ) as H.
  destruct (fold_left replaceStep imported _) as [a1 enq]. simpl.
  apply H; [| done |].
  - split; [apply NoDup_nil_2 |]. split; simpl.
    + intros id. rewrite elem_of_nil, lookup_empty.
      split; [done | by intros [? ?]].
    + intros id t. by rewrite lookup_empty.
  - intros t _. simpl. apply lookup_empty.
Qed.

Lemma createLoop_consistent (now : Z) (newID : nat → string)
    (urls : list string) :
  ∀ k a,
    storeConsistent a →
    NoDup (map newID (seq k (length urls))) →
    (∀ i, (k ≤ i < k + length urls)%nat → tasks a !! newID i = None) →
    storeConsistent (fst (createLoop E now newID k urls a)).
Proof.
  induction urls as [|url urls IH]; intros k a Hc Hnd Hfresh; [done |].
  simpl in *. apply NoDup_cons in Hnd as [Hk Hnd].
  specialize (IH (S k)
    (set_order (order a ++ [newID k])
       (set_tasks (<[newID k := newTask E now (newID k) url]> (tasks a)) a))).
  destruct (createLoop _ _ _ _ _ _) as [a' created]. simpl. apply IH.
  - apply (storeConsistent_append a (newTask E now (newID k) url) Hc).
    simpl. apply Hfresh. lia.
  - done.
  - intros i Hi. simpl. rewrite lookup_insert_ne; [apply Hfresh; lia |].
    intros Heq. apply Hk. rewrite Heq. apply list_elem_of_fmap_2, elem_of_seq. lia.
Qed.

End StoreInvariant.

(** ** Merge import *)

Section MergeImport.

Lemma mergeStep_queue (a : App) (enq : list string) (item : Task) :
  queue (fst (mergeStep (a, enq) item)) = queue a.
Proof.
  unfold mergeStep. destruct (tasks a !! ID item) as [existing|]; [| done].
  by destruct (UpdatedAt existing <? UpdatedAt item).
Qed.

Lemma mergeStep_other (a : App) (enq : list string) (item : Task) (id : string) :
  ID item ≠ id →
  tasks (fst (mergeStep (a, enq) item)) !! id = tasks a !! id.
Proof.
  intros Hne. unfold mergeStep.
  destruct (tasks a !! ID item) as [existing|].
  - destruct (UpdatedAt existing <? UpdatedAt item); [| done].
    simpl. by rewrite lookup_insert_ne.
  - simpl. by rewrite lookup_insert_ne.
Qed.

Lemma mergeStep_not_newer (a : App) (enq : list string) (item T : Task) :
  tasks a !! ID item = Some T → UpdatedAt item ≤ UpdatedAt T →
  mergeStep (a, enq) item = (a, enq).
Proof.
  intros HT Hle. unfold mergeStep. rewrite HT.
  destruct (Z.ltb_spec (UpdatedAt T) (UpdatedAt item)); [lia | done].
Qed.

Lemma fold_mergeStep_keeps (imported : list Task) (id : string) (T : Task) :
  ∀ a enq,
    tasks a !! id = Some T →
    (∀ T', T' ∈ imported → ID T' = id → UpdatedAt T' ≤ UpdatedAt T) →
    tasks (fst (fold_left mergeStep imported (a, enq))) !! id = Some T.
Proof.
  induction imported as [|item imported IH]; intros a enq HT Hold; [done |].
  cbn [fold_left].
  assert (tasks (fst (mergeStep (a, enq) item)) !! id = Some T) as Hstep.
  { destruct (decide (ID item = id)) as [Heq | Hne].
    - rewrite (mergeStep_not_newer a enq item T); [done | by rewrite Heq |].
      apply Hold; [apply elem_of_cons; by left | done].
    - by rewrite mergeStep_other. }
  destruct (mergeStep (a, enq) item) as [a1 enq1]. apply IH; [done |].
  intros T' HT'. apply Hold, elem_of_cons. by right.
Qed.

End MergeImport.

Lemma ImportTasks_merge (E : Env) (text : string) (overwrite : bool)
    (raw prepared : list Task) (a : App) :
  TrimSpace text ≠ "" →
  json_Unmarshal E text = Some raw →
  prepareImport E overwrite raw = Ok prepared →
  ImportTasks E text "merge" overwrite a
  = (Ok (fst (importMerge prepared a)), snd (importMerge prepared a)).
Proof.
  intros Ht Hj Hp. unfold ImportTasks.
  destruct (String.eqb_spec (TrimSpace text) ""); [done |].
  rewrite Hj, Hp. simpl. by destruct (importMerge prepared a).
Qed.

Lemma ImportTasks_replace (E : Env) (text : string) (overwrite : bool)
    (raw prepared : list Task) (a : App) :
  TrimSpace text ≠ "" →
  json_Unmarshal E text = Some raw →
  prepareImport E overwrite raw = Ok prepared →
  ImportTasks E text "replace" overwrite a
  = (Ok (fst (importReplace prepared a)), snd (importReplace prepared a)).
Proof.
  intros Ht Hj Hp. unfold ImportTasks.
  destruct (String.eqb_spec (TrimSpace text) ""); [done |].
  rewrite Hj, Hp. simpl. by destruct (importReplace prepared a).
Qed.

Lemma prepareImport_map (E : Env) (overwrite : bool) (l : list Task) :
  (∀ t, t ∈ l → TrimSpace (ID t) ≠ "") →
  prepareImport E overwrite l = Ok (map (prepareRecord E overwrite) l).
Proof.
  induction l as [|t l IH]; intros Hl; [done |]. simpl.
  destruct (String.eqb_spec (TrimSpace (ID t)) "") as [Hblank | _].
  - exfalso. apply (Hl t); [apply elem_of_cons; by left | done].
  - rewrite IH; [done |]. intros t' Ht'. apply Hl, elem_of_cons. by right.
Qed.

(** ** Merge import as a whole *)

Section MergeWhole.

Lemma filter_ID_other (l : list Task) (id : string) :
  id ∉ map ID l → filter (λ t, ID t = id) l = [].
Proof.
  induction l as [|t l IH]; intros Hid; [done |].
  rewrite filter_cons. destruct (decide (ID t = id)) as [Heq | Hne].
  - exfalso. apply Hid. simpl. apply elem_of_cons. by left.
  - apply IH. intros Hin. apply Hid. simpl. apply elem_of_cons. by right.
Qed.

Lemma filter_ID_once (before after : list Task) (T' : Task) :
  ID T' ∉ map ID before → ID T' ∉ map ID after →
  filter (λ t, ID t = ID T') (before ++ T' :: after) = [T'].
Proof.
  intros Hb Ha. rewrite filter_app, filter_cons.
  rewrite (filter_ID_other before) by done.
  rewrite (filter_ID_other after) by done.
  by rewrite decide_True.
Qed.

(** One iteration of the merge loop is [mergeRecord] at the id of the record
    and nothing at the other ids. *)
Lemma mergeStep_record (a : App) (enq : list string) (item : Task) :
  tasks (fst (mergeStep (a, enq) item)) !! ID item
  = mergeRecord (tasks a !! ID item) item.
Proof.
  unfold mergeStep, mergeRecord.
  destruct (tasks a !! ID item) as [existing|] eqn:Hex.
  - destruct (UpdatedAt existing <? UpdatedAt item); simpl.
    + by rewrite lookup_insert_eq.
    + done.
  - simpl. by rewrite lookup_insert_eq.
Qed.

Lemma fold_mergeStep_record (imported : list Task) (id : string) :
  ∀ a enq,
    tasks (fst (fold_left mergeStep imported (a, enq))) !! id
    = fold_left mergeRecord (filter (λ t, ID t = id) imported) (tasks a !! id).
Proof.
  induction imported as [|item imported IH]; intros a enq; [done |].
  cbn [fold_left]. rewrite filter_cons.
  pose proof (mergeStep_record a enq item) as Hrec.
  pose proof (mergeStep_other a enq item id) as Hoth.
  destruct (mergeStep (a, enq) item) as [a1 enq1]. rewrite IH.
  destruct (decide (ID item = id)) as [<- | Hne].
  - cbn [fold_left]. simpl in Hrec. by rewrite Hrec.
  - simpl in Hoth. by rewrite Hoth.
Qed.

Lemma fold_mergeStep_queue (imported : list Task) :
  ∀ a enq, queue (fst (fold_left mergeStep imported (a, enq))) = queue a.
Proof.
  induction imported as [|item imported IH]; intros a enq; [done |].
  cbn [fold_left]. pose proof (mergeStep_queue a enq item) as Hs.
  destruct (mergeStep (a, enq) item) as [a1 enq1]. by rewrite IH.
Qed.

(** The ids the merge loop appends to [order], and those it collects for the
    queue. *)
Lemma fold_mergeStep_inserted (imported : list Task) :
  ∀ a enq,
    order (fst (fold_left mergeStep imported (a, enq)))
      = order a ++ map ID (insertedRecords (tasks a) imported) ∧
    snd (fold_left mergeStep imported (a, enq))
      = enq ++ map ID (filter (λ t, isQueued t = true)
                         (insertedRecords (tasks a) imported)).
Proof.
  unfold insertedRecords.
  induction imported as [|item imported IH]; intros a enq.
  - simpl. by rewrite !app_nil_r.
  - cbn [fold_left firstById].
    destruct (mergeStep (a, enq) item) as [a1 enq1] eqn:Hstep.
    destruct (IH a1 enq1) as [Ho He]. rewrite Ho, He. clear IH Ho He.
    rewrite filter_cons, list_filter_filter.
    unfold mergeStep in Hstep.
    destruct (tasks a !! ID item) as [existing|] eqn:Hex.
    + rewrite decide_False by done.
      assert (filter (λ t, tasks a1 !! ID t = None) (firstById imported)
              = filter (λ t, tasks a !! ID t = None ∧ ID t ≠ ID item)
                  (firstById imported)) as ->.
      { apply list_filter_iff. intros t.
        destruct (UpdatedAt existing <? UpdatedAt item);
          injection Hstep as <- <-; simpl.
        - destruct (decide (ID item = ID t)) as [Heq | Hne].
          + rewrite Heq, lookup_insert_eq. split; [done |].
            intros [_ Hn]. by destruct Hn.
          + rewrite lookup_insert_ne by done. split; [| by intros [? _]].
            intros Hn. split; [done | congruence].
        - split; [| by intros [? _]]. intros Hn. split; [done |].
          intros Heq. rewrite Heq in Hn. congruence. }
      by destruct (UpdatedAt existing <? UpdatedAt item);
        injection Hstep as <- <-.
    + rewrite decide_True by done. injection Hstep as <- <-. simpl.
      assert (filter (λ t, <[ID item := item]> (tasks a) !! ID t = None)
                (firstById imported)
              = filter (λ t, tasks a !! ID t = None ∧ ID t ≠ ID item)
                  (firstById imported)) as ->.
      { apply list_filter_iff. intros t.
        destruct (decide (ID item = ID t)) as [Heq | Hne].
        - rewrite Heq, lookup_insert_eq. split; [done |].
          intros [_ Hn]. by destruct Hn.
        - rewrite lookup_insert_ne by done. split; [| by intros [? _]].
          intros Hn. split; [done | congruence]. }
      split; [by rewrite <- app_assoc |].
      rewrite filter_cons.
      change (String.eqb (Status item) statusQueued) with (isQueued item).
      destruct (isQueued item) eqn:Hq.
      * rewrite decide_True by done. simpl. by rewrite <- app_assoc.
      * by rewrite decide_False by done.
Qed.

Lemma filter_all {A} (P : A → Prop) `{!∀ x, Decision (P x)} (l : list A) :
  (∀ x, x ∈ l → P x) → filter P l = l.
Proof.
  induction l as [|x l IH]; intros Hl; [done |].
  rewrite filter_cons_True by (apply Hl, elem_of_cons; by left).
  f_equal. apply IH. intros y Hy. apply Hl, elem_of_cons. by right.
Qed.

Lemma firstById_NoDup (l : list Task) : NoDup (map ID l) → firstById l = l.
Proof.
  induction l as [|t l IH]; [done |]. simpl.
  intros [Hnotin Hnd]%NoDup_cons. rewrite IH by done. f_equal.
  apply filter_all. intros t' Ht' Heq. apply Hnotin. rewrite <- Heq.
  by apply list_elem_of_fmap_2.
Qed.

End MergeWhole.

(** C3.  Merge import of a payload that decodes and whose ids are not blank
    succeeds and returns the new task list; [incoming] are the records as the
    first loop of [ImportTasks] leaves them.  A stored task [T] that no
    incoming record of its id is newer than is still stored, unchanged.  For
    a record [T'] that is the only one of its id in the payload: if its id
    holds a task [T] that is not older, the store keeps [T]; if [T'] is
    strictly newer, the store holds [T'] with the [createdAt] of [T]; if its
    id is new, the store holds [T'].  For any payload, what is stored under
    an id is the result of [mergeRecord] over the incoming records of that
    id, in the order of the payload; [order] is the old [order] followed by
    the ids of the inserted records (the first record of every id that was
    not stored) in the order of the payload; and the ids sent to the queue
    are those of the inserted records in status [Queued], in that order. *)
Theorem C3_merge_import_never_regresses :
  ∀ (E : Env) (text : string) (overwrite : bool) (raw : list Task) (a : App),
    TrimSpace text ≠ "" →
    json_Unmarshal E text = Some raw →
    (∀ t, t ∈ raw → TrimSpace (ID t) ≠ "") →
    let incoming := map (prepareRecord E overwrite) raw in
    let r := ImportTasks E text "merge" overwrite a in
    let a' := snd r in
    fst r = Ok (ListTasks a') ∧
    (∀ id T, tasks a !! id = Some T →
       (∀ T', T' ∈ incoming → ID T' = id → UpdatedAt T' ≤ UpdatedAt T) →
       tasks a' !! id = Some T) ∧
    (∀ before T' after,
       incoming = before ++ T' :: after →
       ID T' ∉ map ID before → ID T' ∉ map ID after →
       (∀ T, tasks a !! ID T' = Some T → UpdatedAt T' ≤ UpdatedAt T →
             tasks a' !! ID T' = Some T) ∧
       (∀ T, tasks a !! ID T' = Some T → UpdatedAt T < UpdatedAt T' →
             tasks a' !! ID T' = Some (set_CreatedAt (CreatedAt T) T')) ∧
       (tasks a !! ID T' = None → tasks a' !! ID T' = Some T')) ∧
    (∀ id, tasks a' !! id
           = fold_left mergeRecord (filter (λ t, ID t = id) incoming)
               (tasks a !! id)) ∧
    order a' = order a ++ map ID (insertedRecords (tasks a) incoming) ∧
    queue a'
      = queue a ++ map ID (filter (λ t, isQueued t = true)
                             (insertedRecords (tasks a) incoming)) ∧
    (NoDup (map ID incoming) →
     order a' = order a ++ map ID (filter (λ t, tasks a !! ID t = None) incoming)).
Proof.
  intros E text overwrite raw a Htext Hdec Hids incoming r a'.
  assert (r = (Ok (fst (importMerge incoming a)), snd (importMerge incoming a)))
    as Hr.
  { apply (ImportTasks_merge E text overwrite raw); [done | done |].
    by apply prepareImport_map. }
  pose proof (fold_mergeStep_record incoming) as Hrec.
  pose proof (fold_mergeStep_inserted incoming a []) as [Hord Henq].
  pose proof (fold_mergeStep_queue incoming a []) as Hq.
  pose proof (fold_mergeStep_keeps incoming) as Hkeep.
  assert (∀ id, tasks a' !! id
                = fold_left mergeRecord (filter (λ t, ID t = id) incoming)
                    (tasks a !! id)) as Hevery.
  { intros id. specialize (Hrec id a []). subst a'. rewrite Hr.
    unfold importMerge.
    by destruct (fold_left mergeStep incoming (a, [])) as [a1 enq1]. }
  assert (order a' = order a ++ map ID (insertedRecords (tasks a) incoming))
    as Horder.
  { subst a'. rewrite Hr. unfold importMerge.
    by destruct (fold_left mergeStep incoming (a, [])) as [a1 enq1]. }
  split; [| split; [| split; [| split; [| split; [| split]]]]].
  - subst a'. rewrite Hr. unfold importMerge.
    by destruct (fold_left mergeStep incoming (a, [])) as [a1 enq1].
  - intros id T HT Hold. specialize (Hkeep id T a [] HT Hold).
    subst a'. rewrite Hr. unfold importMerge.
    by destruct (fold_left mergeStep incoming (a, [])) as [a1 enq1].
  - intros before T' after Hsplit Hb Ha.
    pose proof (Hevery (ID T')) as Hev.
    rewrite Hsplit, filter_ID_once in Hev by done. cbn [fold_left] in Hev.
    split; [| split].
    + intros T HT Hle. rewrite Hev, HT. simpl.
      destruct (Z.ltb_spec (UpdatedAt T) (UpdatedAt T')); [lia | done].
    + intros T HT Hlt. rewrite Hev, HT. simpl.
      destruct (Z.ltb_spec (UpdatedAt T) (UpdatedAt T')); [done | lia].
    + intros Hnew. by rewrite Hev, Hnew.
  - exact Hevery.
  - exact Horder.
  - subst a'. rewrite Hr. unfold importMerge.
    destruct (fold_left mergeStep incoming (a, [])) as [a1 enq1].
    simpl in *. by rewrite Hq, Henq.
  - intros Hnd. rewrite Horder. unfold insertedRecords.
    by rewrite firstById_NoDup.
Qed.

Ltac solve_not_listed :=
  let H := fresh in
  intros H; cbn in H;
  repeat (apply elem_of_cons in H as [H | H]; [discriminate H |]);
  by apply elem_of_nil in H.

(** C3 at [pairApp] and the payload of [mergeEnv]: the older record for [a]
    leaves the stored task, the newer record for [b] replaces the stored task
    and keeps its [createdAt], the records [c] and [d] are appended to
    [order], and of the two only [c], which is [Queued], is sent to the
    queue. *)
Lemma C3_merge_import_never_regresses_witness :
  let a' := snd (ImportTasks mergeEnv mergeText "merge" false pairApp) in
  tasks a' !! "a" = Some pairDone ∧
  tasks a' !! "b" = Some (set_CreatedAt (CreatedAt pairQueued) newerB) ∧
  tasks a' !! "c" = Some freshC ∧
  order a' = ["a"; "b"; "c"; "d"] ∧
  queue a' = ["b"; "c"].
Proof.
  assert (∀ t, t ∈ [olderA; newerB; freshC; freshD] → TrimSpace (ID t) ≠ "")
    as Hids.
  { intros t. rewrite !elem_of_cons, elem_of_nil.
    intros [-> | [-> | [-> | [-> | []]]]]; vm_compute; discriminate. }
  assert (TrimSpace mergeText ≠ "") as Htext by (vm_compute; discriminate).
  destruct (C3_merge_import_never_regresses mergeEnv mergeText false
              [olderA; newerB; freshC; freshD] pairApp Htext eq_refl Hids)
    as (_ & _ & Hone & _ & Hord & Hq & _).
  cbv zeta in *.
  destruct (Hone [] olderA [newerB; freshC; freshD] eq_refl) as (Ha & _ & _).
  { solve_not_listed. }
  { solve_not_listed. }
  destruct (Hone [olderA] newerB [freshC; freshD] eq_refl) as (_ & Hb & _).
  { solve_not_listed. }
  { solve_not_listed. }
  destruct (Hone [olderA; newerB] freshC [freshD] eq_refl) as (_ & _ & Hc).
  { solve_not_listed. }
  { solve_not_listed. }
  split; [| split; [| split; [| split]]].
  - apply (Ha pairDone); [reflexivity | vm_compute; discriminate].
  - apply (Hb pairQueued); [reflexivity | reflexivity].
  - apply Hc. reflexivity.
  - rewrite Hord. reflexivity.
  - rewrite Hq. reflexivity.
Defined.

(** ** Export followed by replace import *)

Section RoundTrip.

Variable E : Env.

Lemma prepareImport_keep (l : list Task) :
  (∀ t, t ∈ l → TrimSpace (ID t) ≠ "") →
  prepareImport E false l = Ok (map (refreshMissing E) l).
Proof.
  induction l as [|t l IH]; intros Hl; [done |]. simpl.
  destruct (String.eqb_spec (TrimSpace (ID t)) "") as [Hblank | _].
  - exfalso. apply (Hl t); [apply elem_of_cons; by left | done].
  - rewrite IH; [done |]. intros t' Ht'. apply Hl, elem_of_cons. by right.
Qed.

Lemma fold_replaceStep_snoc (l : list Task) (x : Task) (st : App * list string) :
  fst (fold_left replaceStep (l ++ [x]) st)
  = set_order (order (fst (fold_left replaceStep l st)) ++ [ID x])
      (set_tasks (<[ID x := x]> (tasks (fst (fold_left replaceStep l st))))
         (fst (fold_left replaceStep l st))).
Proof.
  rewrite fold_left_app. simpl. by destruct (fold_left replaceStep l st).
Qed.

(** After the loop of [case "replace"], [order] is the payload's ids and each
    record of a payload whose equal ids carry equal records is stored. *)
Lemma fold_replaceStep_spec (l : list Task) (a0 : App) (enq0 : list string) :
  (∀ t t', t ∈ l → t' ∈ l → ID t = ID t' → t = t') →
  order (fst (fold_left replaceStep l (a0, enq0))) = order a0 ++ map ID l ∧
  ∀ t, t ∈ l →
       tasks (fst (fold_left replaceStep l (a0, enq0))) !! ID t = Some t.
Proof.
  induction l as [|x l IH] using rev_ind; intros Hco.
  - simpl. rewrite app_nil_r. split; [done |]. by intros t ?%elem_of_nil.
  - rewrite fold_replaceStep_snoc. simpl.
    destruct IH as [Ho Ht].
    { intros t t' Hin Hin'. apply Hco; apply elem_of_app; by left. }
    split.
    + by rewrite Ho, map_app, app_assoc.
    + intros t Hin. destruct (decide (ID x = ID t)) as [Heq | Hne].
      * rewrite Heq, lookup_insert_eq. f_equal. apply Hco; [| done | done].
        apply elem_of_app. right. apply list_elem_of_singleton. done.
      * rewrite lookup_insert_ne by done. apply Ht.
        apply elem_of_app in Hin as [Hin | Hin%list_elem_of_singleton];
          [done | congruence].
Qed.

Lemma importReplace_spec (l : list Task) (a : App) :
  (∀ t t', t ∈ l → t' ∈ l → ID t = ID t' → t = t') →
  fst (importReplace l a) = l ∧
  ListTasks (snd (importReplace l a)) = l ∧
  order (snd (importReplace l a)) = map ID l.
Proof.
  intros Hco. unfold importReplace.
  destruct (fold_replaceStep_spec l (set_order [] (set_tasks ∅ a)) [] Hco)
    as [Ho Ht].
  destruct (fold_left replaceStep l _) as [a1 enq1]. simpl in *.
  unfold ListTasks, snapshot. simpl. rewrite Ho.
  by rewrite snapshotOf_map_ID.
Qed.

End RoundTrip.

(** C4, as stated, fails.  [goneApp] holds one finished task whose output
    file is no longer on the disk, with the stored flag [MissingOutput] still
    [false].  Export followed by replace import succeeds and returns the
    task with [MissingOutput] set: the task list is not reproduced. *)
Lemma C4_roundtrip_changes_missingOutput :
  ListTasks goneApp = [goneTask] ∧
  ExportTasks goneEnv goneApp = Ok goneText ∧
  fst (ImportTasks goneEnv goneText "replace" false goneApp)
    = Ok [set_MissingOutput true goneTask] ∧
  ListTasks (snd (ImportTasks goneEnv goneText "replace" false goneApp))
    = [set_MissingOutput true goneTask] ∧
  ListTasks (snd (ImportTasks goneEnv goneText "replace" false goneApp))
    ≠ ListTasks goneApp.
Proof.
  split; [by vm_compute |]. split; [by vm_compute |].
  split; [by vm_compute |]. split; [by vm_compute |].
  vm_compute. intros [=].
Qed.

(** C4, amended.  For every store whose tasks are stored under their own
    non-blank ids, and every codec that obeys its law at the exported list
    (the document it encodes for the list is not blank and decodes to the
    list), export followed by replace import of the exported document
    (overwriteDownloaded false) succeeds and reproduces the task list with
    the same ids, the same order and the same field values except
    [MissingOutput], which is recomputed from the disk for every task; the
    list is identical when every stored flag already agrees with the disk,
    and [order] itself is reproduced when all its ids are live. *)
Theorem C4_export_replace_import_roundtrip :
  ∀ (E : Env) (a : App) (text : string),
    codecRoundTrips E (ListTasks a) →
    (∀ id t, tasks a !! id = Some t → ID t = id) →
    (∀ t, t ∈ ListTasks a → TrimSpace (ID t) ≠ "") →
    ExportTasks E a = Ok text →
    let r := ImportTasks E text "replace" false a in
    fst r = Ok (map (refreshMissing E) (ListTasks a)) ∧
    ListTasks (snd r) = map (refreshMissing E) (ListTasks a) ∧
    map ID (ListTasks (snd r)) = map ID (ListTasks a) ∧
    order (snd r) = map ID (ListTasks a) ∧
    ((∀ id, id ∈ order a → is_Some (tasks a !! id)) →
     order (snd r) = order a) ∧
    ((∀ t, t ∈ ListTasks a →
           MissingOutput t = outputMissing E (OutputPath t)) →
     ListTasks (snd r) = ListTasks a).
Proof.
  intros E a text Hlaw Hkey Hids Hexp r.
  assert (json_MarshalIndent E (ListTasks a) = Some text) as Henc.
  { unfold ExportTasks in Hexp. unfold ListTasks.
    destruct (json_MarshalIndent E (snapshot a)); by inversion Hexp. }
  destruct (Hlaw text Henc) as [Htext Hdec].
  assert (∀ t t', t ∈ map (refreshMissing E) (ListTasks a) →
                  t' ∈ map (refreshMissing E) (ListTasks a) →
                  ID t = ID t' → t = t') as Hco.
  { intros t t' (u & -> & Hu)%list_elem_of_fmap (u' & -> & Hu')%list_elem_of_fmap.
    simpl. intros Heq.
    destruct (snapshotOf_elem _ _ _ Hu) as (i & _ & Hi).
    destruct (snapshotOf_elem _ _ _ Hu') as (i' & _ & Hi').
    pose proof (Hkey _ _ Hi) as Hk. pose proof (Hkey _ _ Hi') as Hk'.
    assert (u = u') as -> by congruence. done. }
  assert (map ID (map (refreshMissing E) (ListTasks a)) = map ID (ListTasks a))
    as Hmap.
  { rewrite map_map. by apply map_ext. }
  destruct (importReplace_spec (map (refreshMissing E) (ListTasks a)) a Hco)
    as (Hout & Hlist & Hord).
  assert (r = (Ok (fst (importReplace (map (refreshMissing E) (ListTasks a)) a)),
               snd (importReplace (map (refreshMissing E) (ListTasks a)) a)))
    as Hr.
  { apply (ImportTasks_replace E text false (ListTasks a)); [done | done |].
    by apply prepareImport_keep. }
  rewrite Hr. simpl. rewrite Hout, Hlist, Hord, Hmap.
  split; [done |]. split; [done |]. split; [done |]. split; [done |]. split.
  - intros Hlive. by apply snapshotOf_ids.
  - intros Hflag. rewrite <- (map_id (ListTasks a)) at 2.
    apply map_ext_in. intros t Ht%list_elem_of_In.
    unfold refreshMissing. rewrite <- (Hflag t Ht). by destruct t.
Qed.

(** The amended C4 at [pairApp], a store of two tasks whose flags agree with
    the disk of [pairEnv]: the hypotheses hold there, and the round trip
    returns the list of two tasks it started from. *)
Lemma C4_export_replace_import_roundtrip_witness :
  ListTasks pairApp = [pairDone; pairQueued] ∧
  ExportTasks pairEnv pairApp = Ok pairText ∧
  ListTasks (snd (ImportTasks pairEnv pairText "replace" false pairApp))
  = ListTasks pairApp.
Proof.
  split; [reflexivity |]. split; [reflexivity |].
  apply (C4_export_replace_import_roundtrip pairEnv pairApp pairText).
  - intros doc. change (ListTasks pairApp) with [pairDone; pairQueued].
    unfold pairEnv, exampleEnv. cbn [json_MarshalIndent json_Unmarshal].
    destruct (decide _) as [_ | Hne]; [| by destruct Hne].
    intros [= <-]. split; [vm_compute; discriminate | reflexivity].
  - intros id t. simpl. destruct (decide ("b" = id)) as [<- | Hb].
    + rewrite lookup_insert_eq. by intros [= <-].
    + rewrite lookup_insert_ne by done.
      intros [<- <-]%lookup_singleton_Some. reflexivity.
  - intros t. change (ListTasks pairApp) with [pairDone; pairQueued].
    rewrite !elem_of_cons, elem_of_nil.
    intros [-> | [-> | []]]; vm_compute; discriminate.
  - reflexivity.
  - intros t. change (ListTasks pairApp) with [pairDone; pairQueued].
    rewrite !elem_of_cons, elem_of_nil.
    intros [-> | [-> | []]]; reflexivity.
Defined.

(** ** The resume heuristic *)

Section ResumeStatus.
Variable E : Env.
Lemma resumeWalk_spec (createdAt : Z) (nt : string) (items : list WalkItem) :
  ∀ found recent,
    let st := fold_left (resumeWalkStep E createdAt nt) items (found, recent) in
    fst st = found || existsb (nameMatches E nt) (partialFiles E items) ∧
    fst st || snd st
      = found || recent ||
        existsb (nameMatches E nt) (partialFiles E items) ||
        existsb (modifiedAfter createdAt) (partialFiles E items).
Proof.
  induction items as [|item items IH]; intros found recent.
  - simpl. by rewrite !orb_false_r.
  - cbn [fold_left]. 
    destruct item as [path | path name isDir info].
    + apply IH.
    + destruct found.
      * cbn [resumeWalkStep orb]. destruct (IH true recent) as [H1 H2]. cbv zeta in *.
        split; [rewrite H1 | rewrite H2]; reflexivity.
      * unfold partialFiles. cbn [omap list_omap]. fold (partialFiles E items).
        cbn [resumeWalkStep orb].
        destruct isDir; [apply IH |]. 
        destruct (isPartialFile E name); cbn [negb]; [| apply IH].
        match goal with
        | |- context [fold_left _ items (?f, ?r)] =>
            destruct (IH f r) as [H1 H2]
        end.
        cbv zeta in *. split; [rewrite H1 | rewrite H2]; cbn [existsb];
        unfold nameMatches, modifiedAfter; cbn [fst snd];
        destruct (Contains (normalizeForMatch E name) nt);
          destruct info as [fi|];
          try destruct (createdAt - minute <? fiModTime fi);
          destruct recent; cbn [orb]; rewrite ?orb_true_r; done.
Qed.
End ResumeStatus.

(** C5, as stated, fails at three inputs.  (1) [boundaryApp]: the only
    partial-marker file does not match the title and was modified exactly one
    minute before the creation time, which is no earlier than that instant;
    the program answers [none].  (2) [symbolApp]: the title [!!!] is not the
    placeholder and normalizes to the empty string, which every normalized
    name contains; the program answers [none].  (3) [homelessApp]: the
    recorded size 100 exceeds the 40 bytes on disk, and the home directory is
    unknown; the program answers [none]. *)
Lemma C5_resume_status_differs_from_claim :
  (GetTaskResumeStatus boundaryEnv (20 * minute) "a" boundaryApp = Ok "none" ∧
   resumeStatusClaimed boundaryEnv (20 * minute) boundaryTask = "ready") ∧
  (GetTaskResumeStatus symbolEnv (20 * minute) "a" symbolApp = Ok "none" ∧
   resumeStatusClaimed symbolEnv (20 * minute) symbolTask = "ready") ∧
  (GetTaskResumeStatus homelessEnv (20 * minute) "a" homelessApp = Ok "none" ∧
   resumeStatusClaimed homelessEnv (20 * minute) homelessTask = "ready").
Proof. repeat split; by vm_compute. Qed.

(** C5, amended.  For every stored task, [GetTaskResumeStatus] returns
    [none] when the task is [Running] and was updated less than 30 seconds
    ago, whatever is on disk, and [none] when the output directory cannot be
    determined; otherwise [ready] when the trimmed [outputPath] is a regular
    file smaller than the recorded positive [filesize]; otherwise [none] when
    the trimmed title is empty, is the placeholder or normalizes to the
    empty string; otherwise [ready] if the normalized name of some
    partial-marker file of the directory contains the normalized title, or,
    failing that, if some partial-marker file was modified strictly later
    than one minute before the creation time; [none] in every other case. *)
Theorem C5_resume_status :
  ∀ (E : Env) (now : Z) (id : string) (a : App) (task : Task),
    tasks a !! id = Some task →
    GetTaskResumeStatus E now id a = Ok (resumeStatusAmended E now task) ∧
    (Status task = statusRunning → now - UpdatedAt task < 30 * second →
     GetTaskResumeStatus E now id a = Ok "none") ∧
    (activelyRunning now task = false →
     is_Some (taskOutputDir E (CreatedAt task)) →
     partialOutput E (TrimSpace (OutputPath task)) (Filesize task) = true →
     GetTaskResumeStatus E now id a = Ok "ready").
Proof.
  intros E now id a task Htask.
  assert (GetTaskResumeStatus E now id a
          = Ok (resumeStatusAmended E now task)) as Heq; [| split; [done |]].
  2: { rewrite Heq. unfold resumeStatusAmended. split.
       - intros Hs Ht.
         assert (activelyRunning now task = true) as ->; [| done].
         unfold activelyRunning.
         by rewrite andb_true_iff, String.eqb_eq, Z.ltb_lt.
       - intros -> [dir ->] ->. done. }
  unfold GetTaskResumeStatus, resumeStatusAmended. rewrite Htask.
  destruct (activelyRunning now task); [done |].
  destruct (taskOutputDir E (CreatedAt task)) as [dir|]; [| done].
  fold (partialOutput E (TrimSpace (OutputPath task)) (Filesize task)).
  destruct (partialOutput E (TrimSpace (OutputPath task)) (Filesize task));
    [done |].
  destruct (_ || _); [done |].
  destruct (String.eqb (normalizeForMatch E (TrimSpace (Title task))) "");
    [done |].
  destruct (resumeWalk_spec E (CreatedAt task)
              (normalizeForMatch E (TrimSpace (Title task)))
              (filepath_WalkDir E dir) false false) as [H1 H2].
  cbv zeta in *.
  destruct (fold_left _ _ _) as [found recent]. simpl in H1, H2.
  rewrite <- H1 in *.
  destruct found; [done |]. simpl in H2. rewrite <- H2.
  by destruct recent.
Qed.

(** The amended C5 at [boundaryApp]. *)
Lemma C5_resume_status_witness :
  GetTaskResumeStatus boundaryEnv (20 * minute) "a" boundaryApp
  = Ok (resumeStatusAmended boundaryEnv (20 * minute) boundaryTask).
Proof.
  destruct (C5_resume_status boundaryEnv (20 * minute) "a" boundaryApp
              boundaryTask) as [H _].
  - reflexivity.
  - exact H.
Defined.

(** ** Resume and forced resume *)

Lemma activelyRunning_iff (now : Z) (task : Task) :
  activelyRunning now task = true ↔
  Status task = statusRunning ∧ now - UpdatedAt task < 30 * second.
Proof.
  unfold activelyRunning.
  rewrite andb_true_iff, String.eqb_eq, Z.ltb_lt. done.
Qed.

(** C6.  For every stored task that is [Running] and was updated less than
    30 seconds ago, [ResumeTask] fails with "task is already running" and
    leaves the state unchanged, while [ForceResumeTask] succeeds; every
    successful [ResumeTask] and every [ForceResumeTask] on a stored task
    resets the status to [Queued], clears [progress] and [errorMessage], sets
    the resume flag and sends the id to the queue. *)
Theorem C6_resume_guard_and_reset :
  ∀ (now : Z) (id : string) (a : App) (task : Task),
    tasks a !! id = Some task →
    (Status task = statusRunning → now - UpdatedAt task < 30 * second →
     ResumeTask now id a = (Err "task is already running", a)) ∧
    (fst (ResumeTask now id a) = Ok tt →
     resumedFrom a id (snd (ResumeTask now id a))) ∧
    (¬ (Status task = statusRunning ∧ now - UpdatedAt task < 30 * second) →
     fst (ResumeTask now id a) = Ok tt) ∧
    fst (ForceResumeTask now id a) = Ok tt ∧
    resumedFrom a id (snd (ForceResumeTask now id a)).
Proof.
  intros now id a task Htask.
  assert (∀ stage,
    resumedFrom a id
      (enqueueTasks [id]
         (set_tasks (<[id := resumeFields now stage task]> (tasks a)) a)))
    as Hres.
  { intros stage. exists task, (resumeFields now stage task).
    repeat split; done. }
  unfold ResumeTask, ForceResumeTask. rewrite Htask.
  destruct (activelyRunning now task) eqn:Hrun.
  - split; [done |]. split; [done |]. split; [| split; [done | apply Hres]].
    intros Hn. by apply activelyRunning_iff in Hrun.
  - split.
    { intros Hs Ht.
      assert (activelyRunning now task = true) as Hr
        by (by apply activelyRunning_iff).
      congruence. }
    split; [intros _; apply Hres |]. split; [done |].
    split; [done | apply Hres].
Qed.

(** C6 at a task marked [Running] ten seconds before. *)
Lemma C6_resume_guard_and_reset_witness :
  ResumeTask (11 * minute + 10 * second) "a" runningApp
    = (Err "task is already running", runningApp) ∧
  fst (ForceResumeTask (11 * minute + 10 * second) "a" runningApp) = Ok tt.
Proof.
  destruct (C6_resume_guard_and_reset (11 * minute + 10 * second) "a"
              runningApp runningTask) as (H1 & _ & _ & H4 & _).
  - reflexivity.
  - split; [apply H1; [reflexivity | vm_compute; reflexivity] | exact H4].
Defined.

(** ** Failure diagnostics *)

Section Diagnostics.

#[local] Arguments String.append _ _ : simpl nomatch.

Lemma Contains_empty (s : string) : Contains s "" = true.
Proof. by destruct s. Qed.

Lemma Contains_trans (s p x : string) :
  Contains s p = true → Contains p x = true → Contains s x = true.
Proof.
  rewrite !Contains_iff. intros (a & b & ->) (c & d & ->).
  exists (a +:+ c), (d +:+ b). by rewrite !append_assoc.
Qed.

Lemma Contains_refl (s : string) : Contains s s = true.
Proof. apply Contains_iff. exists "", "". by rewrite append_nil_r. Qed.

Lemma Contains_app_r (p x : string) : Contains (p +:+ x) x = true.
Proof. apply Contains_iff. exists p, "". by rewrite append_nil_r. Qed.

Lemma Join_elem (parts : list string) (sep p : string) :
  p ∈ parts → Contains (Join parts sep) p = true.
Proof.
  induction parts as [|e rest IH]; [by intros ?%elem_of_nil |].
  intros Hin. apply Contains_iff. cbn [Join]. destruct rest as [|e' rest'].
  - apply list_elem_of_singleton in Hin as ->.
    exists "", "". by rewrite append_nil_r.
  - apply elem_of_cons in Hin as [-> | Hin].
    + by exists "", (sep +:+ Join (e' :: rest') sep).
    + apply IH, Contains_iff in Hin as (pre & post & Hj). rewrite Hj.
      exists (e +:+ sep +:+ pre), post. by rewrite !append_assoc.
Qed.

Lemma formatCommandError_part (err : CmdError) (cmdArgs : list string)
    (stdoutText stderrText part x : string) :
  Contains part x = true →
  (part = "Command: " +:+ Join cmdArgs " " ∨
   (TrimSpace stdoutText ≠ "" ∧
    part = "Stdout:" +:+ String (byte 10) (TrimSpace stdoutText)) ∨
   (TrimSpace stderrText ≠ "" ∧
    part = "Stderr:" +:+ String (byte 10) (TrimSpace stderrText)) ∨
   (TrimSpace stdoutText = "" ∧ TrimSpace stderrText = "" ∧
    part = "Error: " +:+ errorText err) ∨
   (∃ n text, err = ExitError n text ∧
      part = "yt-dlp failed" +:+ " (" +:+ ("exit code " +:+ Itoa n) +:+ ")")) →
  Contains (formatCommandError err cmdArgs stdoutText stderrText) x = true.
Proof.
  intros Hx Hpart. apply Contains_trans with part; [| done].
  unfold formatCommandError. apply Join_elem.
  destruct (String.eqb_spec (TrimSpace stdoutText) "") as [Ho | Ho];
    destruct (String.eqb_spec (TrimSpace stderrText) "") as [He | He];
    cbn [andb];
    destruct Hpart as [-> | [[H ->] | [[H ->] | [(H1 & H2 & ->) |
                        (n & text & -> & ->)]]]];
    try done;
    rewrite ?elem_of_app, ?elem_of_cons, ?list_elem_of_singleton;
    try (destruct err; cbn [String.eqb]; rewrite ?elem_of_app, ?elem_of_cons,
           ?list_elem_of_singleton; tauto);
    cbn; rewrite ?elem_of_app, ?elem_of_cons, ?list_elem_of_singleton; tauto.
Qed.

(** The worker sections keep a stored id stored and leave the other fields
    of the state alone. *)
Lemma updateTaskProgress_present (now : Z) (id progress : string) (a : App) :
  is_Some (tasks a !! id) →
  is_Some (tasks (updateTaskProgress now id progress a) !! id) ∧
  ytDlpPath (updateTaskProgress now id progress a) = ytDlpPath a.
Proof.
  intros [task Ht]. unfold updateTaskProgress. rewrite Ht.
  destruct (_ && _); simpl; [by rewrite Ht |].
  rewrite lookup_insert_eq. eauto.
Qed.

Lemma capturedText_joinLines (isStderr : bool)
    (lines : list (bool * string * Z)) :
  capturedText isStderr lines = joinLines (linesOf isStderr lines).
Proof.
  unfold capturedText, linesOf, joinLines.
  induction lines as [|[[b line] t] lines IH]; [done |].
  cbn [fold_right fst snd]. rewrite filter_cons. cbn [fst snd].
  destruct b, isStderr; cbn [Bool.eqb];
    try (rewrite decide_True by done; cbn [map fold_right fst snd];
         by rewrite IH);
    rewrite decide_False by done; exact IH.
Qed.

Lemma joinLines_elem (lines : list string) (line : string) :
  line ∈ lines → ∃ pre post, joinLines lines = pre +:+ line +:+ post.
Proof.
  induction lines as [|l lines IH]; [by intros ?%elem_of_nil |].
  intros [-> | Hin]%elem_of_cons; cbn [joinLines fold_right].
  - by exists "", (String (byte 10) (joinLines lines)).
  - destruct (IH Hin) as (pre & post & Hj). fold (joinLines lines).
    rewrite Hj. exists (l +:+ String (byte 10) pre), post.
    by rewrite append_assoc.
Qed.

Lemma linesOf_elem (isStderr : bool) (line : string) (t : Z)
    (lines : list (bool * string * Z)) :
  (isStderr, line, t) ∈ lines → line ∈ linesOf isStderr lines.
Proof.
  intros Hin. unfold linesOf.
  apply (list_elem_of_fmap_2 (λ l, snd (fst l)) _ (isStderr, line, t)).
  by apply list_elem_of_filter.
Qed.

(** Each stream of [linesHandled] is a prefix of the stream written. *)
Lemma linesOf_linesHandled (written : list (bool * string * Z)) :
  ∀ nOut nErr,
    linesOf false (linesHandled nOut nErr written)
      = firstn nOut (linesOf false written) ∧
    linesOf true (linesHandled nOut nErr written)
      = firstn nErr (linesOf true written).
Proof.
  unfold linesOf.
  induction written as [|[[b line] t] written IH]; intros nOut nErr.
  - by rewrite !firstn_nil.
  - cbn [linesHandled fst snd]. rewrite !(filter_cons _ (b, line, t)).
    cbn [fst snd]. destruct b.
    + rewrite decide_False by done. rewrite decide_True by done.
      destruct nErr as [|k].
      * destruct (IH nOut O) as [Ho He]. rewrite Ho, He. done.
      * rewrite !filter_cons. cbn [fst snd].
        rewrite decide_False by done. rewrite decide_True by done.
        destruct (IH nOut k) as [Ho He]. rewrite Ho. cbn [map firstn].
        by rewrite He.
    + rewrite decide_True by done. rewrite decide_False by done.
      destruct nOut as [|k].
      * destruct (IH O nErr) as [Ho He]. rewrite Ho, He. done.
      * rewrite !filter_cons. cbn [fst snd].
        rewrite decide_True by done. rewrite decide_False by done.
        destruct (IH k nErr) as [Ho He]. rewrite He. cbn [map firstn].
        by rewrite Ho.
Qed.

(** Readers that are given the time for every line handle all of them. *)
Lemma linesHandled_all (written : list (bool * string * Z)) :
  ∀ nOut nErr,
    (length (linesOf false written) ≤ nOut)%nat →
    (length (linesOf true written) ≤ nErr)%nat →
    linesHandled nOut nErr written = written.
Proof.
  unfold linesOf.
  induction written as [|[[b line] t] written IH]; intros nOut nErr; [done |].
  rewrite !(filter_cons _ (b, line, t)). cbn [linesHandled fst snd].
  destruct b.
  - rewrite decide_False by done. rewrite decide_True by done.
    cbn [map length]. intros Ho He. destruct nErr as [|k]; [lia |].
    f_equal. apply IH; lia.
  - rewrite decide_True by done. rewrite decide_False by done.
    cbn [map length]. intros Ho He. destruct nOut as [|k]; [lia |].
    f_equal. apply IH; lia.
Qed.

(** The composed message contains a captured stream without its surrounding
    white space, and every line of it that starts and ends with a plain
    byte. *)
Lemma formatCommandError_streams (err : CmdError) (cmdArgs : list string)
    (stdoutText stderrText : string) :
  Contains (formatCommandError err cmdArgs stdoutText stderrText)
    (TrimSpace stdoutText) = true ∧
  Contains (formatCommandError err cmdArgs stdoutText stderrText)
    (TrimSpace stderrText) = true.
Proof.
  split.
  - destruct (decide (TrimSpace stdoutText = "")) as [-> | Hne].
    + apply Contains_empty.
    + eapply formatCommandError_part.
      * apply (Contains_app_r ("Stdout:" +:+ String (byte 10) "")).
      * right. left. split; [done |]. by rewrite append_assoc.
  - destruct (decide (TrimSpace stderrText = "")) as [-> | Hne].
    + apply Contains_empty.
    + eapply formatCommandError_part.
      * apply (Contains_app_r ("Stderr:" +:+ String (byte 10) "")).
      * right. right. left. split; [done |]. by rewrite append_assoc.
Qed.

Lemma formatCommandError_line (err : CmdError) (cmdArgs : list string)
    (lines : list (bool * string * Z)) (isStderr : bool) (line : string)
    (t : Z) :
  (isStderr, line, t) ∈ lines → plainEnds line = true →
  Contains
    (formatCommandError err cmdArgs (capturedText false lines)
       (capturedText true lines)) line = true.
Proof.
  intros Hin Hplain.
  destruct (joinLines_elem _ _ (linesOf_elem _ _ _ _ Hin)) as (pre & post & Hj).
  pose proof (TrimSpace_keeps pre line post Hplain) as Hkeep.
  rewrite <- Hj, <- capturedText_joinLines in Hkeep.
  destruct (formatCommandError_streams err cmdArgs (capturedText false lines)
              (capturedText true lines)) as [Ho He].
  destruct isStderr;
    [exact (Contains_trans _ _ _ He Hkeep) | exact (Contains_trans _ _ _ Ho Hkeep)].
Qed.

Lemma progressLoop_frame (id : string) (lines : list (bool * string * Z)) :
  ∀ a,
    is_Some (tasks a !! id) →
    is_Some (tasks (progressLoop id lines a) !! id) ∧
    lastCommand (progressLoop id lines a) = lastCommand a.
Proof.
  unfold progressLoop.
  induction lines as [|l lines IH]; intros a Ha; [done |].
  cbn [fold_left].
  assert (is_Some (tasks (parseProgress l.2 id l.1.2 a) !! id) ∧
          lastCommand (parseProgress l.2 id l.1.2 a) = lastCommand a)
    as [Hs Hl].
  { unfold parseProgress.
    destruct (HasPrefix _ _); [| done].
    destruct (String.eqb _ _); [done |].
    split; [by apply updateTaskProgress_present |].
    unfold updateTaskProgress. destruct Ha as [task Ht]. rewrite Ht.
    by destruct (_ && _). }
  destruct (IH _ Hs) as [Hs' Hl']. split; [done | by rewrite Hl', Hl].
Qed.

(** A run whose engine invocation fails ends in [failTask] with the
    diagnostic composed from the command that was run and the lines that
    were read. *)
Lemma runTask_failure_message (E : Env) (obs : RunObservation) (id : string)
    (a : App) (task : Task) (err : CmdError) (outputDir : string) :
  tasks a !! id = Some task →
  taskOutputDir E (CreatedAt task) = Some outputDir →
  mkdirFails obs = false →
  cmdError obs = Some err →
  let args := downloadArgs E a (Resume task) outputDir (URL task) in
  ∃ task',
    tasks (runTask E obs id a) !! id = Some task' ∧
    Status task' = statusFailed ∧
    ErrorMessage task'
    = formatCommandError err (ytDlpCommandArgs a args)
        (capturedText false (outputLines obs))
        (capturedText true (outputLines obs)) ∧
    lastCommand (runTask E obs id a) = "yt-dlp " +:+ Join args " ".
Proof.
  intros Ht Hdir Hmk Herr args. unfold runTask, runTaskStart.
  rewrite Ht.
  set (a1 := set_tasks _ a).
  assert (∃ t1, tasks a1 !! id = Some t1 ∧ CreatedAt t1 = CreatedAt task)
    as (t1 & Ht1 & Hc1)
    by (subst a1; simpl; rewrite lookup_insert_eq; eauto).
  assert (ytDlpPath a1 = ytDlpPath a ∧ activeProfileID a1 = activeProfileID a)
    as [Hp1 Hq1] by done.
  assert (∃ a2 t2,
            match fetchMetadata E (engineInfo obs) (URL task) with
            | Some metadata => runTaskMetadata (tMetadata obs) id metadata a1
            | None => Some a1
            end = Some a2 ∧ tasks a2 !! id = Some t2 ∧
            CreatedAt t2 = CreatedAt task ∧
            ytDlpPath a2 = ytDlpPath a ∧
            activeProfileID a2 = activeProfileID a)
    as (a2 & t2 & -> & Ht2 & Hc2 & Hp2 & Hq2).
  { destruct (fetchMetadata _ _ _) as [md|]; [| by exists a1, t1].
    unfold runTaskMetadata. rewrite Ht1.
    eexists _, _. split; [done |]. simpl. rewrite lookup_insert_eq.
    split; [done |]. split; [| done].
    unfold overwriteIfPositive, applyTitle.
    repeat case_match; simpl; done. }
  rewrite Ht2.
  change (default zeroTime (CreatedAt <$> Some t2)) with (CreatedAt t2).
  rewrite Hc2, Hdir, Hmk. unfold runTaskStage.
  rewrite Ht2, Herr.
  set (a3 := set_tasks _ a2).
  assert (downloadArgs E a3 (Resume task) outputDir (URL task) = args) as ->.
  { subst args a3. unfold downloadArgs, getActiveProfile. simpl.
    by rewrite Hq2. }
  clearbody args.
  set (a4 := set_lastCommand _ a3).
  assert (is_Some (tasks a4 !! id)) as H4
    by (subst a4 a3; simpl; rewrite lookup_insert_eq; eauto).
  assert (ytDlpCommandArgs a4 args = ytDlpCommandArgs a args) as ->
    by (unfold ytDlpCommandArgs; subst a4 a3; simpl; by rewrite Hp2).
  destruct (progressLoop_frame id (outputLines obs) a4 H4) as [[t5 H5] Hl5].
  unfold failTask. rewrite H5. cbn [tasks set_tasks lastCommand].
  rewrite lookup_insert_eq.
  eexists. split; [done |]. split; [done |]. split; [done |].
  by rewrite Hl5.
Qed.

End Diagnostics.

(** C7.  The diagnostic of a failed run is composed from the lines the two
    readers handled, not from what the engine wrote.  For every run of a
    stored task whose engine invocation returns an error, the task ends
    [Failed] with the message [formatCommandError] composes from the error,
    the command that was run (the program followed by [downloadArgs]) and,
    for each stream, the lines read of it, each followed by a newline.  That
    message contains the command line, the exit code of an exit error, each
    captured stream without the white space around it, every line read that
    starts and ends with a plain byte, and the error text when both captured
    streams are blank.  [runCommandWithProgress] calls [cmd.Wait()] before
    the readers are done, so the lines read of a stream are a prefix of the
    lines written, all of them when the readers are given the time.  In the
    scenario the engine writes [403 Forbidden] to stderr and exits with
    status 1: when the stderr reader has handled the line, the message
    contains the command line and [403 Forbidden]; when the pipes are closed
    first, the task is [Failed] with a message that contains the command
    line and the error text, but not [403 Forbidden]. *)
Theorem C7_diagnostic_holds_the_lines_read :
  (∀ (E : Env) (obs : RunObservation) (id : string) (a : App) (task : Task)
     (err : CmdError) (outputDir : string),
      tasks a !! id = Some task →
      taskOutputDir E (CreatedAt task) = Some outputDir →
      mkdirFails obs = false →
      cmdError obs = Some err →
      let lines := outputLines obs in
      let args := downloadArgs E a (Resume task) outputDir (URL task) in
      let cmdArgs := ytDlpCommandArgs a args in
      let stdoutText := joinLines (linesOf false lines) in
      let stderrText := joinLines (linesOf true lines) in
      let message := formatCommandError err cmdArgs stdoutText stderrText in
      (∃ task',
          tasks (runTask E obs id a) !! id = Some task' ∧
          Status task' = statusFailed ∧ ErrorMessage task' = message) ∧
      lastCommand (runTask E obs id a) = "yt-dlp " +:+ Join args " " ∧
      Contains message (Join cmdArgs " ") = true ∧
      (∀ n text, err = ExitError n text →
                 Contains message ("exit code " +:+ Itoa n) = true) ∧
      Contains message (TrimSpace stdoutText) = true ∧
      Contains message (TrimSpace stderrText) = true ∧
      (∀ isStderr line t,
          (isStderr, line, t) ∈ lines → plainEnds line = true →
          Contains message line = true) ∧
      (TrimSpace stdoutText = "" → TrimSpace stderrText = "" →
       Contains message (errorText err) = true)) ∧
  (∀ nOut nErr written,
      linesOf false (linesHandled nOut nErr written)
        = firstn nOut (linesOf false written) ∧
      linesOf true (linesHandled nOut nErr written)
        = firstn nErr (linesOf true written) ∧
      ((length (linesOf false written) ≤ nOut)%nat →
       (length (linesOf true written) ≤ nErr)%nat →
       linesHandled nOut nErr written = written)) ∧
  (∃ task',
      tasks (runTask forbiddenEnv (forbiddenRun 1) "a" forbiddenApp) !! "a"
        = Some task' ∧
      Status task' = statusFailed ∧
      Contains (ErrorMessage task') (Join forbiddenCommand " ") = true ∧
      Contains (ErrorMessage task') "403 Forbidden" = true) ∧
  (∃ task',
      tasks (runTask forbiddenEnv (forbiddenRun 0) "a" forbiddenApp) !! "a"
        = Some task' ∧
      Status task' = statusFailed ∧
      ErrorMessage task'
        = formatCommandError (ExitError 1 "exit status 1") forbiddenCommand
            "" "" ∧
      Contains (ErrorMessage task') (Join forbiddenCommand " ") = true ∧
      Contains (ErrorMessage task') "exit status 1" = true ∧
      Contains (ErrorMessage task') "403 Forbidden" = false).
Proof.
  split; [| split; [| split]].
  - intros E obs id a task err outputDir Ht Hdir Hmk Herr lines args cmdArgs
      stdoutText stderrText message.
    destruct (runTask_failure_message E obs id a task err outputDir
                Ht Hdir Hmk Herr) as (task' & Hl & Hs & Hm & Hlast).
    assert (message
            = formatCommandError err cmdArgs (capturedText false lines)
                (capturedText true lines)) as Hmsg
      by (subst message stdoutText stderrText;
          by rewrite !capturedText_joinLines).
    destruct (formatCommandError_streams err cmdArgs stdoutText stderrText)
      as [Hout Herrs].
    split; [exists task'; by rewrite Hmsg |]. split; [done |]. split.
    { eapply formatCommandError_part; [apply Contains_app_r |]. by left. }
    split.
    { intros n text ->. eapply formatCommandError_part.
      - apply (Contains_intro "yt-dlp failed (" ("exit code " +:+ Itoa n) ")").
      - right. right. right. right. exists n, text. split; [done |].
        by rewrite !append_assoc. }
    split; [done |]. split; [done |]. split.
    { intros isStderr line t Hin Hplain. rewrite Hmsg.
      by apply (formatCommandError_line err cmdArgs lines isStderr line t). }
    intros Ho He. eapply formatCommandError_part.
    + apply (Contains_app_r "Error: ").
    + right. right. right. left. done.
  - intros nOut nErr written.
    destruct (linesOf_linesHandled written nOut nErr) as [Ho He].
    split; [done |]. split; [done |]. apply linesHandled_all.
  - eexists. split; [vm_compute; reflexivity |].
    split; [reflexivity |]. split; by vm_compute.
  - eexists. split; [vm_compute; reflexivity |].
    split; [reflexivity |]. split; [by vm_compute |].
    split; [by vm_compute |]. split; by vm_compute.
Qed.

(** ** Import with overwriteDownloaded *)

Section OverwriteImport.

Variable E : Env.

Lemma prepareRecord_fields (overwrite : bool) (t : Task) :
  let t' := prepareRecord E overwrite t in
  ID t' = ID t ∧
  MissingOutput t' = outputMissing E (OutputPath t') ∧
  (overwrite = true → Status t = statusSuccess →
   Status t' = statusQueued ∧ Progress t' = "" ∧ OutputPath t' = "" ∧
   ErrorMessage t' = "" ∧ MissingOutput t' = false) ∧
  (overwrite = false ∨ Status t ≠ statusSuccess →
   t' = refreshMissing E t).
Proof.
  unfold prepareRecord. cbv zeta.
  destruct overwrite;
    destruct (String.eqb_spec (Status t) statusSuccess) as [Hs | Hs];
    cbn [andb];
    (split; [done |]; split; [done |]; split;
     [intros Ho Hst; try done | intros [Ho | Hst]; try done]).
Qed.

Lemma prepareRecord_xRecord : prepareRecord E true xRecord = xQueued.
Proof. reflexivity. Qed.

End OverwriteImport.

(** C8, as stated, fails: merge import with overwriteDownloaded of
    [{"id":"x","status":"Success","outputPath":"/gone"}] into a store that
    holds a failed task [x] updated later than the incoming record.  The
    import succeeds, the stored task is still the failed one, and nothing is
    sent to the queue. *)
Lemma C8_merge_keeps_stored_task :
  ImportTasks xEnv xText "merge" true xApp = (Ok [xStored], xApp) ∧
  tasks xApp !! "x" = Some xStored ∧
  Status xStored = statusFailed ∧ ErrorMessage xStored = "boom" ∧
  queue (snd (ImportTasks xEnv xText "merge" true xApp)) = [].
Proof. repeat split; by vm_compute. Qed.

(** C8, amended.  For every import call with overwriteDownloaded set whose
    payload decodes to records with non-blank ids, merge and replace process
    the records as [prepareRecord] leaves them: every record whose status is
    [Success] is [Queued] with [progress], [outputPath] and [errorMessage]
    cleared, and [missingOutput] of every record is recomputed from the disk.
    The record [{"id":"x","status":"Success","outputPath":"/gone"}] is stored
    as a [Queued] task with empty [outputPath] and [errorMessage] and sent to
    the queue in replace mode, and in merge mode when the id [x] is not
    stored yet. *)
Theorem C8_overwrite_import_requeues :
  ∀ (E : Env) (text : string) (raw : list Task) (a : App),
    TrimSpace text ≠ "" →
    json_Unmarshal E text = Some raw →
    (∀ t, t ∈ raw → TrimSpace (ID t) ≠ "") →
    let prepared := map (prepareRecord E true) raw in
    ImportTasks E text "merge" true a
      = (Ok (fst (importMerge prepared a)), snd (importMerge prepared a)) ∧
    ImportTasks E text "replace" true a
      = (Ok (fst (importReplace prepared a)), snd (importReplace prepared a)) ∧
    (∀ t, t ∈ raw →
        let t' := prepareRecord E true t in
        ID t' = ID t ∧
        MissingOutput t' = outputMissing E (OutputPath t') ∧
        (Status t = statusSuccess →
         Status t' = statusQueued ∧ Progress t' = "" ∧ OutputPath t' = "" ∧
         ErrorMessage t' = "") ∧
        (Status t ≠ statusSuccess → t' = refreshMissing E t)) ∧
    (raw = [xRecord] →
     (tasks (snd (ImportTasks E text "replace" true a)) !! "x" = Some xQueued ∧
      queue (snd (ImportTasks E text "replace" true a)) = queue a ++ ["x"]) ∧
     (tasks a !! "x" = None →
      tasks (snd (ImportTasks E text "merge" true a)) !! "x" = Some xQueued ∧
      queue (snd (ImportTasks E text "merge" true a)) = queue a ++ ["x"])).
Proof.
  intros E text raw a Htext Hdec Hids prepared.
  pose proof (prepareImport_map E true raw Hids) as Hprep.
  pose proof (ImportTasks_merge E text true raw prepared a Htext Hdec Hprep)
    as Hmerge.
  pose proof (ImportTasks_replace E text true raw prepared a Htext Hdec Hprep)
    as Hreplace.
  split; [done |]. split; [done |]. split.
  - intros t Ht t'.
    destruct (prepareRecord_fields E true t) as (H1 & H2 & H3 & H4).
    split; [done |]. split; [done |]. split.
    + intros Hs. destruct (H3 eq_refl Hs) as (? & ? & ? & ? & ?). done.
    + intros Hs. apply H4. by right.
  - intros Hraw. rewrite Hmerge, Hreplace. subst prepared. rewrite Hraw.
    cbn [map]. rewrite prepareRecord_xRecord. split.
    + unfold importReplace. cbn. by rewrite lookup_insert_eq.
    + intros Hnew. unfold importMerge. cbn. rewrite Hnew. cbn.
      by rewrite lookup_insert_eq.
Qed.

(** The amended C8 at the import of the record into the empty store. *)
Lemma C8_overwrite_import_requeues_witness :
  tasks (snd (ImportTasks xEnv xText "replace" true NewApp)) !! "x"
    = Some xQueued ∧
  queue (snd (ImportTasks xEnv xText "replace" true NewApp)) = ["x"] ∧
  tasks (snd (ImportTasks xEnv xText "merge" true NewApp)) !! "x"
    = Some xQueued ∧
  queue (snd (ImportTasks xEnv xText "merge" true NewApp)) = ["x"].
Proof.
  destruct (C8_overwrite_import_requeues xEnv xText [xRecord] NewApp)
    as (_ & _ & _ & H).
  - vm_compute. discriminate.
  - reflexivity.
  - intros t Ht%list_elem_of_singleton. subst t. vm_compute. discriminate.
  - destruct (H eq_refl) as [[H1 H2] H3]. destruct (H3 eq_refl) as [H4 H5].
    split; [exact H1 |]. split; [exact H2 |]. split; [exact H4 | exact H5].
Defined.

(** ** Format selection *)

Section FormatSelection.

Variable E : Env.

Lemma formatCandidate_eq (format : ytdlpFormat) :
  formatCandidate E format = (formatInfoOf E format, formatScore E format).
Proof. unfold formatInfoOf, formatScore. by destruct (formatCandidate E format). Qed.

(** The score of a variant is its filesize when that is not zero, and its
    wrapped width×height product otherwise. *)
Lemma formatScore_eq (format : ytdlpFormat) :
  bestFilesize (formatInfoOf E format)
    = pickFilesize (fmtFilesize format) (fmtFilesizeApprox format) ∧
  formatScore E format
    = if bestFilesize (formatInfoOf E format) =? 0
      then formatArea (formatInfoOf E format)
      else bestFilesize (formatInfoOf E format).
Proof.
  unfold formatInfoOf, formatScore, formatCandidate, formatArea.
  destruct (_ && _).
  - destruct (parseResolution E _) as [w h]. simpl. done.
  - simpl. done.
Qed.

Lemma pickStep_eq (best0 : formatInfo) (score0 : Z) (f : ytdlpFormat) :
  pickStep E (best0, score0) f
  = if score0 <? formatScore E f
    then (formatInfoOf E f, formatScore E f) else (best0, score0).
Proof. unfold pickStep. by rewrite formatCandidate_eq. Qed.

(** The loop of [pickBestFormat] from any starting pair: either no variant
    scores above [score0] and the pair is kept, or the result is the first
    variant with the largest score. *)
Lemma pickFold_spec (formats : list ytdlpFormat) :
  ∀ best0 score0,
    let st := fold_left (pickStep E) formats (best0, score0) in
    (st = (best0, score0) ∧
     ∀ f, f ∈ formats → formatScore E f ≤ score0) ∨
    (score0 < snd st ∧
     ∃ i f,
       formats !! i = Some f ∧ formatCandidate E f = st ∧
       (∀ f', f' ∈ formats → formatScore E f' ≤ snd st) ∧
       (∀ j f', (j < i)%nat → formats !! j = Some f' →
                formatScore E f' < snd st)).
Proof.
  induction formats as [|f formats IH]; intros best0 score0.
  - left. split; [done |]. by intros f ?%elem_of_nil.
  - cbn [fold_left]. rewrite pickStep_eq. destruct (Z.ltb_spec score0 (formatScore E f)) as [Hlt | Hge].
    + right.
      destruct (IH (formatInfoOf E f) (formatScore E f))
        as [[Heq Hle] | (Hgt & i & f2 & Hi & Hc & Hmax & Hfirst)].
      * cbv zeta in *. rewrite Heq. cbn [snd]. split; [done |].
        exists O, f. split; [done |]. split; [apply formatCandidate_eq |].
        split.
        -- intros f' [-> | Hin]%elem_of_cons; [lia | by apply Hle].
        -- intros j f' Hj. lia.
      * cbv zeta in *. split; [lia |]. exists (S i), f2.
        split; [done |]. split; [done |]. split.
        -- intros f' [-> | Hin]%elem_of_cons; [lia | by apply Hmax].
        -- intros [|j] f' Hj Hl; simpl in Hl.
           ++ injection Hl as <-. lia.
           ++ apply (Hfirst j); [lia | done].
    + destruct (IH best0 score0)
        as [[Heq Hle] | (Hgt & i & f2 & Hi & Hc & Hmax & Hfirst)].
      * left. split; [done |].
        intros f' [-> | Hin]%elem_of_cons; [lia | by apply Hle].
      * right. cbv zeta in *. split; [done |]. exists (S i), f2.
        split; [done |]. split; [done |]. split.
        -- intros f' [-> | Hin]%elem_of_cons; [lia | by apply Hmax].
        -- intros [|j] f' Hj Hl; simpl in Hl.
           ++ injection Hl as <-. lia.
           ++ apply (Hfirst j); [lia | done].
Qed.

End FormatSelection.

(** C9, as stated, fails.  Of a 10x10 variant reporting 1000 bytes and a
    1920x1080 variant reporting no size, the program picks the second
    (its product 2073600 is compared with the 1000 bytes of the first), so
    the resolved metadata is 1920x1080 with no size, although a variant
    reports a filesize and the first has the largest one. *)
Lemma C9_unsized_variant_beats_sized :
  pickBestFormat (exampleEnv noFiles [] "" []) [smallSized; largeUnsized]
    = mkFormatInfo "" 1920 1080 0 ∧
  pickBestClaimed (exampleEnv noFiles [] "" []) [smallSized; largeUnsized]
    = mkFormatInfo "" 10 10 1000 ∧
  (Width <$> fetchMetadata (exampleEnv noFiles [] "" []) (Some mixedInfo)
               "https://example.com/v") = Some 1920 ∧
  (Filesize <$> fetchMetadata (exampleEnv noFiles [] "" []) (Some mixedInfo)
                  "https://example.com/v") = Some 0.
Proof. repeat split; by vm_compute. Qed.

(** C9, amended.  Every variant gets a score: its filesize when it reports
    a non-zero one, and its (64-bit) width×height product otherwise.
    [pickBestFormat] returns the first variant with the largest score when
    that score is positive, and the zero [formatInfo] when no score is.  So
    it is the variant with the largest filesize when every variant reports
    one, and the one with the largest product when none does.  When the
    engine output has no top-level width, height or resolution,
    [fetchMetadata] takes width and height from that variant. *)
Theorem C9_best_format_by_score :
  ∀ (E : Env) (formats : list ytdlpFormat),
    let best := pickBestFormat E formats in
    (∀ f,
        bestFilesize (formatInfoOf E f)
          = pickFilesize (fmtFilesize f) (fmtFilesizeApprox f) ∧
        formatScore E f
          = if bestFilesize (formatInfoOf E f) =? 0
            then formatArea (formatInfoOf E f)
            else bestFilesize (formatInfoOf E f)) ∧
    ((best = zeroFormatInfo ∧ ∀ f, f ∈ formats → formatScore E f ≤ 0) ∨
     (∃ i f,
         formats !! i = Some f ∧ best = formatInfoOf E f ∧
         0 < formatScore E f ∧
         (∀ f', f' ∈ formats → formatScore E f' ≤ formatScore E f) ∧
         (∀ j f', (j < i)%nat → formats !! j = Some f' →
                  formatScore E f' < formatScore E f))) ∧
    ((∀ f, f ∈ formats → bestFilesize (formatInfoOf E f) ≠ 0) →
     ∀ f, f ∈ formats →
          bestFilesize (formatInfoOf E f) ≤ bestFilesize best) ∧
    ((∀ f, f ∈ formats → bestFilesize (formatInfoOf E f) = 0) →
     ∀ f, f ∈ formats → formatArea (formatInfoOf E f) ≤ formatArea best) ∧
    (∀ info url md,
        mdFormats info = formats →
        fetchMetadata E (Some info) url = Some md →
        floatToInt (mdWidth info) = 0 → floatToInt (mdHeight info) = 0 →
        mdResolution info = "" →
        Width md = bestWidth best ∧ Height md = bestHeight best).
Proof.
  intros E formats best.
  assert ((best = zeroFormatInfo ∧ ∀ f, f ∈ formats → formatScore E f ≤ 0) ∨
          (∃ i f,
              formats !! i = Some f ∧ best = formatInfoOf E f ∧
              0 < formatScore E f ∧
              (∀ f', f' ∈ formats → formatScore E f' ≤ formatScore E f) ∧
              (∀ j f', (j < i)%nat → formats !! j = Some f' →
                       formatScore E f' < formatScore E f))) as Hsel.
  { subst best. unfold pickBestFormat.
    destruct (pickFold_spec E formats zeroFormatInfo 0)
      as [[Heq Hle] | (Hgt & i & f & Hi & Hc & Hmax & Hfirst)];
      cbv zeta in *.
    - left. by rewrite Heq.
    - right. exists i, f. rewrite <- Hc, formatCandidate_eq in *.
      cbn [fst snd] in *. done. }
  split; [intros f; apply formatScore_eq |]. split; [exact Hsel |].
  split; [| split].
  - intros Hall f Hf.
    assert (∀ g, g ∈ formats →
                 formatScore E g = bestFilesize (formatInfoOf E g)) as Hsc.
    { intros g Hg. destruct (formatScore_eq E g) as [_ ->].
      destruct (Z.eqb_spec (bestFilesize (formatInfoOf E g)) 0) as [H0 | _];
        [by apply Hall in H0 | done]. }
    destruct Hsel as [[-> Hle] | (i & f0 & Hi & -> & Hpos & Hmax & _)].
    + rewrite <- Hsc by done. simpl. by apply Hle.
    + rewrite <- !Hsc; [by apply Hmax | by eapply list_elem_of_lookup_2 | done].
  - intros Hnone f Hf.
    assert (∀ g, g ∈ formats →
                 formatScore E g = formatArea (formatInfoOf E g)) as Hsc.
    { intros g Hg. destruct (formatScore_eq E g) as [_ ->].
      by rewrite (Hnone g Hg). }
    destruct Hsel as [[-> Hle] | (i & f0 & Hi & -> & Hpos & Hmax & _)].
    + rewrite <- Hsc by done. change (formatArea zeroFormatInfo) with 0.
      by apply Hle.
    + rewrite <- !Hsc; [by apply Hmax | by eapply list_elem_of_lookup_2 | done].
  - intros info url md Hf Hmd Hw Hh Hres. unfold fetchMetadata in Hmd.
    destruct (String.eqb (TrimSpace url) ""); [done |].
    rewrite Hw, Hh, Hres, Hf in Hmd. cbn in Hmd. fold best in Hmd.
    injection Hmd as <-. done.
Qed.

(** ** Worker sections on a missing id *)

(** Case analysis on a worker section, down to the lookup of its id. *)
Ltac section_cases sec :=
  destruct sec as [now | now md | now stage | cmd | now progress
                  | env now path | now msg | now [md|]]; simpl;
  unfold runTaskStart, runTaskMetadata, runTaskStage, updateTaskProgress,
    runTaskSuccess, failTask, prefetchTaskMetadata.

Section WorkerSections.

Lemma workerSection_absent (id : string) (a : App) (sec : WorkerSection) :
  tasks a !! id = None →
  workerSection id a sec
  = match sec with
    | SecCommand command => set_lastCommand command a
    | _ => a
    end.
Proof.
  intros Hid.
  section_cases sec;
    by rewrite ?Hid.
Qed.

Lemma workerSections_absent (id : string) (secs : list WorkerSection) :
  ∀ a,
    tasks a !! id = None →
    tasks (workerSections id secs a) = tasks a ∧
    order (workerSections id secs a) = order a ∧
    queue (workerSections id secs a) = queue a.
Proof.
  unfold workerSections.
  induction secs as [|sec secs IH]; intros a Hid; [done |].
  cbn [fold_left]. rewrite (workerSection_absent id a sec Hid).
  destruct sec; try (by apply IH).
  destruct (IH (set_lastCommand command a) Hid) as (-> & -> & ->). done.
Qed.

(** No section changes [order], [queue], or the record of another id. *)
Lemma workerSection_frame (id : string) (a : App) (sec : WorkerSection) :
  order (workerSection id a sec) = order a ∧
  queue (workerSection id a sec) = queue a ∧
  ∀ other, other ≠ id →
           tasks (workerSection id a sec) !! other = tasks a !! other.
Proof.
  section_cases sec;
    try done;
    destruct (tasks a !! id) as [task|] eqn:Hid; try done;
    try (destruct (_ && _); [done |]);
    simpl; (split; [done |]; split; [done |]);
    intros other Hne; by rewrite lookup_insert_ne.
Qed.

Lemma workerSections_app (id : string) (secs1 secs2 : list WorkerSection)
    (a : App) :
  workerSections id (secs1 ++ secs2) a
  = workerSections id secs2 (workerSections id secs1 a).
Proof. apply fold_left_app. Qed.

Lemma progressLoop_sections (id : string) (lines : list (bool * string * Z)) :
  ∀ a, ∃ secs, progressLoop id lines a = workerSections id secs a.
Proof.
  unfold progressLoop, workerSections.
  induction lines as [|l lines IH]; intros a; [by exists [] |].
  cbn [fold_left]. unfold parseProgress at 2.
  destruct (HasPrefix _ _); [| apply IH].
  destruct (String.eqb _ _); [apply IH |].
  destruct (IH (updateTaskProgress (snd l) id
                  (TrimSpace (TrimPrefix (snd (fst l)) "progress:")) a))
    as [secs Hsecs].
  exists (SecProgress (snd l)
            (TrimSpace (TrimPrefix (snd (fst l)) "progress:")) :: secs).
  done.
Qed.

(** Every change [runTask] makes to the state is made by a worker section. *)
Lemma runTask_sections (E : Env) (obs : RunObservation) (id : string)
    (a : App) :
  ∃ secs, runTask E obs id a = workerSections id secs a.
Proof.
  unfold runTask.
  destruct (runTaskStart (tStart obs) id a) as [[[resume url] a1]|] eqn:H1;
    [| by exists []].
  assert (a1 = workerSections id [SecStart (tStart obs)] a) as Ha1
    by (unfold workerSections; simpl; by rewrite H1).
  assert (∃ secs2 a2,
    match fetchMetadata E (engineInfo obs) url with
    | Some metadata => runTaskMetadata (tMetadata obs) id metadata a1
    | None => Some a1
    end = a2 ∧ default a1 a2 = workerSections id secs2 a) as (secs2 & oa2 & -> & Ha2).
  { destruct (fetchMetadata E (engineInfo obs) url) as [md|].
    - exists [SecStart (tStart obs); SecMetadata (tMetadata obs) md].
      eexists. split; [done |]. unfold workerSections. simpl. by rewrite H1.
    - exists [SecStart (tStart obs)], (Some a1). done. }
  destruct oa2 as [a2|]; simpl in Ha2; [| by exists secs2].
  assert (∀ now msg, ∃ secs,
    failTask now id msg a2 = workerSections id secs a) as Hfail2.
  { intros now msg. exists (secs2 ++ [SecFail now msg]).
    by rewrite workerSections_app, <- Ha2. }
  destruct (taskOutputDir E _) as [outputDir|]; [| apply Hfail2].
  destruct (mkdirFails obs); [apply Hfail2 |].
  destruct (runTaskStage (tDownload obs) id "Download" a2) as [a3|] eqn:H3;
    [| by exists secs2].
  set (args := downloadArgs E a3 resume outputDir url).
  set (a4 := set_lastCommand _ a3).
  destruct (progressLoop_sections id (outputLines obs) a4) as [secsP HP].
  set (secs5 := secs2 ++ [SecStage (tDownload obs) "Download";
                          SecCommand ("yt-dlp " +:+ Join args " ")] ++ secsP).
  assert (progressLoop id (outputLines obs) a4 = workerSections id secs5 a)
    as Ha5.
  { subst secs5. rewrite !workerSections_app, <- Ha2, HP. f_equal.
    unfold workerSections. simpl. by rewrite H3. }
  destruct (cmdError obs) as [err|].
  { eexists (secs5 ++ [SecFail (tDone obs) _]).
    rewrite workerSections_app, <- Ha5. done. }
  destruct (runTaskStage (tFinalize obs) id "Finalize" _) as [a6|] eqn:H6;
    [| by exists secs5].
  match goal with
  | |- context [runTaskSuccess ?env ?now id ?path a6] =>
      exists (secs5 ++ [SecStage (tFinalize obs) "Finalize";
                        SecSuccess env now path]);
      rewrite workerSections_app, <- Ha5; unfold workerSections; simpl;
      rewrite H6; simpl; by destruct (runTaskSuccess env now id path a6)
  end.
Qed.

End WorkerSections.

(** C10.  A worker section for an id that is not in the store changes
    nothing (the section that records the last command line, which is not
    keyed by the id, changes only that field), and so does any sequence of
    them and a whole [runTask] or prefetch; every change [runTask] makes is
    such a section.  Hence, once [DeleteTask] has removed a task, the
    sections that a run or prefetch in flight still executes leave it out of
    the map and out of [order]; and no section changes [order], the queue or
    another task. *)
Theorem C10_worker_mutations_skip_missing_id :
  ∀ (E : Env) (id : string) (a : App),
    tasks a !! id = None →
    (∀ sec,
        workerSection id a sec
        = match sec with
          | SecCommand command => set_lastCommand command a
          | _ => a
          end) ∧
    (∀ now message, failTask now id message a = a) ∧
    (∀ now progress, updateTaskProgress now id progress a = a) ∧
    (∀ now metadata, prefetchTaskMetadata now id metadata a = a) ∧
    (∀ obs, runTask E obs id a = a) ∧
    (∀ secs,
        tasks (workerSections id secs a) = tasks a ∧
        order (workerSections id secs a) = order a ∧
        queue (workerSections id secs a) = queue a) ∧
    (∀ obs a0, ∃ secs, runTask E obs id a0 = workerSections id secs a0) ∧
    (∀ a0 before after,
        fst (DeleteTask E id (workerSections id before a0)) = Ok tt →
        let deleted := snd (DeleteTask E id (workerSections id before a0)) in
        tasks (workerSections id after deleted) !! id = None ∧
        (id ∉ order (workerSections id after deleted)) ∧
        tasks (workerSections id after deleted) = tasks deleted ∧
        order (workerSections id after deleted) = order deleted).
Proof.
  intros E id a Hid.
  split; [intros sec; by apply workerSection_absent |].
  split; [intros now msg; apply (workerSection_absent id a (SecFail now msg) Hid) |].
  split; [intros now p; apply (workerSection_absent id a (SecProgress now p) Hid) |].
  split; [intros now md; apply (workerSection_absent id a (SecPrefetch now md) Hid) |].
  split; [intros obs; unfold runTask, runTaskStart; by rewrite Hid |].
  split; [intros secs; by apply workerSections_absent |].
  split; [intros obs a0; apply runTask_sections |].
  intros a0 before after Hdel deleted.
  destruct (DeleteTask_removes E id _ Hdel) as [Hgone Hord].
  destruct (workerSections_absent id after deleted Hgone) as (Ht & Ho & _).
  rewrite Ht, Ho. done.
Qed.

(** C10 at the empty store, and at a run of the task [a] of [runningApp]
    that is deleted after its first section. *)
Lemma C10_worker_mutations_skip_missing_id_witness :
  failTask 0 "a" "boom" NewApp = NewApp ∧
  runTask (exampleEnv noFiles [] "" [])
    (mkRun 0 None 0 false 0 [] None 0 0 (exampleEnv noFiles [] "" []) 0)
    "a" NewApp = NewApp ∧
  tasks
    (workerSections "a"
       [SecProgress (12 * minute) "50%|1MiB/s|00:05";
        SecFail (13 * minute) "boom"]
       (snd (DeleteTask (exampleEnv noFiles [] "" []) "a"
               (workerSections "a" [SecStart (12 * minute)] runningApp))))
    !! "a" = None.
Proof.
  destruct (C10_worker_mutations_skip_missing_id
              (exampleEnv noFiles [] "" []) "a" NewApp)
    as (_ & H2 & _ & _ & H5 & _ & _ & H8).
  - reflexivity.
  - split; [apply H2 |]. split; [apply H5 |].
    destruct (H8 runningApp [SecStart (12 * minute)]
                [SecProgress (12 * minute) "50%|1MiB/s|00:05";
                 SecFail (13 * minute) "boom"]) as [H _].
    + reflexivity.
    + exact H.
Defined.

(** ** The store invariant under the remaining operations *)

Section StoreInvariantMore.

Variable E : Env.

Lemma workerSection_consistent (id : string) (a : App) (sec : WorkerSection) :
  storeConsistent a → storeConsistent (workerSection id a sec).
Proof.
  intros Hc. destruct (tasks a !! id) as [task|] eqn:Hid.
  - pose proof (proj2 (proj2 Hc) _ _ Hid) as Hkey.
    section_cases sec;
      rewrite ?Hid; try done;
      try (destruct (_ && _); [done |]);
      simpl; eapply storeConsistent_update; try done.
    + unfold applyTitle, overwriteIfPositive.
      repeat match goal with |- context [if ?b then _ else _] => destruct b end;
        done.
    + repeat match goal with
             | |- context [if ?b then _ else _] => destruct b
             | |- context [match ?o with Some _ => _ | None => _ end] =>
                 destruct o
             end; done.
    + unfold applyTitle. by destruct (_ && _).
  - rewrite (workerSection_absent id a sec Hid). by destruct sec.
Qed.

Lemma ResumeTask_consistent (now : Z) (id : string) (a : App) :
  storeConsistent a → storeConsistent (snd (ResumeTask now id a)).
Proof.
  intros Hc. unfold ResumeTask.
  destruct (tasks a !! id) as [task|] eqn:Hid; [| done].
  destruct (activelyRunning now task); [done |].
  pose proof (proj2 (proj2 Hc) _ _ Hid) as Hkey.
  by apply (storeConsistent_update a id task).
Qed.

Lemma ForceResumeTask_consistent (now : Z) (id : string) (a : App) :
  storeConsistent a → storeConsistent (snd (ForceResumeTask now id a)).
Proof.
  intros Hc. unfold ForceResumeTask.
  destruct (tasks a !! id) as [task|] eqn:Hid; [| done].
  pose proof (proj2 (proj2 Hc) _ _ Hid) as Hkey.
  by apply (storeConsistent_update a id task).
Qed.

Lemma fold_loadStep_consistent (items : list Task) :
  ∀ a,
    storeConsistent a →
    NoDup (map ID items) →
    (∀ t, t ∈ items → tasks a !! ID t = None) →
    storeConsistent (fold_left loadStep items a).
Proof.
  induction items as [|item items IH]; intros a Hc Hnd Hnew; [done |].
  cbn [fold_left]. apply NoDup_cons in Hnd as [Hitem Hnd].
  apply IH; [| done |].
  - apply storeConsistent_append; [done |]. apply Hnew, elem_of_cons. by left.
  - intros t Ht. unfold loadStep. simpl. rewrite lookup_insert_ne.
    + apply Hnew, elem_of_cons. by right.
    + intros Heq. apply Hitem. rewrite Heq. by apply list_elem_of_fmap_2.
Qed.

(** Loading a tasks file whose ids are pairwise distinct into the empty
    store. *)
Lemma loadTasks_consistent (file : option string) (items : list Task) :
  (∀ data, file = Some data → json_Unmarshal E data = Some items) →
  NoDup (map ID items) →
  storeConsistent (loadTasks E file NewApp).
Proof.
  intros Hdec Hnd. unfold loadTasks.
  destruct file as [data|]; [| apply storeConsistent_NewApp].
  rewrite (Hdec data eq_refl).
  apply fold_loadStep_consistent; [apply storeConsistent_NewApp | done |].
  intros t _. apply lookup_empty.
Qed.

End StoreInvariantMore.

(** C2.  Replace import of the payload [[{"id":"a"},{"id":"a"}]] into the
    empty store: the import succeeds, the map holds one task, and [order] is
    [a; a], so [order] has a duplicate and [ListTasks] returns the task
    twice.  The empty store satisfied the invariant; the resulting store
    does not.  Merge import of the same payload leaves [order] as [a] and
    keeps the invariant. *)
Theorem C2_replace_import_repeats_id :
  let a' := snd (ImportTasks twiceA_env twiceA_text "replace" false NewApp) in
  let m' := snd (ImportTasks twiceA_env twiceA_text "merge" false NewApp) in
  fst (ImportTasks twiceA_env twiceA_text "replace" false NewApp)
    = Ok [recordA; recordA] ∧
  order a' = ["a"; "a"] ∧
  tasks a' !! "a" = Some recordA ∧
  ListTasks a' = [recordA; recordA] ∧
  storeConsistent NewApp ∧
  ¬ NoDup (order a') ∧
  ¬ storeConsistent a' ∧
  order m' = ["a"] ∧
  storeConsistent m'.
Proof.
  assert (order (snd (ImportTasks twiceA_env twiceA_text "replace" false NewApp))
          = ["a"; "a"]) as Hord by (by vm_compute).
  assert (¬ NoDup ["a"; "a"]) as Hdup.
  { intros [Hn _]%NoDup_cons. apply Hn, elem_of_cons. by left. }
  cbv zeta. rewrite Hord.
  split; [by vm_compute |]. split; [done |]. split; [by vm_compute |].
  split; [by vm_compute |]. split; [apply storeConsistent_NewApp |].
  split; [done |]. split.
  { intros [Hnd _]. rewrite Hord in Hnd. done. }
  split; [by vm_compute |].
  rewrite (ImportTasks_merge twiceA_env twiceA_text false [recordA; recordA]
             [recordA; recordA] NewApp); [| by vm_compute | done | done].
  apply importMerge_consistent, storeConsistent_NewApp.
Qed.

(** ** Deletion *)

Section Deletion.

Variable E : Env.

Lemma snapshotOf_delete (m : gmap string Task) (id : string)
    (ids : list string) :
  (∀ i t, m !! i = Some t → ID t = i) →
  snapshotOf (delete id m) (filter (λ existing, existing ≠ id) ids)
  = filter (λ t, ID t ≠ id) (snapshotOf m ids).
Proof.
  intros Hkey. induction ids as [|i ids IH]; [done |].
  rewrite filter_cons. destruct (decide (i ≠ id)) as [Hne | Heq].
  - cbn [snapshotOf]. rewrite lookup_delete_ne by done.
    destruct (m !! i) as [t|] eqn:Hi; [| done].
    rewrite filter_cons, decide_True; [by rewrite IH |].
    by rewrite (Hkey _ _ Hi).
  - apply dec_stable in Heq. subst i. cbn [snapshotOf].
    destruct (m !! id) as [t|] eqn:Hi; [| done].
    rewrite filter_cons, decide_False; [done |].
    rewrite (Hkey _ _ Hi). by intros ?.
Qed.

(** [DeleteTask]: an unknown id and a failed move to the trash are errors
    that leave the state as it is; a successful call removes exactly the
    record of [id], keeps the other ids of [order] in their order, and leaves
    the queue alone, so the listed tasks are the former ones without that
    task. *)
Theorem X1_DeleteTask_errors_and_effect :
  ∀ (id : string) (a : App),
    (tasks a !! id = None → DeleteTask E id a = (Err "task not found", a)) ∧
    (∀ task info,
        tasks a !! id = Some task → OutputPath task ≠ "" →
        os_Stat E (OutputPath task) = Some info → fiIsDir info = false →
        trashSucceeds E (OutputPath task) = false →
        DeleteTask E id a = (Err "failed to move file to trash", a)) ∧
    (∀ e, fst (DeleteTask E id a) = Err e → snd (DeleteTask E id a) = a) ∧
    (fst (DeleteTask E id a) = Ok tt →
     is_Some (tasks a !! id) ∧
     tasks (snd (DeleteTask E id a)) = delete id (tasks a) ∧
     order (snd (DeleteTask E id a))
       = filter (λ existing, existing ≠ id) (order a) ∧
     queue (snd (DeleteTask E id a)) = queue a ∧
     ((∀ i t, tasks a !! i = Some t → ID t = i) →
      ListTasks (snd (DeleteTask E id a))
      = filter (λ t, ID t ≠ id) (ListTasks a))).
Proof.
  intros id a. unfold DeleteTask. split; [by intros -> |]. split.
  { intros task info -> Hp Hs Hd Ht. rewrite Hs, Hd, Ht.
    by destruct (String.eqb_spec (OutputPath task) ""). }
  destruct (tasks a !! id) as [task|]; [| split; [done | done]].
  destruct (_ && _); [split; [done | done] |]. split; [done |].
  intros _. split; [eauto |]. split; [done |]. split; [done |].
  split; [done |]. intros Hkey. by apply snapshotOf_delete.
Qed.

End Deletion.

(** ** Import: failures, idempotence, replacement *)

Section ImportMore.

Variable E : Env.

Lemma prepareImport_error (overwrite : bool) (l : list Task) (e : string) :
  prepareImport E overwrite l = Err e →
  e = "task id is required" ∧ ∃ t, t ∈ l ∧ TrimSpace (ID t) = "".
Proof.
  induction l as [|t l IH]; [done |]. simpl.
  destruct (String.eqb_spec (TrimSpace (ID t)) "") as [Hblank | _].
  - intros [= <-]. split; [done |]. exists t.
    split; [apply elem_of_cons; by left | done].
  - destruct (prepareImport E overwrite l) as [p|e'] eqn:Hp; [done |].
    intros [= <-]. destruct (IH eq_refl) as [He (t' & Ht' & Hb)].
    split; [done |]. exists t'. split; [apply elem_of_cons; by right | done].
Qed.

Lemma prepareImport_ids (overwrite : bool) (l p : list Task) :
  prepareImport E overwrite l = Ok p →
  p = map (prepareRecord E overwrite) l ∧ map ID p = map ID l ∧
  ∀ t, t ∈ l → TrimSpace (ID t) ≠ "".
Proof.
  revert p. induction l as [|t l IH]; intros p.
  - intros [= <-]. split; [done |]. split; [done |]. by intros t ?%elem_of_nil.
  - simpl. destruct (String.eqb_spec (TrimSpace (ID t)) "") as [| Hnb]; [done |].
    destruct (prepareImport E overwrite l) as [p'|] eqn:Hp; [| done].
    intros [= <-]. destruct (IH p' eq_refl) as (-> & Hid & Hnon).
    split; [done |]. split.
    + cbn [map]. f_equal; [| done].
      by destruct (prepareRecord_fields E overwrite t) as [-> _].
    + intros t' [-> | Hin]%elem_of_cons; [done | by apply Hnon].
Qed.

(** [ImportTasks] fails exactly on a blank payload, an undecodable payload, a
    record with a blank id, or a mode other than [merge] and [replace]; a
    failed import leaves the whole state unchanged. *)
Theorem X2_ImportTasks_fails_atomically :
  ∀ (text mode : string) (overwrite : bool) (a : App),
    (∀ e, fst (ImportTasks E text mode overwrite a) = Err e →
          snd (ImportTasks E text mode overwrite a) = a ∧
          (e = "empty import payload" ∨ e = "invalid JSON" ∨
           e = "task id is required" ∨ e = "invalid import mode")) ∧
    ((∃ out, fst (ImportTasks E text mode overwrite a) = Ok out) ↔
     TrimSpace text ≠ "" ∧
     (∃ raw, json_Unmarshal E text = Some raw ∧
             ∀ t, t ∈ raw → TrimSpace (ID t) ≠ "") ∧
     (mode = "merge" ∨ mode = "replace")).
Proof.
  intros text mode overwrite a. unfold ImportTasks.
  destruct (String.eqb_spec (TrimSpace text) "") as [Hblank | Htext].
  { split; [intros e [= <-]; auto |]. split; [by intros [? ?] | by intros [? _]]. }
  destruct (json_Unmarshal E text) as [raw|] eqn:Hdec.
  2: { split; [intros e [= <-]; auto |].
       split; [by intros [? ?] | by intros (_ & (? & ? & _) & _)]. }
  destruct (prepareImport E overwrite raw) as [prepared|e0] eqn:Hprep.
  2: { destruct (prepareImport_error _ _ _ Hprep) as [-> (t & Ht & Hb)].
       split; [intros e [= <-]; auto |]. split; [by intros [? ?] |].
       intros (_ & (raw' & [= <-] & Hnon) & _). by destruct (Hnon t Ht). }
  destruct (prepareImport_ids _ _ _ Hprep) as (_ & _ & Hnon).
  destruct (String.eqb_spec mode "merge") as [-> | Hm].
  { destruct (importMerge prepared a) as [out a1]. split; [done |].
    split; [| eauto]. intros _. split; [done |]. split; [eauto | by left]. }
  destruct (String.eqb_spec mode "replace") as [-> | Hr].
  { destruct (importReplace prepared a) as [out a1]. split; [done |].
    split; [| eauto]. intros _. split; [done |]. split; [eauto | by right]. }
  split; [intros e [= <-]; auto 6 |]. split; [by intros [? ?] |].
  by intros (_ & _ & [? | ?]).
Qed.

(** Merge steps never lower [updatedAt] of a stored task and never change its
    [createdAt]. *)
Lemma mergeStep_monotone (a : App) (enq : list string) (item : Task)
    (id : string) (T : Task) :
  tasks a !! id = Some T →
  ∃ T', tasks (fst (mergeStep (a, enq) item)) !! id = Some T' ∧
        UpdatedAt T ≤ UpdatedAt T' ∧ CreatedAt T' = CreatedAt T.
Proof.
  intros HT. unfold mergeStep.
  destruct (decide (ID item = id)) as [Heq | Hne].
  - rewrite Heq, HT. destruct (Z.ltb_spec (UpdatedAt T) (UpdatedAt item)).
    + simpl. rewrite lookup_insert_eq. eexists. split; [done |]. simpl.
      split; [lia | done].
    + exists T. split; [done |]. split; [lia | done].
  - destruct (tasks a !! ID item) as [existing|].
    + destruct (UpdatedAt existing <? UpdatedAt item); simpl;
        rewrite ?lookup_insert_ne by done; exists T;
        (split; [done |]; split; [lia | done]).
    + simpl. rewrite lookup_insert_ne by done. exists T.
      split; [done |]. split; [lia | done].
Qed.

Lemma fold_mergeStep_monotone (imported : list Task) (id : string) :
  ∀ a enq T,
    tasks a !! id = Some T →
    ∃ T', tasks (fst (fold_left mergeStep imported (a, enq))) !! id = Some T' ∧
          UpdatedAt T ≤ UpdatedAt T' ∧ CreatedAt T' = CreatedAt T.
Proof.
  induction imported as [|item imported IH]; intros a enq T HT.
  - exists T. split; [done |]. split; [lia | done].
  - cbn [fold_left].
    destruct (mergeStep_monotone a enq item id T HT) as (T1 & H1 & Hu1 & Hc1).
    destruct (mergeStep (a, enq) item) as [a1 enq1].
    destruct (IH a1 enq1 T1 H1) as (T2 & H2 & Hu2 & Hc2).
    exists T2. split; [done |]. split; [lia | congruence].
Qed.

(** After the merge loop every record of the payload finds its id stored
    with a record that is not older. *)
Lemma fold_mergeStep_covers (imported : list Task) :
  ∀ a enq t,
    t ∈ imported →
    ∃ T, tasks (fst (fold_left mergeStep imported (a, enq))) !! ID t = Some T ∧
         UpdatedAt t ≤ UpdatedAt T.
Proof.
  induction imported as [|item imported IH]; intros a enq t Ht;
    [by apply elem_of_nil in Ht |].
  cbn [fold_left]. apply elem_of_cons in Ht as [-> | Ht].
  - assert (∃ T1, tasks (fst (mergeStep (a, enq) item)) !! ID item = Some T1 ∧
                  UpdatedAt item ≤ UpdatedAt T1) as (T1 & H1 & Hu1).
    { unfold mergeStep. destruct (tasks a !! ID item) as [existing|] eqn:Hex.
      - destruct (Z.ltb_spec (UpdatedAt existing) (UpdatedAt item)).
        + simpl. rewrite lookup_insert_eq. eexists. split; [done |]. simpl. lia.
        + exists existing. split; [done | lia].
      - simpl. rewrite lookup_insert_eq. exists item. split; [done | lia]. }
    destruct (mergeStep (a, enq) item) as [a1 enq1].
    destruct (fold_mergeStep_monotone imported (ID item) a1 enq1 T1 H1)
      as (T2 & H2 & Hu2 & _).
    exists T2. split; [done | lia].
  - destruct (mergeStep (a, enq) item) as [a1 enq1]. by apply IH.
Qed.

(** The merge loop changes nothing when every record finds its id stored
    with a record that is not older. *)
Lemma fold_mergeStep_noop (imported : list Task) (a : App) (enq : list string) :
  (∀ t, t ∈ imported →
        ∃ T, tasks a !! ID t = Some T ∧ UpdatedAt t ≤ UpdatedAt T) →
  fold_left mergeStep imported (a, enq) = (a, enq).
Proof.
  induction imported as [|item imported IH]; intros Hold; [done |].
  cbn [fold_left]. destruct (Hold item) as (T & HT & Hle);
    [apply elem_of_cons; by left |].
  rewrite (mergeStep_not_newer a enq item T HT Hle). apply IH.
  intros t Ht. apply Hold, elem_of_cons. by right.
Qed.

(** Merge import is idempotent: importing the same records again returns the
    same list and state, with nothing more sent to the queue.  A merge import
    keeps every stored id stored, never lowers its [updatedAt] and never
    changes its [createdAt]. *)
Theorem X3_merge_import_idempotent_and_monotone :
  ∀ (imported : list Task) (a : App),
    importMerge imported (snd (importMerge imported a))
      = importMerge imported a ∧
    (∀ text overwrite,
        ImportTasks E text "merge" overwrite
          (snd (ImportTasks E text "merge" overwrite a))
        = ImportTasks E text "merge" overwrite a) ∧
    (∀ id T, tasks a !! id = Some T →
       ∃ T', tasks (snd (importMerge imported a)) !! id = Some T' ∧
             UpdatedAt T ≤ UpdatedAt T' ∧ CreatedAt T' = CreatedAt T) ∧
    (∀ t, t ∈ imported →
       ∃ T, tasks (snd (importMerge imported a)) !! ID t = Some T ∧
            UpdatedAt t ≤ UpdatedAt T).
Proof.
  intros imported a.
  assert (∀ l a0, importMerge l (snd (importMerge l a0)) = importMerge l a0)
    as Hidem.
  { intros l a0. unfold importMerge at 2 3.
    pose proof (fold_mergeStep_covers l a0 []) as Hcov.
    destruct (fold_left mergeStep l (a0, [])) as [a1 enq1] eqn:Hfold.
    cbn [fst snd] in *. unfold importMerge.
    rewrite (fold_mergeStep_noop l (enqueueTasks enq1 a1) []).
    + unfold enqueueTasks at 2. simpl. rewrite app_nil_r. by destruct a1.
    + intros t Ht. destruct (Hcov t Ht) as (T & HT & Hle). by exists T. }
  split; [apply Hidem |]. split.
  { intros text overwrite. unfold ImportTasks.
    destruct (String.eqb (TrimSpace text) ""); [done |].
    destruct (json_Unmarshal E text) as [raw|]; [| done].
    destruct (prepareImport E overwrite raw) as [prepared|]; [| done].
    cbn. specialize (Hidem prepared a).
    destruct (importMerge prepared a) as [out a1]. cbn in *.
    by rewrite Hidem. }
  unfold importMerge.
  pose proof (fold_mergeStep_covers imported a []) as Hcov.
  pose proof (fold_mergeStep_monotone imported) as Hmono.
  destruct (fold_left mergeStep imported (a, [])) as [a1 enq1] eqn:Hfold.
  cbn [fst snd] in *. split.
  - intros id T HT. specialize (Hmono id a [] T HT). by rewrite Hfold in Hmono.
  - intros t Ht. destruct (Hcov t Ht) as (T & HT & Hle). by exists T.
Qed.

Lemma fold_replaceStep_enqueue (l : list Task) :
  ∀ a0 enq0,
    snd (fold_left replaceStep l (a0, enq0))
      = enq0 ++ map ID (filter (λ t, isQueued t = true) l) ∧
    queue (fst (fold_left replaceStep l (a0, enq0))) = queue a0 ∧
    (∀ id, id ∉ map ID l →
           tasks (fst (fold_left replaceStep l (a0, enq0))) !! id
           = tasks a0 !! id).
Proof.
  induction l as [|x l IH]; intros a0 enq0.
  - simpl. by rewrite app_nil_r.
  - cbn [fold_left replaceStep].
    match goal with
    | |- context [fold_left replaceStep l (?a1, ?e1)] =>
        destruct (IH a1 e1) as (He & Hq & Ht)
    end.
    rewrite He, Hq. rewrite filter_cons.
    change (String.eqb (Status x) statusQueued) with (isQueued x).
    split; [| split; [done |]].
    + destruct (isQueued x) eqn:Hx.
      * rewrite decide_True by done. simpl. by rewrite <- app_assoc.
      * by rewrite decide_False by done.
    + intros id Hid. rewrite Ht.
      * simpl. rewrite lookup_insert_ne; [done |].
        intros Heq. apply Hid. simpl. apply elem_of_cons. by left.
      * intros Hin. apply Hid. simpl. apply elem_of_cons. by right.
Qed.

(** Replace import discards the store: afterwards [order] is the ids of the
    records in payload order, no id outside the payload is stored, the last
    record of each id is the stored one, and exactly the ids of the [Queued]
    records are sent to the queue, in payload order. *)
Theorem X4_replace_import_rebuilds_store :
  ∀ (imported : list Task) (a : App),
    order (snd (importReplace imported a)) = map ID imported ∧
    queue (snd (importReplace imported a))
      = queue a ++ map ID (filter (λ t, isQueued t = true) imported) ∧
    (∀ id, id ∉ map ID imported →
           tasks (snd (importReplace imported a)) !! id = None) ∧
    (∀ before t after,
        imported = before ++ t :: after → ID t ∉ map ID after →
        tasks (snd (importReplace imported a)) !! ID t = Some t).
Proof.
  intros imported a. unfold importReplace.
  destruct (fold_replaceStep_enqueue imported (set_order [] (set_tasks ∅ a)) [])
    as (He & Hq & Ht).
  assert (order (fst (fold_left replaceStep imported
                        (set_order [] (set_tasks ∅ a), [])))
          = map ID imported) as Ho.
  { clear. generalize (@nil string) at 2. intros enq.
    change (map ID imported) with ([] ++ map ID imported).
    change [] with (order (set_order [] (set_tasks ∅ a))) at 2.
    generalize (set_order [] (set_tasks ∅ a)). revert enq.
    induction imported as [|x l IH]; intros enq a0.
    - simpl. by rewrite app_nil_r.
    - cbn [fold_left replaceStep]. rewrite IH. simpl.
      by rewrite <- app_assoc. }
  assert (∀ before t after,
    imported = before ++ t :: after → ID t ∉ map ID after →
    tasks (fst (fold_left replaceStep imported
                  (set_order [] (set_tasks ∅ a), []))) !! ID t = Some t)
    as Hlast.
  { intros before t after -> Hafter. rewrite fold_left_app.
    destruct (fold_left replaceStep before _) as [a1 enq1].
    cbn [fold_left replaceStep].
    match goal with
    | |- context [fold_left replaceStep after (?a2, ?e2)] =>
        destruct (fold_replaceStep_enqueue after a2 e2) as (_ & _ & Hkeep)
    end.
    rewrite Hkeep by done. simpl. apply lookup_insert_eq. }
  destruct (fold_left replaceStep imported _) as [a1 enq1].
  cbn [fst snd] in *. split; [done |]. split.
  - simpl. by rewrite Hq, He.
  - split; [| done]. intros id Hid. simpl. by rewrite Ht.
Qed.

End ImportMore.

(** ** The store invariant across the operations *)

Section InvariantAcross.

Variable E : Env.

Lemma workerSections_consistent (id : string) (secs : list WorkerSection) :
  ∀ a, storeConsistent a → storeConsistent (workerSections id secs a).
Proof.
  unfold workerSections.
  induction secs as [|sec secs IH]; intros a Hc; [done |].
  cbn [fold_left]. by apply IH, workerSection_consistent.
Qed.

Lemma storeConsistent_pairApp : storeConsistent pairApp.
Proof.
  split; [| split].
  - apply NoDup_cons. split; [| apply NoDup_singleton].
    by intros ?%list_elem_of_singleton.
  - intros id. simpl. rewrite !elem_of_cons, elem_of_nil.
    destruct (decide ("b" = id)) as [<- | Hb].
    + rewrite lookup_insert_eq. split; [eauto | by right; left].
    + rewrite lookup_insert_ne by done.
      destruct (decide ("a" = id)) as [<- | Ha].
      * rewrite lookup_singleton_eq. split; [eauto | by left].
      * rewrite lookup_singleton_ne by done.
        split; [intros [? | [? | []]]; congruence | by intros [? ?]].
  - intros id t. simpl. destruct (decide ("b" = id)) as [<- | Hb].
    + rewrite lookup_insert_eq. by intros [= <-].
    + rewrite lookup_insert_ne by done.
      intros [<- <-]%lookup_singleton_Some. done.
Qed.

Lemma ImportTasks_error_state (text mode : string) (overwrite : bool)
    (a : App) (e : string) :
  fst (ImportTasks E text mode overwrite a) = Err e →
  snd (ImportTasks E text mode overwrite a) = a.
Proof.
  unfold ImportTasks.
  destruct (String.eqb (TrimSpace text) ""); [done |].
  destruct (json_Unmarshal E text) as [raw|]; [| done].
  destruct (prepareImport E overwrite raw) as [prepared|]; [| done].
  destruct (String.eqb mode "merge");
    [by destruct (importMerge prepared a) |].
  destruct (String.eqb mode "replace");
    [by destruct (importReplace prepared a) | done].
Qed.

(** From a store that satisfies the invariant ([order] lists the stored ids,
    each once, and every task is stored under its own id), the invariant
    holds again after [DeleteTask], [ResumeTask], [ForceResumeTask], any
    worker section, a whole [runTask], a prefetch, and [ImportTasks] in merge
    mode with any payload, in any mode when it fails, and in replace mode
    when the ids of the payload are pairwise distinct. *)
Theorem X5_store_invariant_kept :
  ∀ (a : App),
    storeConsistent a →
    (∀ id, storeConsistent (snd (DeleteTask E id a))) ∧
    (∀ now id, storeConsistent (snd (ResumeTask now id a))) ∧
    (∀ now id, storeConsistent (snd (ForceResumeTask now id a))) ∧
    (∀ id sec, storeConsistent (workerSection id a sec)) ∧
    (∀ obs id, storeConsistent (runTask E obs id a)) ∧
    (∀ now id metadata,
        storeConsistent (prefetchTaskMetadata now id metadata a)) ∧
    (∀ text overwrite,
        storeConsistent (snd (ImportTasks E text "merge" overwrite a))) ∧
    (∀ text mode overwrite e,
        fst (ImportTasks E text mode overwrite a) = Err e →
        storeConsistent (snd (ImportTasks E text mode overwrite a))) ∧
    (∀ text overwrite raw,
        json_Unmarshal E text = Some raw → NoDup (map ID raw) →
        storeConsistent (snd (ImportTasks E text "replace" overwrite a))).
Proof.
  intros a Hc.
  split; [intros id; by apply DeleteTask_consistent |].
  split; [intros now id; by apply ResumeTask_consistent |].
  split; [intros now id; by apply ForceResumeTask_consistent |].
  split; [intros id sec; by apply workerSection_consistent |].
  split.
  { intros obs id. destruct (runTask_sections E obs id a) as [secs ->].
    by apply workerSections_consistent. }
  split.
  { intros now id md.
    apply (workerSection_consistent id a (SecPrefetch now md) Hc). }
  split.
  { intros text overwrite. unfold ImportTasks.
    destruct (String.eqb (TrimSpace text) ""); [done |].
    destruct (json_Unmarshal E text) as [raw|]; [| done].
    destruct (prepareImport E overwrite raw) as [prepared|]; [| done].
    cbn. pose proof (importMerge_consistent prepared a Hc) as Hm.
    by destruct (importMerge prepared a). }
  split.
  { intros text mode overwrite e He.
    by rewrite (ImportTasks_error_state text mode overwrite a e He). }
  intros text overwrite raw Hdec Hnd. unfold ImportTasks.
  destruct (String.eqb (TrimSpace text) ""); [done |]. rewrite Hdec.
  destruct (prepareImport E overwrite raw) as [prepared|] eqn:Hp; [| done].
  destruct (prepareImport_ids E _ _ _ Hp) as (_ & Hids & _).
  cbn. pose proof (importReplace_consistent prepared a) as Hr.
  rewrite Hids in Hr. specialize (Hr Hnd).
  by destruct (importReplace prepared a).
Qed.

End InvariantAcross.

(** The invariant at a store with two tasks, after deleting one and running
    the other. *)
Lemma X5_store_invariant_kept_witness :
  storeConsistent (snd (DeleteTask pairEnv "a" pairApp)) ∧
  storeConsistent
    (runTask pairEnv
       (mkRun (14 * minute) None (14 * minute) false (14 * minute) []
          (Some (ExitError 1 "exit status 1")) (14 * minute) (15 * minute)
          pairEnv (15 * minute))
       "b" pairApp).
Proof.
  destruct (X5_store_invariant_kept pairEnv pairApp storeConsistent_pairApp)
    as (H1 & _ & _ & _ & H5 & _).
  split; [apply H1 | apply H5].
Defined.

(** ** Listing and persistence *)

Section ListPersist.

Variable E : Env.

Lemma snapshotOf_live (m : gmap string Task) (ids : list string) :
  (∀ i, i ∈ ids → is_Some (m !! i)) →
  length (snapshotOf m ids) = length ids ∧
  ∀ t, t ∈ snapshotOf m ids ↔ ∃ i, i ∈ ids ∧ m !! i = Some t.
Proof.
  intros Hlive. split.
  - induction ids as [|i ids IH]; [done |]. simpl.
    destruct (Hlive i) as [t Ht]; [apply elem_of_cons; by left |].
    rewrite Ht. simpl. f_equal. apply IH.
    intros j Hj. apply Hlive, elem_of_cons. by right.
  - intros t. split; [apply snapshotOf_elem |].
    intros (i & Hi & Hm). clear Hlive.
    induction ids as [|j ids IH]; [by apply elem_of_nil in Hi |]. simpl.
    apply elem_of_cons in Hi as [<- | Hi].
    + rewrite Hm. apply elem_of_cons. by left.
    + destruct (m !! j); [apply elem_of_cons; right |]; by apply IH.
Qed.

(** On a store that satisfies the invariant, [ListTasks] returns every
    stored task exactly once, in the order of [order]. *)
Theorem X6_ListTasks_lists_the_store :
  ∀ (a : App),
    storeConsistent a →
    map ID (ListTasks a) = order a ∧
    length (ListTasks a) = size (tasks a) ∧
    NoDup (ListTasks a) ∧
    (∀ t, t ∈ ListTasks a ↔ tasks a !! ID t = Some t).
Proof.
  intros a (Hnd & Hdom & Hkey).
  assert (map ID (ListTasks a) = order a) as Hids.
  { apply snapshotOf_ids; [done |]. intros id Hid. by apply Hdom. }
  destruct (snapshotOf_live (tasks a) (order a)) as [Hlen Hin].
  { intros id Hid. by apply Hdom. }
  split; [done |]. split; [| split].
  - unfold ListTasks, snapshot. rewrite Hlen.
    rewrite <- (size_dom (tasks a)).
    assert (dom (tasks a) = list_to_set (order a)) as ->.
    { apply set_eq. intros id.
      rewrite elem_of_dom, elem_of_list_to_set. by rewrite Hdom. }
    by rewrite size_list_to_set.
  - apply (NoDup_fmap_1 ID). change (NoDup (map ID (ListTasks a))).
    by rewrite Hids.
  - intros t. unfold ListTasks, snapshot. rewrite Hin. split.
    + intros (i & Hi & Hm). by rewrite (Hkey _ _ Hm).
    + intros Hm. exists (ID t). split; [| done]. apply Hdom. eauto.
Qed.

(** The loop of [loadTasks] over records with pairwise distinct ids stores
    each record under its id and appends the ids to [order]. *)
Lemma fold_loadStep_spec (items : list Task) :
  ∀ a,
    NoDup (map ID items) →
    order (fold_left loadStep items a) = order a ++ map ID items ∧
    queue (fold_left loadStep items a) = queue a ∧
    (∀ t, t ∈ items → tasks (fold_left loadStep items a) !! ID t = Some t) ∧
    (∀ id, id ∉ map ID items →
           tasks (fold_left loadStep items a) !! id = tasks a !! id).
Proof.
  induction items as [|item items IH]; intros a Hnd.
  - simpl. rewrite app_nil_r. split; [done |]. split; [done |].
    split; [by intros t ?%elem_of_nil | done].
  - cbn [fold_left]. apply NoDup_cons in Hnd as [Hitem Hnd].
    destruct (IH (loadStep a item) Hnd) as (Ho & Hq & Hin & Hout).
    split; [| split; [| split]].
    + rewrite Ho. simpl. by rewrite <- app_assoc.
    + by rewrite Hq.
    + intros t [-> | Ht]%elem_of_cons; [| by apply Hin].
      rewrite Hout by done. simpl. apply lookup_insert_eq.
    + intros id Hid. rewrite Hout.
      * simpl. rewrite lookup_insert_ne; [done |]. intros Heq. apply Hid.
        simpl. apply elem_of_cons. by left.
      * intros Hin'. apply Hid. simpl. apply elem_of_cons. by right.
Qed.

(** Persistence round trip.  For a store that satisfies the invariant and a
    codec that round-trips its task list, the document [saveTasks] writes,
    loaded by [loadTasks] into the empty store of a fresh start, restores the
    map and [order], hence the task list; the queue starts empty.  When the
    tasks file cannot be read or decoded the store stays as it is. *)
Theorem X7_save_then_load_restores_the_store :
  ∀ (a : App) (doc : string),
    storeConsistent a →
    codecRoundTrips E (ListTasks a) →
    saveTasks E a = Some doc →
    tasks (loadTasks E (Some doc) NewApp) = tasks a ∧
    order (loadTasks E (Some doc) NewApp) = order a ∧
    ListTasks (loadTasks E (Some doc) NewApp) = ListTasks a ∧
    queue (loadTasks E (Some doc) NewApp) = [] ∧
    (∀ b, loadTasks E None b = b) ∧
    (∀ b data, json_Unmarshal E data = None → loadTasks E (Some data) b = b).
Proof.
  intros a doc Hc Hlaw Hsave.
  pose proof Hc as (Hnd & Hdom & Hkey).
  destruct (Hlaw doc Hsave) as [_ Hdec].
  assert (map ID (ListTasks a) = order a) as Hids.
  { apply snapshotOf_ids; [done |]. intros id Hid. by apply Hdom. }
  destruct (snapshotOf_live (tasks a) (order a)) as [_ Hin].
  { intros id Hid. by apply Hdom. }
  unfold loadTasks. rewrite Hdec.
  destruct (fold_loadStep_spec (ListTasks a) NewApp) as (Ho & Hq & Hst & Hout).
  { by rewrite Hids. }
  assert (tasks (fold_left loadStep (ListTasks a) NewApp) = tasks a) as Hmap.
  { apply map_eq. intros id.
    destruct (tasks a !! id) as [t|] eqn:Ht.
    - rewrite <- (Hkey _ _ Ht). apply Hst. apply Hin. exists id.
      split; [| done]. apply Hdom. eauto.
    - rewrite Hout; [done |]. rewrite Hids. intros Hid%Hdom.
      rewrite Ht in Hid. by destruct Hid. }
  split; [done |]. split; [by rewrite Ho, Hids |]. split.
  { unfold ListTasks at 1, snapshot. by rewrite Hmap, Ho, Hids. }
  split; [by rewrite Hq |]. split; [done |].
  intros b data Hnone. by rewrite Hnone.
Qed.

(** [updateTaskProgress] on a stored task sets the three progress fields to
    the trimmed parts of the report and stamps the task; reporting the same
    progress again changes nothing, whatever the clock says. *)
Theorem X8_updateTaskProgress_sets_and_settles :
  ∀ (now now' : Z) (id progress : string) (a : App) (task : Task),
    tasks a !! id = Some task →
    let a' := updateTaskProgress now id progress a in
    (∃ task',
        tasks a' !! id = Some task' ∧
        Progress task'
          = TrimSpace (default "" (splitByteN "|" progress 3 !! 0%nat)) ∧
        Speed task'
          = default "" (TrimSpace <$> splitByteN "|" progress 3 !! 1%nat) ∧
        ETA task'
          = default "" (TrimSpace <$> splitByteN "|" progress 3 !! 2%nat) ∧
        ID task' = ID task ∧ Status task' = Status task ∧
        (task' = task ∨ UpdatedAt task' = now)) ∧
    order a' = order a ∧ queue a' = queue a ∧
    (∀ other, other ≠ id → tasks a' !! other = tasks a !! other) ∧
    updateTaskProgress now' id progress a' = a'.
Proof.
  intros now now' id progress a task Ht a'. subst a'.
  unfold updateTaskProgress. rewrite Ht.
  set (percent := TrimSpace _). set (speed := default "" (TrimSpace <$> _)).
  set (eta := default "" (TrimSpace <$> _)).
  destruct (String.eqb (Progress task) percent && String.eqb (Speed task) speed
            && String.eqb (ETA task) eta) eqn:Hsame.
  - rewrite Ht, Hsame.
    apply andb_true_iff in Hsame as [[Hp Hs]%andb_true_iff He].
    apply String.eqb_eq in Hp, Hs, He.
    split; [exists task; auto 10 |]. done.
  - cbn [tasks set_tasks order queue]. rewrite lookup_insert_eq.
    cbn [Progress Speed ETA set_UpdatedAt set_ETA set_Speed set_Progress].
    rewrite !String.eqb_refl. cbn [andb].
    split; [eexists; split; [done |]; auto 10 |].
    split; [done |]. split; [done |]. split; [| done].
    intros other Hne. by rewrite lookup_insert_ne.
Qed.

End ListPersist.

(** The invariant-based facts at [pairApp]. *)
Lemma X6_ListTasks_lists_the_store_witness :
  map ID (ListTasks pairApp) = order pairApp ∧
  length (ListTasks pairApp) = size (tasks pairApp).
Proof.
  destruct (X6_ListTasks_lists_the_store pairApp storeConsistent_pairApp)
    as (H1 & H2 & _).
  split; [exact H1 | exact H2].
Defined.

(** The round trip at [pairApp], whose snapshot [pairEnv] encodes as
    [pairText]. *)
Lemma X7_save_then_load_restores_the_store_witness :
  saveTasks pairEnv pairApp = Some pairText ∧
  ListTasks (loadTasks pairEnv (Some pairText) NewApp) = ListTasks pairApp.
Proof.
  split; [reflexivity |].
  apply (X7_save_then_load_restores_the_store pairEnv pairApp pairText).
  - exact storeConsistent_pairApp.
  - intros doc. change (ListTasks pairApp) with [pairDone; pairQueued].
    unfold pairEnv, exampleEnv. cbn [json_MarshalIndent json_Unmarshal].
    destruct (decide _) as [_ | Hne]; [| by destruct Hne].
    intros [= <-]. split; [vm_compute; discriminate | reflexivity].
  - reflexivity.
Defined.

(** A progress report on the running task of [runningApp]. *)
Lemma X8_updateTaskProgress_sets_and_settles_witness :
  ∃ task',
    tasks (updateTaskProgress (12 * minute) "a" " 50.0% | 2MiB/s | 00:05 "
             runningApp) !! "a" = Some task' ∧
    Progress task' = "50.0%" ∧ Speed task' = "2MiB/s" ∧ ETA task' = "00:05".
Proof.
  destruct (X8_updateTaskProgress_sets_and_settles (12 * minute) (13 * minute)
              "a" " 50.0% | 2MiB/s | 00:05 " runningApp runningTask eq_refl)
    as ((task' & Hl & Hp & Hs & He & _) & _).
  exists task'. split; [exact Hl |].
  split; [rewrite Hp; reflexivity |].
  split; [rewrite Hs; reflexivity | rewrite He; reflexivity].
Defined.
